(** * The YAML configuration loader (src/conf-yaml-loader.c)

    A shallow embedding of [ConfYamlParse], [ConfYamlLoadFile] and
    [ConfYamlLoadString] over an explicit store of configuration nodes,
    and the properties of the loader stated over it.

    The first part holds the definitions: the event source, the
    configuration tree, the loader and the notions its properties are
    stated with.  The second part holds the lemmas and the theorems. *)

From Stdlib Require Import ZArith String DecimalString Lia.
From stdpp Require Import base option list strings.

Local Open Scope string_scope.
Local Open Scope nat_scope.
Local Open Scope list_scope.

(** * Definitions *)

(** ** The event source (libyaml)

    libyaml is an external library.  The loader only calls
    [yaml_parser_parse], which hands out one event per call.  A parser
    is modelled by what it is going to deliver: a list of events, with
    [Problem] marking the place where the scanner reports an error. *)

Module Yaml.

Record yaml_version_directive_t : Type :=
  { major : Z; minor : Z }.

Inductive yaml_event_t : Type :=
| YAML_NO_EVENT
| YAML_STREAM_START_EVENT
| YAML_STREAM_END_EVENT
| YAML_DOCUMENT_START_EVENT (version_directive : option yaml_version_directive_t)
| YAML_DOCUMENT_END_EVENT
| YAML_ALIAS_EVENT (anchor : string)
| YAML_SCALAR_EVENT (value : string)
| YAML_SEQUENCE_START_EVENT
| YAML_SEQUENCE_END_EVENT
| YAML_MAPPING_START_EVENT
| YAML_MAPPING_END_EVENT.

Inductive yaml_item : Type :=
| Event (e : yaml_event_t)
| Problem.

Definition yaml_parser_t : Type := list yaml_item.

(** [yaml_parser_parse parser] is [(None, parser')] when the call
    returns 0 (an error), and [(Some event, parser')] when it returns
    1.  Once the stream has ended or an error has been reported,
    libyaml keeps returning 1 with an erased event, whose type is
    [YAML_NO_EVENT]. *)
Definition yaml_parser_parse (parser : yaml_parser_t)
  : option yaml_event_t * yaml_parser_t :=
  match parser with
  | [] => (Some YAML_NO_EVENT, [])
  | Problem :: _ => (None, [])
  | Event e :: parser' => (Some e, parser')
  end.

End Yaml.
Export Yaml.

(** ** The configuration tree (conf.h, conf.c)

    Nodes live in a store and are referred to by address, as in C: the
    loader keeps several pointers to one node ([parent], [node]) and
    writes through them.  An address is an index into the store; a
    released cell holds [None]. *)

Abbreviation ptr := nat.

Record ConfNode : Type := mkConfNode
  { name : option string;
    val : option string;
    is_seq : bool;
    allow_override : bool;
    head : list ptr }.

Abbreviation store := (list (option ConfNode)).

(** The node a pointer refers to, if it is live. *)
Definition deref (h : store) (p : ptr) : option ConfNode :=
  match h !! p with
  | Some (Some nd) => Some nd
  | _ => None
  end.

(** A write through a pointer.  Through a pointer that is not live it
    is undefined behaviour in C; the model leaves the store as it is,
    and a flag read through such a pointer reads as unset. *)
Definition store_alter (f : ConfNode → ConfNode) (p : ptr) (h : store) : store :=
  alter (fmap f) p h.

Definition set_name (s : string) (nd : ConfNode) : ConfNode :=
  mkConfNode (Some s) (val nd) (is_seq nd) (allow_override nd) (head nd).

Definition set_val (s : string) (nd : ConfNode) : ConfNode :=
  mkConfNode (name nd) (Some s) (is_seq nd) (allow_override nd) (head nd).

Definition set_is_seq (b : bool) (nd : ConfNode) : ConfNode :=
  mkConfNode (name nd) (val nd) b (allow_override nd) (head nd).

Definition set_head (l : list ptr) (nd : ConfNode) : ConfNode :=
  mkConfNode (name nd) (val nd) (is_seq nd) (allow_override nd) l.

(** [TAILQ_INSERT_TAIL(&parent->head, n, next)]. *)
Definition TAILQ_INSERT_TAIL (parent n : ptr) (h : store) : store :=
  store_alter (λ nd, set_head (head nd ++ [n]) nd) parent h.

(** A node with nothing set. *)
Definition blank : ConfNode := mkConfNode None None false false [].

(** Modelled from the spec: [ConfNodeNew] of conf.c is not part of the
    sources at hand.  "new_node() returns a fresh detached node with
    allow_override = false, is_seq = false, empty value, empty
    children."  The fresh address is the first unused cell. *)
Definition ConfNodeNew (h : store) : ptr * store :=
  (length h, h ++ [Some blank]).

(** [strcmp(child->name, name) == 0]. *)
Definition name_is (h : store) (s : string) (c : ptr) : bool :=
  match deref h c with
  | Some cd => bool_decide (name cd = Some s)
  | None => false
  end.

(** Modelled from the spec: [ConfNodeLookupChild] of conf.c is not part
    of the sources at hand.  "lookup_child(parent, name): first child
    with matching name, or none." *)
Definition ConfNodeLookupChild (h : store) (parent : ptr) (s : string) : option ptr :=
  match deref h parent with
  | Some pd => List.find (name_is h s) (head pd)
  | None => None
  end.

(** Modelled from the spec: the release of a node and its subtree, as
    done by "remove(node)".  The cell of [n] is released, then the
    subtrees of its children, one after the other.  A cell is released
    at most once and a released cell has no children, so the recursion
    is never deeper than the number of live cells; [fuel] bounds that
    depth. *)
Fixpoint ConfNodeFree (fuel : nat) (n : ptr) (h : store) : store :=
  match fuel with
  | O => h
  | S fuel =>
      match deref h n with
      | Some nd => foldl (λ h c, ConfNodeFree fuel c h) (<[n := None]> h) (head nd)
      | None => h
      end
  end.

(** Modelled from the spec: [ConfNodeRemove] of conf.c is not part of
    the sources at hand.  "remove(node) detaches and releases node and
    its subtree."  The loader removes a node it has just found in the
    queue of [parent], so that is the queue it is unlinked from; then
    the cells of the node and of its descendants are released. *)
Definition ConfNodeRemove (parent n0 : ptr) (h : store) : store :=
  ConfNodeFree (length h) n0
    (store_alter (λ nd, set_head (List.filter (λ c, negb (c =? n0)) (head nd)) nd) parent h).

(** ** The loader *)

Definition YAML_VERSION_MAJOR : Z := 1.
Definition YAML_VERSION_MINOR : Z := 1.

(** [snprintf(name, DEFAULT_NAME_LEN, "%d", seq_idx)]: the decimal
    rendering of an [int] has at most 11 characters and fits the 16
    bytes of the buffer. *)
Definition snprintf_d (i : Z) : string :=
  NilZero.string_of_int (Z.to_int i).

Inductive conf_state : Type := CONF_KEY | CONF_VAL.

(** The local variables of one activation of [ConfYamlParse] that
    change in the loop.  [seq_idx] is a C [int]; it is only ever
    incremented from 0, once per element of one sequence, and is kept
    here as an unbounded integer. *)
Record locals : Type := mkLocals
  { node : ptr;
    state : conf_state;
    seq_idx : Z }.

(** What one turn of the loop ends in: the label [next] (go round
    again) or a [return]. *)
Inductive flow : Type :=
| Next (h : store) (l : locals)
| Return (ret : Z) (h : store).

Definition result : Type := Z * yaml_parser_t * store.

Section Body.

(** The recursive call [ConfYamlParse(parser, parent, inseq)]. *)
Variable call : yaml_parser_t → store → ptr → bool → option result.

(** Lines 101-109: a key that is to get a node.  A parent that is a
    mapping item of a sequence takes the first such key as its value. *)
Definition new_key (value : string) (parent : ptr) (l : locals) (h : store) : flow :=
  let h :=
    match deref h parent with
    | Some pd =>
        if is_seq pd
        then match val pd with
             | None => store_alter (set_val value) parent h
             | Some _ => h
             end
        else h
    | None => h
    end in
  let '(n, h) := ConfNodeNew h in
  let h := store_alter (set_name value) n h in
  let h := TAILQ_INSERT_TAIL parent n h in
  Next h (mkLocals n CONF_VAL (seq_idx l)).

(** Lines 74-116, [YAML_SCALAR_EVENT]. *)
Definition on_scalar (value : string) (h : store) (parent : ptr) (inseq : bool)
    (l : locals) : flow :=
  if inseq then
    let '(seq_node, h) := ConfNodeNew h in
    let h := store_alter (set_name (snprintf_d (seq_idx l))) seq_node h in
    let h := store_alter (set_val value) seq_node h in
    let h := TAILQ_INSERT_TAIL parent seq_node h in
    Next h (mkLocals (node l) (state l) (seq_idx l + 1))
  else
    match state l with
    | CONF_KEY =>
        match ConfNodeLookupChild h parent value with
        | Some n0 =>
            if from_option allow_override false (deref h n0)
            then new_key value parent l (ConfNodeRemove parent n0 h)
            else Next h (mkLocals (node l) CONF_VAL (seq_idx l))
        | None => new_key value parent l h
        end
    | CONF_VAL =>
        Next (store_alter (set_val value) (node l) h)
             (mkLocals (node l) CONF_KEY (seq_idx l))
    end.

(** Lines 55-148, the body of the loop for one event.  The value of
    the two calls made for [YAML_MAPPING_START_EVENT] is not looked
    at. *)
Definition on_event (event : yaml_event_t) (parser : yaml_parser_t) (h : store)
    (parent : ptr) (inseq : bool) (l : locals) : option (flow * yaml_parser_t) :=
  match event with
  | YAML_DOCUMENT_START_EVENT ver =>
      match ver with
      | None => Some (Return (-1) h, parser)
      | Some v =>
          if (major v =? YAML_VERSION_MAJOR)%Z && (minor v =? YAML_VERSION_MINOR)%Z
          then Some (Next h l, parser)
          else Some (Return (-1) h, parser)
      end
  | YAML_SCALAR_EVENT value =>
      Some (on_scalar value h parent inseq l, parser)
  | YAML_SEQUENCE_START_EVENT =>
      match call parser h (node l) true with
      | None => None
      | Some (r, parser, h) =>
          if (r =? 0)%Z
          then Some (Next h (mkLocals (node l) CONF_KEY (seq_idx l)), parser)
          else Some (Return (-1) h, parser)
      end
  | YAML_SEQUENCE_END_EVENT =>
      Some (Return 0 h, parser)
  | YAML_MAPPING_START_EVENT =>
      if inseq then
        let '(seq_node, h) := ConfNodeNew h in
        let h := store_alter (set_is_seq true) seq_node h in
        let h := store_alter (set_name (snprintf_d (seq_idx l))) seq_node h in
        let h := TAILQ_INSERT_TAIL (node l) seq_node h in
        match call parser h seq_node false with
        | None => None
        | Some (_, parser, h) =>
            Some (Next h (mkLocals (node l) CONF_KEY (seq_idx l + 1)), parser)
        end
      else
        match call parser h (node l) inseq with
        | None => None
        | Some (_, parser, h) =>
            Some (Next h (mkLocals (node l) CONF_KEY (seq_idx l)), parser)
        end
  | YAML_MAPPING_END_EVENT => Some (Return 0 h, parser)
  | YAML_STREAM_END_EVENT => Some (Return 0 h, parser)
  | _ => Some (Next h l, parser)
  end.

End Body.

(** Lines 42-46: [node = parent], [state = 0], [seq_idx = 0]. *)
Definition enter (parent : ptr) : locals := mkLocals parent CONF_KEY 0.

(** [ConfYamlParse_loop fuel] runs the [while (!done)] loop.  Each turn
    of the loop takes one unit of fuel and a recursive call gets what
    is left; [None] means that the fuel ran out.  The result is the
    value returned, the parser and the store. *)
Fixpoint ConfYamlParse_loop (fuel : nat) (parser : yaml_parser_t) (h : store)
    (parent : ptr) (inseq : bool) (l : locals) : option result :=
  match fuel with
  | O => None
  | S fuel =>
      match yaml_parser_parse parser with
      | (None, parser) => Some ((-1)%Z, parser, h)
      | (Some event, parser) =>
          match on_event
                  (λ parser h parent inseq,
                     ConfYamlParse_loop fuel parser h parent inseq (enter parent))
                  event parser h parent inseq l with
          | None => None
          | Some (Next h l, parser) => ConfYamlParse_loop fuel parser h parent inseq l
          | Some (Return r h, parser) => Some (r, parser, h)
          end
      end
  end.

Definition ConfYamlParse (fuel : nat) (parser : yaml_parser_t) (h : store)
    (parent : ptr) (inseq : bool) : option result :=
  ConfYamlParse_loop fuel parser h parent inseq (enter parent).

(** ** The entry points

    The environment of a load is made explicit: whether
    [yaml_parser_initialize] succeeds, the parser that libyaml runs
    over the file or the buffer, the root node returned by
    [ConfGetRootNode] and the store. *)

Inductive outcome : Type :=
| Returns (ret : Z) (h : store)
| Exits (status : Z).

Definition EXIT_FAILURE : Z := 1.

(** [infile] is [None] when [fopen] fails. *)
Definition ConfYamlLoadFile (fuel : nat) (initialize_ok : bool)
    (infile : option yaml_parser_t) (root : ptr) (h : store) : option outcome :=
  if negb initialize_ok then Some (Returns (-1) h)
  else
    match infile with
    | None => Some (Returns (-1) h)
    | Some parser =>
        match ConfYamlParse fuel parser h root false with
        | Some (ret, _, h) => Some (Returns ret h)
        | None => None
        end
    end.

Definition ConfYamlLoadString (fuel : nat) (initialize_ok : bool)
    (input : yaml_parser_t) (root : ptr) (h : store) : option outcome :=
  if negb initialize_ok then Some (Exits EXIT_FAILURE)
  else
    match ConfYamlParse fuel input h root false with
    | Some (ret, _, h) => Some (Returns ret h)
    | None => None
    end.

(** ** How a run of the loop changes the store

    [runs parent inseq l h h'] abstracts from the events and from the
    fuel: an activation on [parent] whose locals are [l] may take the
    store [h] to [h'].  The frame properties of the loader are proved
    by induction on it. *)

(** The store once a mapping met in sequence mode has got its node
    (lines 130-134), before the recursive call. *)
Definition seq_mapping_store (h : store) (at_node : ptr) (idx : Z) : store :=
  TAILQ_INSERT_TAIL at_node (length h)
    (store_alter (set_name (snprintf_d idx)) (length h)
       (store_alter (set_is_seq true) (length h) (ConfNodeNew h).2)).

Inductive runs : ptr → bool → locals → store → store → Prop :=
| runs_return parent inseq l h :
    runs parent inseq l h h
| runs_scalar parent inseq l h value h1 l1 h' :
    on_scalar value h parent inseq l = Next h1 l1 →
    runs parent inseq l1 h1 h' →
    runs parent inseq l h h'
| runs_sequence parent inseq l h h1 h' :
    runs (node l) true (enter (node l)) h h1 →
    runs parent inseq (mkLocals (node l) CONF_KEY (seq_idx l)) h1 h' →
    runs parent inseq l h h'
| runs_mapping_inseq parent l h h2 h' :
    runs (length h) false (enter (length h))
         (seq_mapping_store h (node l) (seq_idx l)) h2 →
    runs parent true (mkLocals (node l) CONF_KEY (seq_idx l + 1)) h2 h' →
    runs parent true l h h'
| runs_mapping parent l h h1 h' :
    runs (node l) false (enter (node l)) h h1 →
    runs parent false (mkLocals (node l) CONF_KEY (seq_idx l)) h1 h' →
    runs parent false l h h'.

(** ** Subtrees

    [under h c q]: the node [q] is in the subtree of [c], that is, [q]
    is [c] or is reached from it through the queues of live nodes. *)

Inductive under (h : store) : ptr → ptr → Prop :=
| under_refl c :
    under h c c
| under_step c cd d q :
    deref h c = Some cd → d ∈ head cd → under h d q → under h c q.

(** [shrinks h s]: the store [s] is [h] with some cells released. *)
Definition shrinks (h s : store) : Prop :=
  length s = length h ∧ ∀ q, s !! q = h !! q ∨ s !! q = Some None.

(** The number of live cells. *)
Definition count_live (h : store) : nat :=
  length (List.filter (λ o : option ConfNode, match o with Some _ => true | None => false end) h).

(** A live node on which [allow_override] is set. *)
Definition overridable (h : store) (p : ptr) : Prop :=
  ∃ nd, deref h p = Some nd ∧ allow_override nd = true.

(** [exposed h parent q]: the node [q] is in the subtree of a child of
    [parent] on which [allow_override] is set.  These are the nodes a
    key read into [parent] may release. *)
Definition exposed (h : store) (parent q : ptr) : Prop :=
  ∃ pd c, deref h parent = Some pd ∧ c ∈ head pd ∧ overridable h c ∧ under h c q.

(** ** Nodes the loader leaves alone

    [keeps q parent c h h'] relates the cell of a live node [q] before
    and after a run, in which nothing is removed, of an activation on
    [parent] whose cursor is [c]: the node is neither released nor
    renamed, its flags stay, its queue only grows at the end, a value
    it has is only replaced through the cursor, and the whole cell is
    untouched when [q] is neither the cursor nor the parent. *)

Definition keeps (q parent c : ptr) (h h' : store) : Prop :=
  ∀ nd, deref h q = Some nd →
    ∃ nd', deref h' q = Some nd' ∧
      name nd' = name nd ∧ is_seq nd' = is_seq nd ∧
      allow_override nd' = allow_override nd ∧
      (∃ more, head nd' = head nd ++ more) ∧
      (q ≠ c → is_Some (val nd) → val nd' = val nd) ∧
      (q ≠ c → q ≠ parent → nd' = nd).

(** ** Nodes created by a load

    [closed_from b h]: in the store [h], the children of the nodes at
    addresses [b] and above are at addresses [b] and above.  With [b]
    the size of the store at the start of a load, these are the nodes
    the load creates.  [same_below b h h']: the cells below [b] are the
    same in [h] and [h']. *)

Definition closed_from (b : nat) (h : store) : Prop :=
  ∀ q nd c, b ≤ q → deref h q = Some nd → c ∈ head nd → b ≤ c.

Definition same_below (b : nat) (h h' : store) : Prop :=
  ∀ q, q < b → h' !! q = h !! q.

(** [locked_from b h]: no node at an address [b] or above has
    [allow_override] set. *)
Definition locked_from (b : nat) (h : store) : Prop :=
  ∀ q nd, b ≤ q → deref h q = Some nd → allow_override nd = false.

(** ** What an activation may do to the nodes that were there before

    [frame_inv b P h0 h1] relates the store [h0] at the start of an
    activation on [P] to a later store [h1], for the cells below [b]:
    a cell other than that of [P] is as it was, or it has been released
    and was exposed; [P] is live, with its name and flags, its children
    below [b] are children it had, and it still has every child it had
    on which [allow_override] was not set. *)
Definition frame_inv (b : nat) (P : ptr) (h0 h1 : store) : Prop :=
  (∀ d, d < b → d ≠ P →
     h1 !! d = h0 !! d ∨ (h1 !! d = Some None ∧ exposed h0 P d)) ∧
  (∃ pd0 pd1, deref h0 P = Some pd0 ∧ deref h1 P = Some pd1 ∧
     name pd1 = name pd0 ∧ is_seq pd1 = is_seq pd0 ∧
     allow_override pd1 = allow_override pd0 ∧
     (∀ c, c ∈ head pd1 → c < b → c ∈ head pd0) ∧
     (∀ c, c ∈ head pd0 → ¬ overridable h0 c → c ∈ head pd1)).

(** [extends b P h1 h2]: from [h1] to [h2] the cells below [b] other
    than that of [P] do not change, and [P] keeps its name, its flags
    and its children, and gets no child below [b]. *)
Definition extends (b : nat) (P : ptr) (h1 h2 : store) : Prop :=
  (∀ d, d < b → d ≠ P → h2 !! d = h1 !! d) ∧
  (∀ pd1, deref h1 P = Some pd1 →
     ∃ pd2, deref h2 P = Some pd2 ∧
       name pd2 = name pd1 ∧ is_seq pd2 = is_seq pd1 ∧
       allow_override pd2 = allow_override pd1 ∧
       (∀ c, c ∈ head pd2 → c ∈ head pd1 ∨ b ≤ c) ∧
       (∀ c, c ∈ head pd1 → c ∈ head pd2)).

(** [still_child h' parent n nd]: in [h'] the node [n] has the cell [nd]
    and is in the queue of [parent]. *)
Definition still_child (h' : store) (parent n : ptr) (nd : ConfNode) : Prop :=
  deref h' n = Some nd ∧ ∃ pd', deref h' parent = Some pd' ∧ n ∈ head pd'.

(** [seed_kept h h' root p n nd]: in [h'] the node [n] is still in the
    queue of [p] with the cell [nd], and every cell of [h] is as it
    was, but for that of [root] and those of the nodes in the subtrees
    of the children of [root] on which [allow_override] is set.  In a
    tree, the descendants of [n] are outside these subtrees when [n]
    is. *)
Definition seed_kept (h h' : store) (root p n : ptr) (nd : ConfNode) : Prop :=
  still_child h' p n nd ∧
  ∀ q, q < length h → q ≠ root → ¬ exposed h root q → h' !! q = h !! q.

(** ** The node cursor *)

(** Whether an event read outside sequence mode makes a new child of
    the parent (lines 86-109): a scalar read in the key phase that
    names no child of the parent, or names one on which
    [allow_override] is set. *)
Definition makes_child (h : store) (parent : ptr) (l : locals) (event : yaml_event_t)
  : bool :=
  match event, state l with
  | YAML_SCALAR_EVENT value, CONF_KEY =>
      match ConfNodeLookupChild h parent value with
      | Some n0 => from_option allow_override false (deref h n0)
      | None => true
      end
  | _, _ => false
  end.

(** ** Well-nested input

    What libyaml delivers for one YAML node: a scalar, or a sequence
    or mapping bracketed by its start and end events.  The body of a
    mapping is the list of its keys and values, in the order of the
    events. *)

#[local] Set Warnings "-register-all".

Inductive ynode : Type :=
| YScalar (value : string)
| YSequence (items : list ynode)
| YMapping (body : list ynode).

Fixpoint ynode_events (t : ynode) : list yaml_event_t :=
  match t with
  | YScalar value => [YAML_SCALAR_EVENT value]
  | YSequence items =>
      YAML_SEQUENCE_START_EVENT :: flat_map ynode_events items
        ++ [YAML_SEQUENCE_END_EVENT]
  | YMapping body =>
      YAML_MAPPING_START_EVENT :: flat_map ynode_events body
        ++ [YAML_MAPPING_END_EVENT]
  end.

Definition events_of (ts : list ynode) : yaml_parser_t :=
  map Event (flat_map ynode_events ts).

(** [consumes evs]: from any state, the loop works through the events
    [evs] and goes on with what follows them. *)
Definition consumes (evs : yaml_parser_t) : Prop :=
  ∃ n, ∀ rest h parent inseq l, ∃ h1 l1,
    ∀ fuel res,
      ConfYamlParse_loop fuel rest h1 parent inseq l1 = Some res →
      ConfYamlParse_loop (n + fuel) (evs ++ rest) h parent inseq l = Some res.

Definition is_sequence (t : ynode) : bool :=
  match t with
  | YSequence _ => true
  | _ => false
  end.

(** ** Concrete configurations and documents *)

Definition yaml_1_1 : yaml_event_t :=
  YAML_DOCUMENT_START_EVENT (Some {| major := 1; minor := 1 |}).

(** The tree after [ConfInit]: a root without children, at address 0. *)
Definition conf_empty : store := [Some blank].

(** A root with one child [foo = seed] whose [allow_override] is unset. *)
Definition foo_seed : ConfNode := mkConfNode (Some "foo") (Some "seed") false false [].

Definition conf_seeded : store :=
  [Some (mkConfNode None None false false [1]); Some foo_seed].

(** The events of
<<
%YAML 1.1
---
foo: replacement
>> *)
Definition doc_foo : yaml_parser_t :=
  map Event
    [YAML_STREAM_START_EVENT; yaml_1_1; YAML_MAPPING_START_EVENT;
     YAML_SCALAR_EVENT "foo"; YAML_SCALAR_EVENT "replacement";
     YAML_MAPPING_END_EVENT; YAML_DOCUMENT_END_EVENT; YAML_STREAM_END_EVENT].

(** The events of a document whose scanning fails inside the top-level
    mapping, after the key:
<<
%YAML 1.1
---
key: 'unterminated
>> *)
Definition doc_broken : yaml_parser_t :=
  [Event YAML_STREAM_START_EVENT; Event yaml_1_1; Event YAML_MAPPING_START_EVENT;
   Event (YAML_SCALAR_EVENT "key"); Problem].

(** An event stream in which a second, unversioned document start
    shows up inside a mapping. *)
Definition doc_reopened : yaml_parser_t :=
  map Event
    [YAML_STREAM_START_EVENT; yaml_1_1; YAML_MAPPING_START_EVENT;
     YAML_DOCUMENT_START_EVENT None; YAML_STREAM_END_EVENT].

(** A root with a child [x] on which [allow_override] is set, and under
    [x] a seed [y = seed] on which it is not. *)
Definition y_seed : ConfNode := mkConfNode (Some "y") (Some "seed") false false [].

Definition conf_seed_under_x : store :=
  [Some (mkConfNode None None false false [1]);
   Some (mkConfNode (Some "x") None false true [2]);
   Some y_seed].

(** The events of
<<
%YAML 1.1
---
x:
  y: replacement
>> *)
Definition doc_x_y : yaml_parser_t :=
  map Event
    [YAML_STREAM_START_EVENT; yaml_1_1; YAML_MAPPING_START_EVENT;
     YAML_SCALAR_EVENT "x"; YAML_MAPPING_START_EVENT;
     YAML_SCALAR_EVENT "y"; YAML_SCALAR_EVENT "replacement";
     YAML_MAPPING_END_EVENT; YAML_MAPPING_END_EVENT;
     YAML_DOCUMENT_END_EVENT; YAML_STREAM_END_EVENT].

(** The store once the key [a] of a top-level mapping has been read,
    and the locals of the activation at that point. *)
Definition conf_after_a : store :=
  [Some (mkConfNode None None false false [1]);
   Some (mkConfNode (Some "a") None false false [])].

Definition locals_after_a : locals := mkLocals 1 CONF_VAL 0.

Definition body_b_c : yaml_parser_t :=
  map Event
    [YAML_SCALAR_EVENT "b"; YAML_SCALAR_EVENT "c"; YAML_MAPPING_END_EVENT;
     YAML_MAPPING_END_EVENT].

(** The document of [ConfYamlLoggingOutputTest]:
<<
%YAML 1.1
---
logging:
  output:
    - interface: console
      log-level: error
    - interface: syslog
      facility: local4
      log-level: info
>> *)
Definition doc_logging : yaml_parser_t :=
  map Event
    [YAML_STREAM_START_EVENT; yaml_1_1; YAML_MAPPING_START_EVENT;
     YAML_SCALAR_EVENT "logging"; YAML_MAPPING_START_EVENT;
     YAML_SCALAR_EVENT "output"; YAML_SEQUENCE_START_EVENT;
     YAML_MAPPING_START_EVENT;
     YAML_SCALAR_EVENT "interface"; YAML_SCALAR_EVENT "console";
     YAML_SCALAR_EVENT "log-level"; YAML_SCALAR_EVENT "error";
     YAML_MAPPING_END_EVENT;
     YAML_MAPPING_START_EVENT;
     YAML_SCALAR_EVENT "interface"; YAML_SCALAR_EVENT "syslog";
     YAML_SCALAR_EVENT "facility"; YAML_SCALAR_EVENT "local4";
     YAML_SCALAR_EVENT "log-level"; YAML_SCALAR_EVENT "info";
     YAML_MAPPING_END_EVENT;
     YAML_SEQUENCE_END_EVENT; YAML_MAPPING_END_EVENT; YAML_MAPPING_END_EVENT;
     YAML_DOCUMENT_END_EVENT; YAML_STREAM_END_EVENT].

(** Name and value of the children of a node, in queue order. *)
Definition child_entries (h : store) (p : ptr) : list (option string * option string) :=
  match deref h p with
  | Some pd =>
      map (λ c, match deref h c with
                | Some cd => (name cd, val cd)
                | None => (None, None)
                end) (head pd)
  | None => []
  end.

(** Modelled from the spec: [ConfGetNode] of conf.c, which the test
    calls with a dotted path; the path is given here as the list of
    its components. *)
Fixpoint ConfGetNode (h : store) (from : ptr) (path : list string) : option ptr :=
  match path with
  | [] => Some from
  | key :: path =>
      match ConfNodeLookupChild h from key with
      | Some c => ConfGetNode h c path
      | None => None
      end
  end.

(** ** The prologue *)

Definition version_accepted (ver : option yaml_version_directive_t) : bool :=
  match ver with
  | Some v => (major v =? 1)%Z && (minor v =? 1)%Z
  | None => false
  end.

(** The events of one document that carries the directive [%YAML 1.1]. *)
Definition document_events (t : ynode) : yaml_parser_t :=
  Event yaml_1_1 :: map Event (ynode_events t) ++ [Event YAML_DOCUMENT_END_EVENT].

(** What libyaml delivers for the document of
    [ConfYamlBadYamlVersionTest], which starts with [%YAML 9.9]:
    libyaml itself refuses a version directive other than 1.1 when it
    reads the start of the document, so the start of the stream is
    followed by an error. *)
Definition doc_yaml_9_9 : yaml_parser_t :=
  [Event YAML_STREAM_START_EVENT; Problem].

(** The document of [ConfYamlRuleFileTest]:
<<
%YAML 1.1
---
rule-files:
  - netbios.rules
  - x11.rules

default-log-dir: /tmp
>> *)
Definition doc_rule_files : yaml_parser_t :=
  Event YAML_STREAM_START_EVENT
    :: document_events
         (YMapping [YScalar "rule-files";
                    YSequence [YScalar "netbios.rules"; YScalar "x11.rules"];
                    YScalar "default-log-dir"; YScalar "/tmp"])
    ++ [Event YAML_STREAM_END_EVENT].

(** The document of [ConfYamlSecondLevelSequenceTest]:
<<
%YAML 1.1
---
libhtp:
  server-config:
    - apache-php:
        address: ["192.168.1.0/24"]
        personality: ["Apache_2_2", "PHP_5_3"]
        path-parsing: ["compress_separators", "lowercase"]
    - iis-php:
        address:
          - 192.168.0.0/24

        personality:
          - IIS_7_0
          - PHP_5_3

        path-parsing:
          - compress_separators
>> *)
Definition doc_libhtp : yaml_parser_t :=
  Event YAML_STREAM_START_EVENT
    :: document_events
         (YMapping
            [YScalar "libhtp";
             YMapping
               [YScalar "server-config";
                YSequence
                  [YMapping
                     [YScalar "apache-php";
                      YMapping
                        [YScalar "address"; YSequence [YScalar "192.168.1.0/24"];
                         YScalar "personality";
                         YSequence [YScalar "Apache_2_2"; YScalar "PHP_5_3"];
                         YScalar "path-parsing";
                         YSequence [YScalar "compress_separators";
                                    YScalar "lowercase"]]];
                   YMapping
                     [YScalar "iis-php";
                      YMapping
                        [YScalar "address"; YSequence [YScalar "192.168.0.0/24"];
                         YScalar "personality";
                         YSequence [YScalar "IIS_7_0"; YScalar "PHP_5_3"];
                         YScalar "path-parsing";
                         YSequence [YScalar "compress_separators"]]]]]])
    ++ [Event YAML_STREAM_END_EVENT].

(** ** Sequences *)

(** [indexed_children h' parent pd k]: in [h'] the node [parent] is as
    [pd] describes it, with [k] more children at the end of its queue,
    named "0" to "k-1" in that order. *)
Definition indexed_children (h' : store) (parent : ptr) (pd : ConfNode) (k : nat) : Prop :=
  ∃ kids,
    deref h' parent = Some (set_head (head pd ++ kids) pd) ∧
    length kids = k ∧
    ∀ i c, kids !! i = Some c →
      ∃ cd, deref h' c = Some cd ∧ name cd = Some (snprintf_d (Z.of_nat i)).

(** The two items of the sequence [[a, b], c]. *)
Definition items_nested : list ynode :=
  [YSequence [YScalar "a"; YScalar "b"]; YScalar "c"].

(** The items of [rule-files] in [ConfYamlRuleFileTest]. *)
Definition items_rule_files : list ynode :=
  [YScalar "netbios.rules"; YScalar "x11.rules"].

(** The store after the item [- apache-php: ...] of a sequence has
    been opened and closed again under the root. *)
Definition conf_apache : store :=
  [Some (mkConfNode None None false false [1]);
   Some (mkConfNode (Some "0") (Some "apache-php") true false [2]);
   Some (mkConfNode (Some "apache-php") None false false [])].

(** ** Further notions *)

(** An item of the parser that cannot make the loader fail: any event
    but a [DOCUMENT_START] whose version is not accepted. *)
Definition harmless (item : yaml_item) : bool :=
  match item with
  | Event (YAML_DOCUMENT_START_EVENT ver) => version_accepted ver
  | Event _ => true
  | Problem => false
  end.

(** The events on which an activation returns 0. *)
Definition closes (event : yaml_event_t) : bool :=
  match event with
  | YAML_SEQUENCE_END_EVENT | YAML_MAPPING_END_EVENT | YAML_STREAM_END_EVENT => true
  | _ => false
  end.

(** A root with a child [x] and a grandchild [y], both with
    [allow_override] set. *)
Definition conf_deep : store :=
  [Some (mkConfNode None None false false [1]);
   Some (mkConfNode (Some "x") None false true [2]);
   Some (mkConfNode (Some "y") (Some "old") false true [])].

(** The events of the entries [key: value] of a mapping whose values
    are scalars. *)
Definition mapping_events (kvs : list (string * string)) : yaml_parser_t :=
  flat_map (λ kv, [Event (YAML_SCALAR_EVENT kv.1); Event (YAML_SCALAR_EVENT kv.2)]) kvs.

(** The node of an entry [key: value]. *)
Definition entry_node (key value : string) : ConfNode :=
  mkConfNode (Some key) (Some value) false false [].

(** The cursor once the entries [kvs] have been read, starting from the
    locals [l] and the store [h]: the node of the last entry. *)
Definition cursor_after (l : locals) (h : store) (kvs : list (string * string)) : ptr :=
  match kvs with
  | [] => node l
  | _ :: _ => length h + length kvs - 1
  end.

(** The events of the items of a sequence of scalars. *)
Definition sequence_events (vs : list string) : yaml_parser_t :=
  map (λ v, Event (YAML_SCALAR_EVENT v)) vs.

(** The node of the scalar item [value] at index [idx] of a sequence. *)
Definition item_node (idx : Z) (value : string) : ConfNode :=
  mkConfNode (Some (snprintf_d idx)) (Some value) false false [].

(** The events for which the loop has no branch: the
    empty event, the start of the stream, the end of a document and
    aliases. *)
Definition ignored (item : yaml_item) : bool :=
  match item with
  | Event YAML_NO_EVENT | Event YAML_STREAM_START_EVENT
  | Event YAML_DOCUMENT_END_EVENT | Event (YAML_ALIAS_EVENT _) => true
  | _ => false
  end.

Definition without_ignored (parser : yaml_parser_t) : yaml_parser_t :=
  List.filter (λ item, negb (ignored item)) parser.

(** * Lemmas and theorems *)

(** ** Reading the store after a write *)

Lemma deref_lt (h : store) (q : ptr) (nd : ConfNode) :
  deref h q = Some nd → q < length h.
Proof.
  unfold deref. destruct (h !! q) as [o|] eqn:E; [|discriminate].
  intros _. eapply lookup_lt_Some, E.
Qed.

Lemma length_store_alter (f : ConfNode → ConfNode) (p : ptr) (h : store) :
  length (store_alter f p h) = length h.
Proof. unfold store_alter. apply length_alter. Qed.

Lemma deref_store_alter_eq (f : ConfNode → ConfNode) (p : ptr) (h : store) :
  deref (store_alter f p h) p = f <$> deref h p.
Proof.
  unfold deref, store_alter. rewrite list_lookup_alter_eq.
  by destruct (h !! p) as [[nd|]|].
Qed.

Lemma lookup_store_alter_ne (f : ConfNode → ConfNode) (p q : ptr) (h : store) :
  p ≠ q → store_alter f p h !! q = h !! q.
Proof. intros Hne. unfold store_alter. by rewrite list_lookup_alter_ne. Qed.

Lemma deref_store_alter_ne (f : ConfNode → ConfNode) (p q : ptr) (h : store) :
  p ≠ q → deref (store_alter f p h) q = deref h q.
Proof. intros Hne. unfold deref. by rewrite lookup_store_alter_ne. Qed.

Lemma lookup_new_old (h : store) (x : option ConfNode) (q : ptr) :
  q < length h → (h ++ [x]) !! q = h !! q.
Proof. intros Hq. by rewrite lookup_app_l. Qed.

Lemma deref_new_old (h : store) (x : option ConfNode) (q : ptr) :
  q < length h → deref (h ++ [x]) q = deref h q.
Proof. intros Hq. unfold deref. by rewrite lookup_new_old. Qed.

Lemma deref_new (h : store) (nd : ConfNode) :
  deref (h ++ [Some nd]) (length h) = Some nd.
Proof.
  unfold deref. rewrite lookup_app_r by lia.
  by rewrite Nat.sub_diag.
Qed.

Lemma lookup_free_ne (h : store) (n0 q : ptr) :
  n0 ≠ q → <[n0 := None]> h !! q = h !! q.
Proof. intros Hne. by rewrite list_lookup_insert_ne. Qed.

Lemma deref_free_ne (h : store) (n0 q : ptr) :
  n0 ≠ q → deref (<[n0 := None]> h) q = deref h q.
Proof. intros Hne. unfold deref. by rewrite lookup_free_ne. Qed.

(** ** Releasing a subtree *)

Lemma under_trans (h : store) (a b c : ptr) :
  under h a b → under h b c → under h a c.
Proof.
  induction 1 as [a|a ad d b Ha Hd _ IH]; [done|].
  intros Hbc. eapply under_step; [exact Ha|exact Hd|by apply IH].
Qed.

Lemma under_child (h : store) (a c d : ptr) (cd : ConfNode) :
  under h a c → deref h c = Some cd → d ∈ head cd → under h a d.
Proof.
  intros Hac Hc Hd. eapply under_trans; [exact Hac|].
  eapply under_step; [exact Hc|exact Hd|apply under_refl].
Qed.

(** A store with fewer live nodes and shorter queues has smaller
    subtrees. *)
Lemma under_mono (h s : store) (c q : ptr) :
  (∀ p pd, deref s p = Some pd →
     ∃ pd', deref h p = Some pd' ∧ ∀ d, d ∈ head pd → d ∈ head pd') →
  under s c q → under h c q.
Proof.
  intros Hsub. induction 1 as [c|c cd d q Hc Hd _ IH]; [apply under_refl|].
  destruct (Hsub c cd Hc) as (cd' & Hc' & Hin).
  eapply under_step; [exact Hc'|by apply Hin|exact IH].
Qed.

(** The subtree of [a] is the same in a store that agrees with [h] on
    the nodes of that subtree. *)
Lemma under_agree (h s : store) (a q : ptr) :
  (∀ c, under h a c → deref s c = deref h c) →
  under h a q → under s a q.
Proof.
  intros Hsame Haq.
  enough (H : ∀ x, under h x q → under h a x → under s x q)
    by (apply H; [done|apply under_refl]).
  clear Haq. induction 1 as [x|x xd d q Hx Hd _ IH]; intros Hax; [apply under_refl|].
  eapply under_step; [by rewrite (Hsame x Hax)|exact Hd|].
  apply IH. by eapply under_child.
Qed.

Lemma shrinks_refl (h : store) : shrinks h h.
Proof. split; [done|]. by left. Qed.

Lemma shrinks_trans (h s t : store) : shrinks h s → shrinks s t → shrinks h t.
Proof.
  intros [L1 C1] [L2 C2]. split; [congruence|]. intros q.
  destruct (C2 q) as [E|E]; [|by right]. rewrite E. apply C1.
Qed.

Lemma shrinks_free (h : store) (n : ptr) : shrinks h (<[n := None]> h).
Proof.
  split; [apply length_insert|]. intros q.
  destruct (decide (n = q)) as [->|Hne]; [|left; by apply list_lookup_insert_ne].
  destruct (decide (q < length h)) as [Hlt|Hge].
  - right. by apply list_lookup_insert_eq.
  - left. by rewrite list_insert_ge by lia.
Qed.

Lemma shrinks_deref_Some (h s : store) (q : ptr) (nd : ConfNode) :
  shrinks h s → deref s q = Some nd → deref h q = Some nd.
Proof.
  intros [_ C] Hq. unfold deref in *.
  destruct (C q) as [E|E]; rewrite E in Hq; [done|discriminate].
Qed.

Lemma shrinks_deref_None (h s : store) (q : ptr) :
  shrinks h s → deref h q = None → deref s q = None.
Proof.
  intros Hsh Hq. destruct (deref s q) as [nd|] eqn:Hs; [|done].
  apply (shrinks_deref_Some h) in Hs; [congruence|done].
Qed.

Lemma shrinks_deref (h s : store) (q : ptr) :
  shrinks h s → deref s q = deref h q ∨ deref s q = None.
Proof.
  intros [_ C]. unfold deref. destruct (C q) as [E|E]; rewrite E; auto.
Qed.

Lemma foldl_free_ind (P : store → Prop) (fuel : nat) (cs : list ptr) (h : store) :
  P h → (∀ s c, c ∈ cs → P s → P (ConfNodeFree fuel c s)) →
  P (foldl (λ h c, ConfNodeFree fuel c h) h cs).
Proof.
  revert h. induction cs as [|c cs IH]; intros h Hh Hstep; [done|]. simpl.
  apply IH.
  - apply Hstep; [apply list_elem_of_here|done].
  - intros s c' Hc'. apply Hstep. by apply list_elem_of_further.
Qed.

(** Releasing the subtree of [n] releases cells of that subtree only. *)
Lemma ConfNodeFree_cases (fuel : nat) :
  ∀ n h q,
    ConfNodeFree fuel n h !! q = h !! q ∨
    (ConfNodeFree fuel n h !! q = Some None ∧ under h n q).
Proof.
  induction fuel as [|fuel IH]; intros n h; [by left|]. simpl.
  destruct (deref h n) as [nd|] eqn:Hn; [|by left].
  apply (foldl_free_ind
           (λ s, ∀ q, s !! q = h !! q ∨ (s !! q = Some None ∧ under h n q))).
  - intros q. destruct (decide (n = q)) as [->|Hne].
    + right. split; [|apply under_refl].
      apply list_lookup_insert_eq. by eapply deref_lt.
    + left. by apply list_lookup_insert_ne.
  - intros s c Hc Hs q. destruct (IH c s q) as [E|[E U]]; [rewrite E; apply Hs|].
    right. split; [done|].
    eapply under_step; [exact Hn|exact Hc|].
    eapply under_mono; [|exact U]. intros p pd Hp. exists pd. split; [|done].
    unfold deref in *. destruct (Hs p) as [Ep|[Ep _]]; rewrite Ep in Hp;
      [done|discriminate].
Qed.

Lemma length_ConfNodeFree (fuel : nat) :
  ∀ n h, length (ConfNodeFree fuel n h) = length h.
Proof.
  induction fuel as [|fuel IH]; intros n h; [done|]. simpl.
  destruct (deref h n) as [nd|]; [|done].
  apply (foldl_free_ind (λ s, length s = length h)).
  - apply length_insert.
  - intros s c _ Hs. by rewrite IH.
Qed.

Lemma ConfNodeFree_shrinks (fuel : nat) (n : ptr) (h : store) :
  shrinks h (ConfNodeFree fuel n h).
Proof.
  split; [apply length_ConfNodeFree|]. intros q.
  destruct (ConfNodeFree_cases fuel n h q) as [E|[E _]]; auto.
Qed.

Lemma foldl_free_shrinks (fuel : nat) (cs : list ptr) (h : store) :
  shrinks h (foldl (λ h c, ConfNodeFree fuel c h) h cs).
Proof.
  apply (foldl_free_ind (shrinks h)); [apply shrinks_refl|].
  intros s c _ Hs. eapply shrinks_trans; [exact Hs|apply ConfNodeFree_shrinks].
Qed.

(** *** Every cell of the subtree is released *)

Lemma count_live_free (h : store) (n : ptr) (nd : ConfNode) :
  deref h n = Some nd → S (count_live (<[n := None]> h)) = count_live h.
Proof.
  unfold deref, count_live. revert n.
  induction h as [|o h IH]; intros [|n]; simpl; try done.
  - by destruct o as [x|].
  - intros Hn. specialize (IH n Hn). destruct o; simpl; lia.
Qed.

Lemma count_live_shrinks (h : store) :
  ∀ s, shrinks h s → count_live s ≤ count_live h.
Proof.
  unfold count_live.
  induction h as [|o h IH]; intros [|x s] [L C]; simpl in *; try done.
  assert (Hs : shrinks h s).
  { split; [lia|]. intros q. apply (C (S q)). }
  specialize (IH s Hs). destruct (C 0) as [E|E]; simpl in E.
  - injection E as ->. destruct o; simpl; lia.
  - injection E as ->. destruct o; simpl; lia.
Qed.

Lemma count_live_length (h : store) : count_live h ≤ length h.
Proof. unfold count_live. apply filter_length_le. Qed.

Lemma foldl_free_closed (fuel : nat) (s0 : store) :
  (∀ n h, count_live h ≤ fuel →
     deref (ConfNodeFree fuel n h) n = None ∧
     ∀ p pd d, deref h p = Some pd → deref (ConfNodeFree fuel n h) p = None →
               d ∈ head pd → deref (ConfNodeFree fuel n h) d = None) →
  ∀ cs s,
    shrinks s0 s → count_live s ≤ fuel →
    (∀ p pd d, deref s0 p = Some pd → deref s p = None → d ∈ head pd →
               deref s d = None) →
    (∀ c, c ∈ cs → deref (foldl (λ h c, ConfNodeFree fuel c h) s cs) c = None) ∧
    (∀ p pd d, deref s0 p = Some pd →
               deref (foldl (λ h c, ConfNodeFree fuel c h) s cs) p = None →
               d ∈ head pd →
               deref (foldl (λ h c, ConfNodeFree fuel c h) s cs) d = None).
Proof.
  intros IH. induction cs as [|c cs IHcs]; intros s Hsh Hcount Hcl.
  - split; [by intros c Hc; apply elem_of_nil in Hc|exact Hcl].
  - simpl. set (s1 := ConfNodeFree fuel c s).
    pose proof (ConfNodeFree_shrinks fuel c s) as Hsh1. fold s1 in Hsh1.
    destruct (IH c s Hcount) as [Hc1 Hcl1]. fold s1 in Hc1, Hcl1.
    destruct (IHcs s1) as [Hdead Hclosed].
    + by eapply shrinks_trans.
    + pose proof (count_live_shrinks _ _ Hsh1). lia.
    + intros p pd d Hp0 Hp1 Hd.
      destruct (deref s p) as [pd'|] eqn:Hps.
      * pose proof (shrinks_deref_Some _ _ _ _ Hsh Hps) as Hp0'.
        assert (pd' = pd) as -> by congruence.
        by eapply Hcl1.
      * eapply shrinks_deref_None; [exact Hsh1|]. by eapply Hcl.
    + split; [|exact Hclosed].
      intros c' Hc'. apply elem_of_cons in Hc' as [->|Hc']; [|by apply Hdead].
      eapply shrinks_deref_None; [apply foldl_free_shrinks|exact Hc1].
Qed.

Lemma ConfNodeFree_closed (fuel : nat) :
  ∀ n h, count_live h ≤ fuel →
    deref (ConfNodeFree fuel n h) n = None ∧
    ∀ p pd d, deref h p = Some pd → deref (ConfNodeFree fuel n h) p = None →
              d ∈ head pd → deref (ConfNodeFree fuel n h) d = None.
Proof.
  induction fuel as [|fuel IH]; intros n h Hcount.
  - assert (Hdead : ∀ p, deref h p = None).
    { intros p. destruct (deref h p) as [pd|] eqn:Hp; [|done].
      pose proof (count_live_free _ _ _ Hp). lia. }
    simpl. split; [apply Hdead|]. intros p pd d Hp. by rewrite Hdead in Hp.
  - simpl. destruct (deref h n) as [nd|] eqn:Hn.
    + pose proof (count_live_free _ _ _ Hn) as Hfree.
      pose proof (shrinks_free h n) as Hsh0.
      assert (Hn0 : deref (<[n := None]> h) n = None).
      { unfold deref. rewrite list_lookup_insert_eq; [done|by eapply deref_lt]. }
      destruct (foldl_free_closed fuel (<[n := None]> h) IH (head nd) (<[n := None]> h))
        as [Hdead Hclosed]; [apply shrinks_refl|lia|intros p pd d Hp Hp'; congruence|].
      pose proof (foldl_free_shrinks fuel (head nd) (<[n := None]> h)) as Hsh.
      split; [by eapply shrinks_deref_None|].
      intros p pd d Hp Hp' Hd. destruct (decide (p = n)) as [->|Hne].
      * assert (pd = nd) as -> by congruence. by apply Hdead.
      * eapply Hclosed; [|exact Hp'|exact Hd].
        by rewrite deref_free_ne.
    + split; [done|]. intros p pd d Hp Hp'. congruence.
Qed.

(** With enough fuel, the whole subtree is released. *)
Lemma ConfNodeFree_complete (fuel : nat) (n q : ptr) (h : store) :
  count_live h ≤ fuel → under h n q → deref (ConfNodeFree fuel n h) q = None.
Proof.
  intros Hcount Hu. destruct (ConfNodeFree_closed fuel n h Hcount) as [Hn Hcl].
  set (s := ConfNodeFree fuel n h) in *. clearbody s.
  revert Hn. induction Hu as [c|c cd d q Hc Hd _ IH]; intros Hdead; [done|].
  apply IH. by eapply Hcl.
Qed.

(** *** Removing a child *)

Lemma length_ConfNodeRemove (parent n0 : ptr) (h : store) :
  length (ConfNodeRemove parent n0 h) = length h.
Proof. unfold ConfNodeRemove. by rewrite length_ConfNodeFree, length_store_alter. Qed.

Lemma under_unlinked (parent n0 c q : ptr) (h : store) :
  under (store_alter (λ nd, set_head (List.filter (λ c, negb (c =? n0)) (head nd)) nd)
           parent h) c q →
  under h c q.
Proof.
  apply under_mono. intros p pd Hp. destruct (decide (parent = p)) as [->|Hne].
  - rewrite deref_store_alter_eq in Hp.
    destruct (deref h p) as [pd0|]; [|discriminate]. injection Hp as <-.
    exists pd0. split; [done|]. intros d. simpl.
    rewrite list_elem_of_In, filter_In, <- list_elem_of_In. by intros [? _].
  - rewrite deref_store_alter_ne in Hp by done. by exists pd.
Qed.

(** A cell other than that of the parent is as it was, or it is in the
    subtree of the node removed and has been released. *)
Lemma ConfNodeRemove_cases (parent n0 q : ptr) (h : store) :
  q ≠ parent →
  ConfNodeRemove parent n0 h !! q = h !! q ∨
  (ConfNodeRemove parent n0 h !! q = Some None ∧ under h n0 q).
Proof.
  intros Hne. unfold ConfNodeRemove.
  destruct (ConfNodeFree_cases (length h) n0
              (store_alter (λ nd, set_head (List.filter (λ c, negb (c =? n0)) (head nd)) nd)
                 parent h) q) as [E|[E U]].
  - left. rewrite E. by apply lookup_store_alter_ne.
  - right. split; [done|]. by eapply under_unlinked.
Qed.

Lemma lookup_ConfNodeRemove_ne (parent n0 q : ptr) (h : store) :
  q ≠ parent → ¬ under h n0 q → ConfNodeRemove parent n0 h !! q = h !! q.
Proof.
  intros H1 H2. by destruct (ConfNodeRemove_cases parent n0 q h H1) as [E|[_ U]].
Qed.

(** The parent, when it is not in the subtree of the child removed,
    only loses that child. *)
Lemma deref_ConfNodeRemove_parent (parent n0 : ptr) (h : store) (pd : ConfNode) :
  deref h parent = Some pd → ¬ under h n0 parent →
  deref (ConfNodeRemove parent n0 h) parent
  = Some (set_head (List.filter (λ c, negb (c =? n0)) (head pd)) pd).
Proof.
  intros Hp Hu. unfold ConfNodeRemove.
  destruct (ConfNodeFree_cases (length h) n0
              (store_alter (λ nd, set_head (List.filter (λ c, negb (c =? n0)) (head nd)) nd)
                 parent h) parent) as [E|[_ U]].
  - unfold deref at 1. rewrite E. fold (deref (store_alter
      (λ nd, set_head (List.filter (λ c, negb (c =? n0)) (head nd)) nd) parent h) parent).
    by rewrite deref_store_alter_eq, Hp.
  - destruct Hu. by eapply under_unlinked.
Qed.

(** Whatever is live after a removal was live before, with the same
    cell, but for the queue of the parent. *)
Lemma ConfNodeRemove_deref (parent n0 q : ptr) (h : store) (nd : ConfNode) :
  deref (ConfNodeRemove parent n0 h) q = Some nd →
  ∃ nd0, deref h q = Some nd0 ∧
         name nd = name nd0 ∧ val nd = val nd0 ∧ is_seq nd = is_seq nd0 ∧
         allow_override nd = allow_override nd0 ∧
         (∀ c, c ∈ head nd → c ∈ head nd0) ∧
         (q ≠ parent → nd = nd0).
Proof.
  intros Hq. unfold ConfNodeRemove in Hq.
  apply (shrinks_deref_Some _ _ _ _ (ConfNodeFree_shrinks _ _ _)) in Hq.
  destruct (decide (parent = q)) as [->|Hne].
  - rewrite deref_store_alter_eq in Hq.
    destruct (deref h q) as [nd0|]; [|discriminate]. injection Hq as <-.
    exists nd0. simpl. repeat split; try done.
    intros c. rewrite list_elem_of_In, filter_In, <- list_elem_of_In. by intros [? _].
  - rewrite deref_store_alter_ne in Hq by done. exists nd. by repeat split.
Qed.

(** The subtree of the node removed is released. *)
Lemma ConfNodeRemove_released (parent n0 q : ptr) (h : store) :
  ¬ under h n0 parent → under h n0 q →
  deref (ConfNodeRemove parent n0 h) q = None.
Proof.
  intros Hpar Hu. unfold ConfNodeRemove. apply ConfNodeFree_complete.
  - rewrite <- (length_store_alter
                  (λ nd, set_head (List.filter (λ c, negb (c =? n0)) (head nd)) nd)
                  parent h).
    apply count_live_length.
  - eapply under_agree; [|exact Hu]. intros c Hc.
    apply deref_store_alter_ne. intros ->. done.
Qed.

Lemma ConfNodeLookupChild_Some (h : store) (parent : ptr) (s : string) (n0 : ptr) :
  ConfNodeLookupChild h parent s = Some n0 →
  ∃ pd cd, deref h parent = Some pd ∧ n0 ∈ head pd ∧
           deref h n0 = Some cd ∧ name cd = Some s.
Proof.
  unfold ConfNodeLookupChild. destruct (deref h parent) as [pd|]; [|discriminate].
  intros Hf. apply find_some in Hf as [Hin Hn]. unfold name_is in Hn.
  destruct (deref h n0) as [cd|]; [|discriminate].
  exists pd, cd. repeat split; [by apply list_elem_of_In|].
  by apply bool_decide_eq_true in Hn.
Qed.

(** ** Every run of the loop is covered by [runs] *)

Lemma ConfYamlParse_loop_runs (fuel : nat) :
  ∀ parser h parent inseq l r parser' h',
    ConfYamlParse_loop fuel parser h parent inseq l = Some (r, parser', h') →
    runs parent inseq l h h'.
Proof.
  induction fuel as [|fuel IH]; intros parser h parent inseq l r parser' h' Hrun;
    [discriminate|].
  simpl in Hrun.
  destruct parser as [|[event|] parser]; simpl in Hrun.
  - eapply IH, Hrun.
  - destruct event; simpl in Hrun;
      try (eapply IH, Hrun);
      try (injection Hrun as <- <- <-; apply runs_return).
    + destruct version_directive as [v|].
      * destruct (_ && _); [eapply IH, Hrun|].
        injection Hrun as <- <- <-. apply runs_return.
      * injection Hrun as <- <- <-. apply runs_return.
    + destruct (on_scalar value h parent inseq l) as [h1 l1|] eqn:Hs.
      * eapply runs_scalar; [exact Hs|]. eapply IH, Hrun.
      * unfold on_scalar, new_key in Hs. simpl in Hs.
        repeat case_match; discriminate.
    + destruct (ConfYamlParse_loop fuel parser h (node l) true (enter (node l)))
        as [[[r1 p1] h1]|] eqn:Hcall; [|discriminate].
      apply IH in Hcall. eapply runs_sequence; [exact Hcall|].
      destruct (r1 =? 0)%Z.
      * eapply IH, Hrun.
      * injection Hrun as <- <- <-. apply runs_return.
    + destruct inseq.
      * simpl in Hrun. fold (seq_mapping_store h (node l) (seq_idx l)) in Hrun.
        destruct (ConfYamlParse_loop fuel parser _ (length h) false (enter (length h)))
          as [[[r1 p1] h1]|] eqn:Hcall; [|discriminate].
        apply IH in Hcall. eapply runs_mapping_inseq; [exact Hcall|].
        eapply IH, Hrun.
      * destruct (ConfYamlParse_loop fuel parser h (node l) false (enter (node l)))
          as [[[r1 p1] h1]|] eqn:Hcall; [|discriminate].
        apply IH in Hcall. eapply runs_mapping; [exact Hcall|].
        eapply IH, Hrun.
  - injection Hrun as <- <- <-. apply runs_return.
Qed.

(** ** Nodes the loader leaves alone *)

Lemma keeps_refl (q parent c : ptr) (h : store) : keeps q parent c h h.
Proof.
  intros nd Hq. exists nd. do 4 (split; [done|]).
  split; [exists []; by rewrite app_nil_r|done].
Qed.

Lemma keeps_live (q parent c : ptr) (h h' : store) :
  (q < length h → keeps q parent c h h') → keeps q parent c h h'.
Proof. intros H nd Hq. apply H; [|done]. by eapply deref_lt. Qed.

Lemma keeps_trans (q parent c parent1 c1 : ptr) (h h1 h' : store) :
  keeps q parent c h h1 → keeps q parent1 c1 h1 h' →
  (q ≠ c → q ≠ c1) →
  (q ≠ c → q ≠ parent → q ≠ parent1) →
  keeps q parent c h h'.
Proof.
  intros K1 K2 Hc Hp nd Hq.
  destruct (K1 nd Hq) as (nd1 & Hq1 & Hn1 & Hs1 & Hl1 & [m1 Hh1] & Hv1 & He1).
  destruct (K2 nd1 Hq1) as (nd2 & Hq2 & Hn2 & Hs2 & Hl2 & [m2 Hh2] & Hv2 & He2).
  exists nd2. split; [done|]. split; [congruence|]. split; [congruence|].
  split; [congruence|]. split; [|split].
  - exists (m1 ++ m2). by rewrite Hh2, Hh1, app_assoc.
  - intros Hne Hv. rewrite Hv2; eauto. rewrite Hv1; eauto.
  - intros Hne Hnp. rewrite He2; eauto.
Qed.

Lemma keeps_other (q parent c : ptr) (h h' : store) :
  (∀ nd, deref h q = Some nd → deref h' q = Some nd) → keeps q parent c h h'.
Proof.
  intros H nd Hq. exists nd. split; [by apply H|]. do 3 (split; [done|]).
  split; [exists []; by rewrite app_nil_r|done].
Qed.

Lemma keeps_new (q parent c : ptr) (h : store) (x : option ConfNode) :
  keeps q parent c h (h ++ [x]).
Proof.
  apply keeps_other. intros nd Hq.
  rewrite deref_new_old; [done|]. by eapply deref_lt.
Qed.

Lemma keeps_alter_fresh (q parent c p : ptr) (f : ConfNode → ConfNode) (h : store) :
  p ≠ q → keeps q parent c h (store_alter f p h).
Proof.
  intros Hp. apply keeps_other. intros nd Hq.
  by rewrite deref_store_alter_ne.
Qed.

Lemma keeps_alter_cursor (q parent c : ptr) (f : ConfNode → ConfNode) (h : store) :
  (∀ nd, name (f nd) = name nd ∧ is_seq (f nd) = is_seq nd ∧
         allow_override (f nd) = allow_override nd ∧
         ∃ more, head (f nd) = head nd ++ more) →
  keeps q parent c h (store_alter f c h).
Proof.
  intros Hf nd Hq. destruct (decide (c = q)) as [->|Hne].
  - exists (f nd). rewrite deref_store_alter_eq, Hq.
    destruct (Hf nd) as (? & ? & ? & ?). split; [done|].
    repeat split; try congruence; intros; congruence.
  - exists nd. rewrite deref_store_alter_ne by done. do 4 (split; [done|]).
    split; [exists []; by rewrite app_nil_r|done].
Qed.

Lemma keeps_insert_tail (q parent c n : ptr) (h : store) :
  keeps q parent c h (TAILQ_INSERT_TAIL parent n h).
Proof.
  intros nd Hq. destruct (decide (parent = q)) as [->|Hne].
  - exists (set_head (head nd ++ [n]) nd). unfold TAILQ_INSERT_TAIL.
    rewrite deref_store_alter_eq, Hq.
    split; [done|]. do 3 (split; [done|]). split; [by exists [n]|].
    split; intros; [done|congruence].
  - exists nd. unfold TAILQ_INSERT_TAIL. rewrite deref_store_alter_ne by done.
    do 4 (split; [done|]).
    split; [exists []; by rewrite app_nil_r|done].
Qed.

Lemma keeps_insert_tail_cursor (q parent c n : ptr) (h : store) :
  keeps q parent c h (TAILQ_INSERT_TAIL c n h).
Proof.
  apply keeps_alter_cursor. intros nd. do 3 (split; [done|]). by exists [n].
Qed.

Lemma keeps_alter_val (q parent c : ptr) (s : string) (pd : ConfNode) (h : store) :
  deref h parent = Some pd → val pd = None →
  keeps q parent c h (store_alter (set_val s) parent h).
Proof.
  intros Hp Hv nd Hq. destruct (decide (parent = q)) as [->|Hne].
  - exists (set_val s nd). rewrite deref_store_alter_eq, Hq.
    split; [done|]. do 3 (split; [done|]).
    split; [exists []; simpl; by rewrite app_nil_r|].
    split; [|intros; congruence].
    intros _ [v Hsome]. congruence.
  - exists nd. rewrite deref_store_alter_ne by done. do 4 (split; [done|]).
    split; [exists []; by rewrite app_nil_r|done].
Qed.

Lemma keeps_step (q parent c : ptr) (h h1 h' : store) :
  keeps q parent c h h1 → keeps q parent c h1 h' → keeps q parent c h h'.
Proof. intros K1 K2. by eapply keeps_trans. Qed.

(** Peels the last write off the store on the right. *)
Ltac keeps_last tac := eapply keeps_step; [|tac].

Lemma new_key_keeps (value : string) (parent : ptr) (l l1 : locals) (h h1 : store)
    (q : ptr) :
  new_key value parent l h = Next h1 l1 →
  keeps q parent (node l) h h1 ∧ (q < length h → q ≠ node l1).
Proof.
  unfold new_key, ConfNodeNew. intros Hk.
  set (ha := match deref h parent with Some _ => _ | None => _ end) in Hk.
  assert (Ha : keeps q parent (node l) h ha ∧ length ha = length h).
  { subst ha. destruct (deref h parent) as [pd|] eqn:Hp; [|split; [apply keeps_refl|done]].
    destruct (is_seq pd); [|split; [apply keeps_refl|done]].
    destruct (val pd) eqn:Hv; [split; [apply keeps_refl|done]|].
    split; [by eapply keeps_alter_val|apply length_store_alter]. }
  destruct Ha as [Ka La]. injection Hk as <- <-. simpl. rewrite La.
  split; [|lia].
  apply keeps_live. intros Hq.
  eapply keeps_step; [exact Ka|].
  keeps_last ltac:(apply keeps_insert_tail).
  keeps_last ltac:(apply keeps_alter_fresh; lia).
  apply keeps_new.
Qed.

(** A scalar that removes nothing: it is not a key, or the key names
    no child of the parent on which [allow_override] is set. *)
Lemma on_scalar_keeps (value : string) (h h1 : store) (parent : ptr) (inseq : bool)
    (l l1 : locals) (q : ptr) :
  (inseq = false → ∀ n0, ConfNodeLookupChild h parent value = Some n0 →
     from_option allow_override false (deref h n0) = false) →
  on_scalar value h parent inseq l = Next h1 l1 →
  keeps q parent (node l) h h1 ∧ (q < length h → q ≠ node l → q ≠ node l1).
Proof.
  intros Hquiet. unfold on_scalar, ConfNodeNew. destruct inseq.
  - intros Hs. injection Hs as <- <-. simpl. split; [|done].
    apply keeps_live. intros Hq.
    keeps_last ltac:(apply keeps_insert_tail).
    keeps_last ltac:(apply keeps_alter_fresh; lia).
    keeps_last ltac:(apply keeps_alter_fresh; lia).
    apply keeps_new.
  - destruct (state l).
    + destruct (ConfNodeLookupChild h parent value) as [n0|] eqn:Hlook.
      * rewrite (Hquiet eq_refl n0 eq_refl).
        intros Hs. injection Hs as <- <-. split; [apply keeps_refl|done].
      * intros Hk. apply (new_key_keeps _ _ _ _ _ _ q) in Hk as [Hk Hfresh]. auto.
    + intros Hs. injection Hs as <- <-. simpl. split; [|done].
      apply keeps_alter_cursor. intros nd. do 3 (split; [done|]).
      exists []. simpl. by rewrite app_nil_r.
Qed.

Lemma seq_mapping_store_keeps (q parent c : ptr) (h : store) (idx : Z) :
  keeps q parent c h (seq_mapping_store h c idx).
Proof.
  apply keeps_live. intros Hq.
  unfold seq_mapping_store, ConfNodeNew. simpl.
  keeps_last ltac:(apply keeps_insert_tail_cursor).
  keeps_last ltac:(apply keeps_alter_fresh; lia).
  keeps_last ltac:(apply keeps_alter_fresh; lia).
  apply keeps_new.
Qed.

(** ** Nodes created by a load only refer to nodes created by it *)

Lemma closed_from_length (h : store) : closed_from (length h) h.
Proof. intros q nd c Hq Hd _. apply deref_lt in Hd. lia. Qed.

Lemma closed_alter (b : nat) (p : ptr) (f : ConfNode → ConfNode) (h : store) :
  closed_from b h →
  (∀ nd c, c ∈ head (f nd) → c ∈ head nd ∨ b ≤ c) →
  closed_from b (store_alter f p h).
Proof.
  intros Hc Hf q nd c Hq Hd Hin. destruct (decide (p = q)) as [->|Hne].
  - rewrite deref_store_alter_eq in Hd.
    destruct (deref h q) as [nd0|] eqn:Hd0; [|discriminate].
    injection Hd as <-. destruct (Hf _ _ Hin) as [Hold|Hnew]; [|done].
    eapply Hc; eauto.
  - rewrite deref_store_alter_ne in Hd by done. eapply Hc; eauto.
Qed.

Lemma closed_alter_same_head (b : nat) (p : ptr) (f : ConfNode → ConfNode) (h : store) :
  closed_from b h → (∀ nd, head (f nd) = head nd) →
  closed_from b (store_alter f p h).
Proof. intros Hc Hf. apply closed_alter; [done|]. intros nd c. rewrite Hf. auto. Qed.

Lemma closed_insert_tail (b : nat) (p n : ptr) (h : store) :
  closed_from b h → b ≤ n → closed_from b (TAILQ_INSERT_TAIL p n h).
Proof.
  intros Hc Hn. apply closed_alter; [done|]. intros nd c. simpl.
  rewrite elem_of_app, list_elem_of_singleton. intros [?| ->]; auto.
Qed.

Lemma closed_new (b : nat) (h : store) (nd : ConfNode) :
  closed_from b h → head nd = [] → closed_from b (h ++ [Some nd]).
Proof.
  intros Hc Hnd q nd' c Hq Hd Hin.
  destruct (decide (q < length h)) as [Hlt|Hge].
  - rewrite deref_new_old in Hd by done. eapply Hc; eauto.
  - assert (q = length h) as ->.
    { apply deref_lt in Hd. rewrite length_app in Hd. simpl in Hd. lia. }
    rewrite deref_new in Hd. injection Hd as <-. rewrite Hnd in Hin.
    by apply elem_of_nil in Hin.
Qed.

Lemma closed_ConfNodeRemove (b : nat) (parent n0 : ptr) (h : store) :
  closed_from b h → closed_from b (ConfNodeRemove parent n0 h).
Proof.
  intros Hc q nd c Hq Hd Hin.
  apply ConfNodeRemove_deref in Hd as (nd0 & Hd0 & _ & _ & _ & _ & Hsub & _).
  eapply Hc; eauto.
Qed.

Lemma new_key_closed (b : nat) (value : string) (parent : ptr) (l l1 : locals)
    (h h1 : store) :
  closed_from b h → b ≤ length h →
  new_key value parent l h = Next h1 l1 →
  closed_from b h1 ∧ length h < length h1 ∧ node l1 = length h.
Proof.
  intros Hc Hb. unfold new_key, ConfNodeNew.
  set (ha := match deref h parent with Some _ => _ | None => _ end).
  assert (Ha : closed_from b ha ∧ length ha = length h).
  { subst ha. destruct (deref h parent) as [pd|]; [|done].
    destruct (is_seq pd); [|done]. destruct (val pd); [done|].
    split; [by apply closed_alter_same_head|apply length_store_alter]. }
  clearbody ha. destruct Ha as [Hca La]. intros Hk. injection Hk as <- <-.
  split; [|split].
  - apply closed_insert_tail; [|lia]. apply closed_alter_same_head; [|done].
    by apply closed_new.
  - unfold TAILQ_INSERT_TAIL. rewrite !length_store_alter, length_app. simpl. lia.
  - simpl. done.
Qed.

Lemma on_scalar_closed (b : nat) (value : string) (h h1 : store) (parent : ptr)
    (inseq : bool) (l l1 : locals) :
  closed_from b h → b ≤ length h →
  on_scalar value h parent inseq l = Next h1 l1 →
  closed_from b h1 ∧ length h ≤ length h1 ∧
  (node l1 = node l ∨ node l1 = length h).
Proof.
  intros Hc Hb. unfold on_scalar, ConfNodeNew. destruct inseq.
  - intros Hs. injection Hs as <- <-. split; [|split].
    + apply closed_insert_tail; [|lia]. do 2 (apply closed_alter_same_head; [|done]).
      by apply closed_new.
    + unfold TAILQ_INSERT_TAIL. rewrite !length_store_alter, length_app. lia.
    + by left.
  - destruct (state l).
    + destruct (ConfNodeLookupChild h parent value) as [n0|].
      * destruct (from_option allow_override false (deref h n0)).
        -- intros Hk. apply (new_key_closed b) in Hk as (? & ? & ?).
           ++ rewrite length_ConfNodeRemove in *. split; [done|]. split; [lia|auto].
           ++ by apply closed_ConfNodeRemove.
           ++ by rewrite length_ConfNodeRemove.
        -- intros Hs. injection Hs as <- <-. split; [done|]. split; [done|by left].
      * intros Hk. apply (new_key_closed b) in Hk as (? & ? & ?); try done.
        split; [done|]. split; [lia|auto].
    + intros Hs. injection Hs as <- <-. split; [|split; [|by left]].
      * by apply closed_alter_same_head.
      * by rewrite length_store_alter.
Qed.

Lemma seq_mapping_store_closed (b : nat) (h : store) (at_node : ptr) (idx : Z) :
  closed_from b h → b ≤ length h →
  closed_from b (seq_mapping_store h at_node idx) ∧
  length (seq_mapping_store h at_node idx) = S (length h).
Proof.
  intros Hc Hb. unfold seq_mapping_store, ConfNodeNew. simpl. split.
  - apply closed_insert_tail; [|lia]. do 2 (apply closed_alter_same_head; [|done]).
    by apply closed_new.
  - unfold TAILQ_INSERT_TAIL. rewrite !length_store_alter, length_app. simpl. lia.
Qed.

Lemma runs_closed (parent : ptr) (inseq : bool) (l : locals) (h h' : store) :
  runs parent inseq l h h' →
  ∀ b, closed_from b h → b ≤ length h → closed_from b h' ∧ length h ≤ length h'.
Proof.
  induction 1 as [parent inseq l h
                 |parent inseq l h value h1 l1 h' Hs _ IH
                 |parent inseq l h h1 h' _ IH1 _ IH2
                 |parent l h h2 h' _ IH1 _ IH2
                 |parent l h h1 h' _ IH1 _ IH2]; intros b Hc Hb.
  - done.
  - apply (on_scalar_closed b) in Hs as (Hc1 & Hl1 & _); [|done..].
    destruct (IH b Hc1) as [? ?]; [lia|]. split; [done|lia].
  - destruct (IH1 b Hc Hb) as [Hc1 Hl1].
    destruct (IH2 b Hc1) as [? ?]; [lia|]. split; [done|lia].
  - destruct (seq_mapping_store_closed b h (node l) (seq_idx l) Hc Hb) as [Hc0 Hl0].
    destruct (IH1 b Hc0) as [Hc1 Hl1]; [lia|].
    destruct (IH2 b Hc1) as [? ?]; [lia|]. split; [done|lia].
  - destruct (IH1 b Hc Hb) as [Hc1 Hl1].
    destruct (IH2 b Hc1) as [? ?]; [lia|]. split; [done|lia].
Qed.

(** The subtree of a node created by the load is made of such nodes. *)
Lemma under_closed (b : nat) (h : store) (c q : ptr) :
  closed_from b h → b ≤ c → under h c q → b ≤ q.
Proof.
  intros Hc Hb Hu. induction Hu as [c|c cd d q Hd Hin _ IH]; [done|].
  apply IH. eapply Hc; eauto.
Qed.

(** ** Nodes created by a load cannot be overridden *)

Lemma locked_from_length (h : store) : locked_from (length h) h.
Proof. intros q nd Hq Hd. apply deref_lt in Hd. lia. Qed.

Lemma locked_alter (b : nat) (p : ptr) (f : ConfNode → ConfNode) (h : store) :
  locked_from b h → (∀ nd, allow_override (f nd) = allow_override nd) →
  locked_from b (store_alter f p h).
Proof.
  intros Hl Hf q nd Hq Hd. destruct (decide (p = q)) as [->|Hne].
  - rewrite deref_store_alter_eq in Hd.
    destruct (deref h q) as [nd0|] eqn:Hd0; [|discriminate].
    injection Hd as <-. rewrite Hf. eapply Hl; eauto.
  - rewrite deref_store_alter_ne in Hd by done. eapply Hl; eauto.
Qed.

Lemma locked_new (b : nat) (h : store) (nd : ConfNode) :
  locked_from b h → allow_override nd = false → locked_from b (h ++ [Some nd]).
Proof.
  intros Hl Hnd q nd' Hq Hd.
  destruct (decide (q < length h)) as [Hlt|Hge].
  - rewrite deref_new_old in Hd by done. eapply Hl; eauto.
  - assert (q = length h) as ->.
    { apply deref_lt in Hd. rewrite length_app in Hd. simpl in Hd. lia. }
    rewrite deref_new in Hd. by injection Hd as <-.
Qed.

Lemma locked_ConfNodeRemove (b : nat) (parent n0 : ptr) (h : store) :
  locked_from b h → locked_from b (ConfNodeRemove parent n0 h).
Proof.
  intros Hl q nd Hq Hd.
  apply ConfNodeRemove_deref in Hd as (nd0 & Hd0 & _ & _ & _ & Ho & _).
  rewrite Ho. eapply Hl; eauto.
Qed.

Lemma new_key_locked (b : nat) (value : string) (parent : ptr) (l l1 : locals)
    (h h1 : store) :
  locked_from b h → new_key value parent l h = Next h1 l1 → locked_from b h1.
Proof.
  intros Hl. unfold new_key, ConfNodeNew.
  set (ha := match deref h parent with Some _ => _ | None => _ end).
  assert (Ha : locked_from b ha).
  { subst ha. destruct (deref h parent) as [pd|]; [|done].
    destruct (is_seq pd); [|done]. destruct (val pd); [done|].
    by apply locked_alter. }
  clearbody ha. intros Hk. injection Hk as <- <-.
  do 2 (apply locked_alter; [|done]). by apply locked_new.
Qed.

Lemma on_scalar_locked (b : nat) (value : string) (h h1 : store) (parent : ptr)
    (inseq : bool) (l l1 : locals) :
  locked_from b h → on_scalar value h parent inseq l = Next h1 l1 → locked_from b h1.
Proof.
  intros Hl. unfold on_scalar, ConfNodeNew. destruct inseq.
  - intros Hs. injection Hs as <- <-.
    do 3 (apply locked_alter; [|done]). by apply locked_new.
  - destruct (state l).
    + destruct (ConfNodeLookupChild h parent value) as [n0|].
      * destruct (from_option allow_override false (deref h n0)).
        -- apply new_key_locked. by apply locked_ConfNodeRemove.
        -- intros Hs. by injection Hs as <- <-.
      * by apply new_key_locked.
    + intros Hs. injection Hs as <- <-. by apply locked_alter.
Qed.

Lemma seq_mapping_store_locked (b : nat) (h : store) (at_node : ptr) (idx : Z) :
  locked_from b h → locked_from b (seq_mapping_store h at_node idx).
Proof.
  intros Hl. unfold seq_mapping_store, ConfNodeNew. simpl.
  do 3 (apply locked_alter; [|done]). by apply locked_new.
Qed.

Lemma runs_locked (parent : ptr) (inseq : bool) (l : locals) (h h' : store) :
  runs parent inseq l h h' → ∀ b, locked_from b h → locked_from b h'.
Proof.
  induction 1 as [parent inseq l h
                 |parent inseq l h value h1 l1 h' Hs _ IH
                 |parent inseq l h h1 h' _ IH1 _ IH2
                 |parent l h h2 h' _ IH1 _ IH2
                 |parent l h h1 h' _ IH1 _ IH2]; intros b Hl.
  - done.
  - apply IH. by eapply on_scalar_locked.
  - by apply IH2, IH1.
  - by apply IH2, IH1, seq_mapping_store_locked.
  - by apply IH2, IH1.
Qed.

(** An activation on a node created by the load, with its cursor on
    such a node, leaves every older cell as it is. *)

Lemma same_below_trans (b : nat) (h h1 h' : store) :
  same_below b h h1 → same_below b h1 h' → same_below b h h'.
Proof. intros H1 H2 q Hq. rewrite H2, H1; done. Qed.

Lemma lookup_insert_tail_ne (p n q : ptr) (h : store) :
  p ≠ q → TAILQ_INSERT_TAIL p n h !! q = h !! q.
Proof. apply lookup_store_alter_ne. Qed.

Lemma new_key_below (b : nat) (value : string) (parent : ptr) (l l1 : locals)
    (h h1 : store) :
  b ≤ length h → b ≤ parent →
  new_key value parent l h = Next h1 l1 → same_below b h h1.
Proof.
  intros Hb Hp. unfold new_key, ConfNodeNew.
  set (ha := match deref h parent with Some _ => _ | None => _ end).
  assert (Ha : same_below b h ha ∧ length ha = length h).
  { subst ha. destruct (deref h parent) as [pd|]; [|done].
    destruct (is_seq pd); [|done]. destruct (val pd); [done|].
    split; [|apply length_store_alter].
    intros q Hq. apply lookup_store_alter_ne. lia. }
  clearbody ha. destruct Ha as [Hsa La]. intros Hk. injection Hk as <- <-.
  intros q Hq. rewrite lookup_insert_tail_ne by lia.
  rewrite lookup_store_alter_ne by lia. rewrite lookup_new_old by lia.
  by apply Hsa.
Qed.

Lemma on_scalar_below (b : nat) (value : string) (h h1 : store) (parent : ptr)
    (inseq : bool) (l l1 : locals) :
  closed_from b h → b ≤ length h → b ≤ parent → b ≤ node l →
  on_scalar value h parent inseq l = Next h1 l1 → same_below b h h1.
Proof.
  intros Hc Hb Hp Hn. unfold on_scalar, ConfNodeNew. destruct inseq.
  - intros Hs. injection Hs as <- <-. intros q Hq.
    rewrite lookup_insert_tail_ne by lia.
    rewrite !lookup_store_alter_ne by lia. by rewrite lookup_new_old by lia.
  - destruct (state l).
    + destruct (ConfNodeLookupChild h parent value) as [n0|] eqn:Hlook.
      * apply ConfNodeLookupChild_Some in Hlook as (pd & cd & Hpd & Hin & _).
        assert (b ≤ n0) by exact (Hc parent pd n0 Hp Hpd Hin).
        destruct (from_option allow_override false (deref h n0)).
        -- intros Hk. apply (new_key_below b) in Hk;
             [|by rewrite length_ConfNodeRemove|done].
           eapply same_below_trans; [|exact Hk].
           intros q Hq. apply lookup_ConfNodeRemove_ne; [lia|].
           intros Hu. apply (under_closed b) in Hu; [lia|done..].
        -- intros Hs. by injection Hs as <- <-.
      * intros Hk. exact (new_key_below b _ _ _ _ _ _ Hb Hp Hk).
    + intros Hs. injection Hs as <- <-. intros q Hq.
      apply lookup_store_alter_ne. lia.
Qed.

Lemma seq_mapping_store_below (b : nat) (h : store) (at_node : ptr) (idx : Z) :
  b ≤ length h → b ≤ at_node → same_below b h (seq_mapping_store h at_node idx).
Proof.
  intros Hb Ha q Hq. unfold seq_mapping_store, ConfNodeNew. simpl.
  rewrite lookup_insert_tail_ne by lia.
  rewrite !lookup_store_alter_ne by lia. by rewrite lookup_new_old by lia.
Qed.

Lemma runs_below (parent : ptr) (inseq : bool) (l : locals) (h h' : store) :
  runs parent inseq l h h' →
  ∀ b, closed_from b h → b ≤ length h → b ≤ parent → b ≤ node l →
       same_below b h h'.
Proof.
  induction 1 as [parent inseq l h
                 |parent inseq l h value h1 l1 h' Hs _ IH
                 |parent inseq l h h1 h' Hr1 IH1 _ IH2
                 |parent l h h2 h' Hr1 IH1 _ IH2
                 |parent l h h1 h' Hr1 IH1 _ IH2]; intros b Hc Hb Hp Hn.
  - done.
  - pose proof (on_scalar_below b _ _ _ _ _ _ _ Hc Hb Hp Hn Hs) as Hs1.
    apply (on_scalar_closed b) in Hs as (Hc1 & Hl1 & Hcur); [|done..].
    eapply same_below_trans; [exact Hs1|].
    apply IH; [done|lia|done|]. destruct Hcur as [-> | ->]; lia.
  - destruct (runs_closed _ _ _ _ _ Hr1 b Hc Hb) as [Hc1 Hl1].
    eapply same_below_trans; [by apply IH1|].
    apply IH2; [done|lia|done|done].
  - destruct (seq_mapping_store_closed b h (node l) (seq_idx l) Hc Hb) as [Hc0 Hl0].
    destruct (runs_closed _ _ _ _ _ Hr1 b Hc0) as [Hc1 Hl1]; [lia|].
    eapply same_below_trans; [by apply seq_mapping_store_below|].
    eapply same_below_trans; [apply IH1; simpl; [done|lia..]|].
    apply IH2; [done|lia|done|done].
  - destruct (runs_closed _ _ _ _ _ Hr1 b Hc Hb) as [Hc1 Hl1].
    eapply same_below_trans; [by apply IH1|].
    apply IH2; [done|lia|done|done].
Qed.

(** ** Runs that remove nothing

    An activation on a node created by the load finds only children
    created by the load, on which [allow_override] is never set; an
    activation in sequence mode looks no child up.  Neither removes a
    node, and every live node is kept. *)

Lemma on_scalar_inseq_node (value : string) (h h1 : store) (parent : ptr)
    (l l1 : locals) :
  on_scalar value h parent true l = Next h1 l1 → node l1 = node l.
Proof. unfold on_scalar, ConfNodeNew. by intros [= <- <-]. Qed.

Lemma lookup_new_locked (b : nat) (h : store) (parent n0 : ptr) (value : string) :
  closed_from b h → locked_from b h → b ≤ parent →
  ConfNodeLookupChild h parent value = Some n0 →
  from_option allow_override false (deref h n0) = false.
Proof.
  intros Hc Hl Hp Hlook.
  apply ConfNodeLookupChild_Some in Hlook as (pd & cd & Hpd & Hin & Hn0 & _).
  rewrite Hn0. simpl. eapply Hl; [|exact Hn0]. eapply Hc; eauto.
Qed.

Lemma runs_keeps (parent : ptr) (inseq : bool) (l : locals) (h h' : store) :
  runs parent inseq l h h' →
  ∀ b, closed_from b h → locked_from b h → b ≤ length h →
       (b ≤ parent ∧ b ≤ node l) ∨ (inseq = true ∧ node l = parent) →
       ∀ q, keeps q parent (node l) h h'.
Proof.
  induction 1 as [parent inseq l h
                 |parent inseq l h value h1 l1 h' Hs _ IH
                 |parent inseq l h h1 h' Hr1 IH1 _ IH2
                 |parent l h h2 h' Hr1 IH1 _ IH2
                 |parent l h h1 h' Hr1 IH1 _ IH2]; intros b Hc Hl Hb Hctx q.
  - apply keeps_refl.
  - pose proof (on_scalar_locked b _ _ _ _ _ _ _ Hl Hs) as Hl1.
    pose proof (on_scalar_closed b _ _ _ _ _ _ _ Hc Hb Hs) as (Hc1 & Hlen1 & Hcur).
    assert (Hctx1 : (b ≤ parent ∧ b ≤ node l1) ∨ (inseq = true ∧ node l1 = parent)).
    { destruct Hctx as [[Hp Hn]|[-> Hn]].
      - left. split; [done|]. destruct Hcur as [-> | ->]; lia.
      - right. split; [done|]. apply on_scalar_inseq_node in Hs. congruence. }
    apply (on_scalar_keeps _ _ _ _ _ _ _ q) in Hs as [Ks Hq1].
    + apply keeps_live. intros Hq.
      eapply keeps_trans; [exact Ks|apply (IH b); [done|done|lia|done]|auto|done].
    + intros -> n0 Hlook. destruct Hctx as [[Hp _]|[? _]]; [|done].
      by eapply lookup_new_locked.
  - destruct (runs_closed _ _ _ _ _ Hr1 b Hc Hb) as [Hc1 Hlen1].
    pose proof (runs_locked _ _ _ _ _ Hr1 b Hl) as Hl1.
    eapply keeps_trans; [|apply (IH2 b); [done|done|lia|done]|done|done].
    eapply keeps_trans; [apply keeps_refl|apply (IH1 b); auto|done|done].
  - destruct (seq_mapping_store_closed b h (node l) (seq_idx l) Hc Hb) as [Hc0 Hlen0].
    pose proof (seq_mapping_store_locked b h (node l) (seq_idx l) Hl) as Hl0.
    destruct (runs_closed _ _ _ _ _ Hr1 b Hc0) as [Hc1 Hlen1]; [lia|].
    pose proof (runs_locked _ _ _ _ _ Hr1 b Hl0) as Hl1.
    apply keeps_live. intros Hq.
    eapply keeps_trans; [|apply (IH2 b); [done|done|lia|done]|done|done].
    eapply keeps_trans; [|apply (IH1 b); simpl; [done|done|lia|left; lia]
                         |simpl; lia|simpl; lia].
    apply seq_mapping_store_keeps.
  - destruct (runs_closed _ _ _ _ _ Hr1 b Hc Hb) as [Hc1 Hlen1].
    pose proof (runs_locked _ _ _ _ _ Hr1 b Hl) as Hl1.
    destruct Hctx as [[Hp Hn]|[? _]]; [|done].
    eapply keeps_trans; [|apply (IH2 b); [done|done|lia|left; done]|done|done].
    eapply keeps_trans; [apply keeps_refl|apply (IH1 b); auto|done|done].
Qed.

(** ** Fuel *)

Lemma on_event_mono
    (call call' : yaml_parser_t → store → ptr → bool → option result)
    (event : yaml_event_t) (parser : yaml_parser_t) (h : store) (parent : ptr)
    (inseq : bool) (l : locals) (o : flow * yaml_parser_t) :
  (∀ p s x i r, call p s x i = Some r → call' p s x i = Some r) →
  on_event call event parser h parent inseq l = Some o →
  on_event call' event parser h parent inseq l = Some o.
Proof.
  intros Hcall. destruct event; simpl; try done.
  - destruct (call parser h (node l) true) as [[[r p1] h1]|] eqn:Hc; [|done].
    by rewrite (Hcall _ _ _ _ _ Hc).
  - destruct inseq; simpl.
    + destruct (call parser _ (length h) false) as [[[r p1] h1]|] eqn:Hc; [|done].
      by rewrite (Hcall _ _ _ _ _ Hc).
    + destruct (call parser h (node l) false) as [[[r p1] h1]|] eqn:Hc; [|done].
      by rewrite (Hcall _ _ _ _ _ Hc).
Qed.

Lemma ConfYamlParse_loop_S (fuel : nat) :
  ∀ parser h parent inseq l res,
    ConfYamlParse_loop fuel parser h parent inseq l = Some res →
    ConfYamlParse_loop (S fuel) parser h parent inseq l = Some res.
Proof.
  induction fuel as [|fuel IH]; intros parser h parent inseq l res Hrun; [done|].
  remember (S fuel) as fuel1 eqn:Hf. rewrite Hf in Hrun at 1.
  simpl in Hrun. simpl.
  destruct (yaml_parser_parse parser) as [[event|] parser1]; [|done].
  destruct (on_event _ event parser1 h parent inseq l) as [[fl p2]|] eqn:Hev;
    [|done].
  subst fuel1.
  erewrite on_event_mono; [|intros p s x i r; apply IH|exact Hev].
  destruct fl as [h1 l1|r h1]; [|done]. by apply IH.
Qed.

Lemma ConfYamlParse_loop_mono (fuel fuel' : nat) parser h parent inseq l res :
  fuel ≤ fuel' →
  ConfYamlParse_loop fuel parser h parent inseq l = Some res →
  ConfYamlParse_loop fuel' parser h parent inseq l = Some res.
Proof.
  induction 1 as [|fuel' _ IH]; [done|].
  intros Hrun. by apply ConfYamlParse_loop_S, IH.
Qed.

(** Once the parser has nothing left, every call yields the empty
    event and the loop never ends. *)
Lemma ConfYamlParse_loop_exhausted (fuel : nat) :
  ∀ h parent inseq l, ConfYamlParse_loop fuel [] h parent inseq l = None.
Proof. induction fuel as [|fuel IH]; intros; [done|]. simpl. apply IH. Qed.

(** ** The loop, one event at a time *)

Lemma ConfYamlParse_loop_problem (fuel : nat) parser h parent inseq l :
  ConfYamlParse_loop (S fuel) (Problem :: parser) h parent inseq l
  = Some ((-1)%Z, [], h).
Proof. reflexivity. Qed.

Lemma ConfYamlParse_loop_scalar (fuel : nat) value parser h parent inseq l :
  ConfYamlParse_loop (S fuel) (Event (YAML_SCALAR_EVENT value) :: parser)
    h parent inseq l
  = match on_scalar value h parent inseq l with
    | Next h1 l1 => ConfYamlParse_loop fuel parser h1 parent inseq l1
    | Return r h1 => Some (r, parser, h1)
    end.
Proof. reflexivity. Qed.

Lemma ConfYamlParse_loop_sequence_start (fuel : nat) parser h parent inseq l :
  ConfYamlParse_loop (S fuel) (Event YAML_SEQUENCE_START_EVENT :: parser)
    h parent inseq l
  = match ConfYamlParse fuel parser h (node l) true with
    | None => None
    | Some (r, parser', h') =>
        if (r =? 0)%Z
        then ConfYamlParse_loop fuel parser' h' parent inseq
               (mkLocals (node l) CONF_KEY (seq_idx l))
        else Some ((-1)%Z, parser', h')
    end.
Proof.
  simpl. unfold ConfYamlParse.
  destruct (ConfYamlParse_loop fuel parser h (node l) true _) as [[[r p] s]|];
    [|done].
  by destruct (r =? 0)%Z.
Qed.

Lemma ConfYamlParse_loop_mapping_start_inseq (fuel : nat) parser h parent l :
  ConfYamlParse_loop (S fuel) (Event YAML_MAPPING_START_EVENT :: parser)
    h parent true l
  = match ConfYamlParse fuel parser (seq_mapping_store h (node l) (seq_idx l))
            (length h) false with
    | None => None
    | Some (_, parser', h') =>
        ConfYamlParse_loop fuel parser' h' parent true
          (mkLocals (node l) CONF_KEY (seq_idx l + 1))
    end.
Proof.
  simpl. unfold ConfYamlParse.
  fold (seq_mapping_store h (node l) (seq_idx l)).
  by destruct (ConfYamlParse_loop fuel parser _ (length h) false _) as [[[r p] s]|].
Qed.

Lemma ConfYamlParse_loop_mapping_start (fuel : nat) parser h parent l :
  ConfYamlParse_loop (S fuel) (Event YAML_MAPPING_START_EVENT :: parser)
    h parent false l
  = match ConfYamlParse fuel parser h (node l) false with
    | None => None
    | Some (_, parser', h') =>
        ConfYamlParse_loop fuel parser' h' parent false
          (mkLocals (node l) CONF_KEY (seq_idx l))
    end.
Proof.
  simpl. unfold ConfYamlParse.
  by destruct (ConfYamlParse_loop fuel parser h (node l) false _) as [[[r p] s]|].
Qed.

Lemma ConfYamlParse_loop_end (fuel : nat) event parser h parent inseq l :
  event = YAML_SEQUENCE_END_EVENT ∨ event = YAML_MAPPING_END_EVENT ∨
  event = YAML_STREAM_END_EVENT →
  ConfYamlParse_loop (S fuel) (Event event :: parser) h parent inseq l
  = Some (0%Z, parser, h).
Proof. by intros [-> | [-> | ->]]. Qed.

Lemma ConfYamlParse_loop_ignored (fuel : nat) event parser h parent inseq l :
  event = YAML_NO_EVENT ∨ event = YAML_STREAM_START_EVENT ∨
  event = YAML_DOCUMENT_END_EVENT ∨ (∃ anchor, event = YAML_ALIAS_EVENT anchor) →
  ConfYamlParse_loop (S fuel) (Event event :: parser) h parent inseq l
  = ConfYamlParse_loop fuel parser h parent inseq l.
Proof. by intros [-> | [-> | [-> | [anchor ->]]]]. Qed.

Lemma ConfYamlParse_loop_document_start (fuel : nat) ver parser h parent inseq l :
  ConfYamlParse_loop (S fuel) (Event (YAML_DOCUMENT_START_EVENT ver) :: parser)
    h parent inseq l
  = match ver with
    | None => Some ((-1)%Z, parser, h)
    | Some v =>
        if (major v =? YAML_VERSION_MAJOR)%Z && (minor v =? YAML_VERSION_MINOR)%Z
        then ConfYamlParse_loop fuel parser h parent inseq l
        else Some ((-1)%Z, parser, h)
    end.
Proof. simpl. destruct ver as [v|]; [|done]. by destruct (_ && _). Qed.

(** ** Well-nested input is consumed *)

Lemma ynode_nested_ind (P : ynode → Prop) :
  (∀ value, P (YScalar value)) →
  (∀ items, Forall P items → P (YSequence items)) →
  (∀ body, Forall P body → P (YMapping body)) →
  ∀ t, P t.
Proof.
  intros Hs Hq Hm. fix IH 1. intros [value|items|body].
  - apply Hs.
  - apply Hq. induction items as [|t items IHitems]; constructor; [apply IH|done].
  - apply Hm. induction body as [|t body IHbody]; constructor; [apply IH|done].
Qed.

Lemma events_of_cons (t : ynode) (ts : list ynode) (rest : yaml_parser_t) :
  events_of (t :: ts) ++ rest = map Event (ynode_events t) ++ events_of ts ++ rest.
Proof. unfold events_of. simpl. by rewrite map_app, <- app_assoc. Qed.

Lemma on_scalar_Next (value : string) (h : store) (parent : ptr) (inseq : bool)
    (l : locals) :
  ∃ h1 l1, on_scalar value h parent inseq l = Next h1 l1.
Proof.
  unfold on_scalar, new_key, ConfNodeNew. repeat case_match; eauto.
Qed.

Lemma consumes_nil : consumes [].
Proof. exists 0. intros rest h parent inseq l. by exists h, l. Qed.

Lemma consumes_app (evs1 evs2 : yaml_parser_t) :
  consumes evs1 → consumes evs2 → consumes (evs1 ++ evs2).
Proof.
  intros [n1 H1] [n2 H2]. exists (n1 + n2). intros rest h parent inseq l.
  destruct (H1 (evs2 ++ rest) h parent inseq l) as (h1 & l1 & K1).
  destruct (H2 rest h1 parent inseq l1) as (h2 & l2 & K2).
  exists h2, l2. intros fuel res Hrun.
  rewrite <- app_assoc, <- Nat.add_assoc. by apply K1, K2.
Qed.

Lemma consumes_bracket (open close : yaml_event_t) (evs : yaml_parser_t) :
  open = YAML_SEQUENCE_START_EVENT ∨ open = YAML_MAPPING_START_EVENT →
  close = YAML_SEQUENCE_END_EVENT ∨ close = YAML_MAPPING_END_EVENT →
  consumes evs →
  consumes (Event open :: evs ++ [Event close]).
Proof.
  intros Hopen Hclose [n Hn]. exists (S (S n)).
  intros rest h parent inseq l.
  assert (Hcall : ∀ s x i, ∃ s1, ∀ fuel,
    ConfYamlParse (S n + fuel) (evs ++ Event close :: rest) s x i
    = Some (0%Z, rest, s1)).
  { intros s x i. destruct (Hn (Event close :: rest) s x i (enter x)) as (s1 & l1 & K).
    exists s1. intros fuel.
    eapply (ConfYamlParse_loop_mono (n + 1)); [lia|]. apply K.
    apply ConfYamlParse_loop_end. destruct Hclose as [-> | ->]; auto. }
  assert (Hshape : ∀ fuel,
    ConfYamlParse_loop (S (S n) + fuel) ((Event open :: evs ++ [Event close]) ++ rest)
      h parent inseq l
    = ConfYamlParse_loop (S (S n + fuel)) (Event open :: evs ++ Event close :: rest)
        h parent inseq l).
  { intros fuel. by rewrite <- app_comm_cons, <- app_assoc. }
  destruct Hopen as [-> | ->].
  - destruct (Hcall h (node l) true) as (s1 & K).
    exists s1, (mkLocals (node l) CONF_KEY (seq_idx l)). intros fuel res Hrun.
    rewrite Hshape, ConfYamlParse_loop_sequence_start, K. cbn [Z.eqb].
    eapply ConfYamlParse_loop_mono; [|exact Hrun]. lia.
  - destruct inseq.
    + destruct (Hcall (seq_mapping_store h (node l) (seq_idx l)) (length h) false)
        as (s1 & K).
      exists s1, (mkLocals (node l) CONF_KEY (seq_idx l + 1)). intros fuel res Hrun.
      rewrite Hshape, ConfYamlParse_loop_mapping_start_inseq, K.
      eapply ConfYamlParse_loop_mono; [|exact Hrun]. lia.
    + destruct (Hcall h (node l) false) as (s1 & K).
      exists s1, (mkLocals (node l) CONF_KEY (seq_idx l)). intros fuel res Hrun.
      rewrite Hshape, ConfYamlParse_loop_mapping_start, K.
      eapply ConfYamlParse_loop_mono; [|exact Hrun]. lia.
Qed.

Lemma consumes_ynode (t : ynode) : consumes (map Event (ynode_events t)).
Proof.
  assert (Hlist : ∀ ts, Forall (λ t, consumes (map Event (ynode_events t))) ts →
                        consumes (events_of ts)).
  { induction 1 as [|t0 ts Ht _ IH]; [apply consumes_nil|].
    unfold events_of. simpl. rewrite map_app. by apply consumes_app. }
  induction t as [value|items IH|body IH] using ynode_nested_ind.
  - exists 1. intros rest h parent inseq l.
    destruct (on_scalar_Next value h parent inseq l) as (h1 & l1 & Hs).
    exists h1, l1. intros fuel res Hrun.
    cbn [ynode_events map app Nat.add]. by rewrite ConfYamlParse_loop_scalar, Hs.
  - cbn [ynode_events map]. rewrite map_app. cbn [map].
    apply consumes_bracket; [auto|auto|]. apply Hlist, IH.
  - cbn [ynode_events map]. rewrite map_app. cbn [map].
    apply consumes_bracket; [auto|auto|]. apply Hlist, IH.
Qed.

Lemma consumes_events_of (ts : list ynode) : consumes (events_of ts).
Proof.
  induction ts as [|t ts IH]; [apply consumes_nil|].
  unfold events_of. simpl. rewrite map_app.
  apply consumes_app; [apply consumes_ynode|exact IH].
Qed.

(** ** Items of a sequence *)

(** [snprintf_d] writes the decimal numeral, as ["%d"] does. *)
Lemma snprintf_d_examples :
  snprintf_d 0 = "0" ∧ snprintf_d 1 = "1" ∧ snprintf_d 10 = "10" ∧
  snprintf_d 2147483647 = "2147483647" ∧ snprintf_d (-7) = "-7".
Proof. by repeat split. Qed.

Lemma deref_insert_tail_parent (parent n : ptr) (h : store) (pd : ConfNode) :
  deref h parent = Some pd →
  deref (TAILQ_INSERT_TAIL parent n h) parent = Some (set_head (head pd ++ [n]) pd).
Proof.
  intros Hp. unfold TAILQ_INSERT_TAIL. by rewrite deref_store_alter_eq, Hp.
Qed.

Lemma deref_insert_tail_ne (parent n q : ptr) (h : store) :
  parent ≠ q → deref (TAILQ_INSERT_TAIL parent n h) q = deref h q.
Proof. apply deref_store_alter_ne. Qed.

Lemma scalar_item_parent (h : store) (parent : ptr) (pd : ConfNode)
    (f1 f2 : ConfNode → ConfNode) :
  deref h parent = Some pd →
  deref (TAILQ_INSERT_TAIL parent (length h)
           (store_alter f2 (length h) (store_alter f1 (length h) (h ++ [Some blank]))))
        parent
  = Some (set_head (head pd ++ [length h]) pd).
Proof.
  intros Hp. pose proof (deref_lt _ _ _ Hp) as Hlt.
  apply deref_insert_tail_parent.
  rewrite !deref_store_alter_ne by lia. by rewrite deref_new_old.
Qed.

Lemma scalar_item_node (h : store) (parent : ptr) (f1 f2 : ConfNode → ConfNode) :
  parent < length h →
  deref (TAILQ_INSERT_TAIL parent (length h)
           (store_alter f2 (length h) (store_alter f1 (length h) (h ++ [Some blank]))))
        (length h)
  = Some (f2 (f1 blank)).
Proof.
  intros Hlt. rewrite deref_insert_tail_ne by lia.
  by rewrite !deref_store_alter_eq, deref_new.
Qed.

Lemma snprintf_d_succ (idx : Z) (i : nat) :
  (idx + 1 + Z.of_nat i = idx + Z.of_nat (S i))%Z.
Proof. lia. Qed.

(** In sequence mode, items that are scalars or mappings are appended
    to the parent one by one, named by the running index. *)
Lemma sequence_items (items : list ynode) :
  Forall (λ t, is_sequence t = false) items →
  ∃ n, ∀ rest h parent pd st idx,
    deref h parent = Some pd →
    ∃ h1 kids st1,
      (∀ fuel res,
         ConfYamlParse_loop fuel rest h1 parent true
           (mkLocals parent st1 (idx + Z.of_nat (length items))) = Some res →
         ConfYamlParse_loop (n + fuel) (events_of items ++ rest) h parent true
           (mkLocals parent st idx) = Some res) ∧
      runs parent true (mkLocals parent st idx) h h1 ∧
      deref h1 parent = Some (set_head (head pd ++ kids) pd) ∧
      length kids = length items ∧
      (∀ i c, kids !! i = Some c →
         ∃ cd, deref h1 c = Some cd ∧
               name cd = Some (snprintf_d (idx + Z.of_nat i)) ∧
               allow_override cd = false).
Proof.
  induction 1 as [|t items Ht _ [n IH]].
  - exists 0. intros rest h parent pd st idx Hp. exists h, [], st.
    split; [|split; [|split; [|split]]].
    + intros fuel res Hrun. simpl in *. by rewrite Z.add_0_r in Hrun.
    + apply runs_return.
    + rewrite Hp. destruct pd. unfold set_head. simpl. by rewrite app_nil_r.
    + done.
    + intros i c Hi. by rewrite lookup_nil in Hi.
  - destruct t as [value|?|body]; [|done|].
    + exists (S n). intros rest h parent pd st idx Hp.
      pose proof (deref_lt _ _ _ Hp) as Hlt.
      set (l := mkLocals parent st idx).
      destruct (on_scalar_Next value h parent true l) as (hs & ls & Hs).
      pose proof Hs as Hs'. unfold on_scalar, ConfNodeNew in Hs'.
      injection Hs' as Hhs Hls. simpl in Hls.
      destruct (IH rest hs parent (set_head (head pd ++ [length h]) pd) st (idx + 1)%Z)
        as (h1 & kids & st1 & K & Hruns & Hp1 & Hlen & Hkids).
      { rewrite <- Hhs. by apply scalar_item_parent. }
      exists h1, (length h :: kids), st1.
      split; [|split; [|split; [|split]]].
      * intros fuel res Hrun. rewrite events_of_cons.
        cbn [ynode_events map app Nat.add].
        rewrite ConfYamlParse_loop_scalar, Hs, <- Hls. apply K.
        cbn [length]. by rewrite snprintf_d_succ.
      * eapply runs_scalar; [exact Hs|]. by rewrite <- Hls.
      * rewrite Hp1. unfold set_head. simpl. by rewrite <- app_assoc.
      * simpl. by rewrite Hlen.
      * intros [|i] c Hi; simpl in Hi.
        -- injection Hi as <-.
           assert (Hn : deref hs (length h) =
                        Some (set_val value (set_name (snprintf_d idx) blank))).
           { rewrite <- Hhs. by apply scalar_item_node. }
           destruct (runs_keeps _ _ _ _ _ Hruns (length hs) (closed_from_length hs)
                       (locked_from_length hs) (le_n _)
                       (or_intror (conj eq_refl eq_refl)) (length h) _ Hn)
             as (cd & Hcd & Hname & _ & Hlock & _).
           exists cd. rewrite Z.add_0_r. by repeat split.
        -- destruct (Hkids i c Hi) as (cd & Hcd & Hname & Hlock).
           exists cd. rewrite <- snprintf_d_succ. by repeat split.
    + destruct (consumes_events_of body) as [nb Hb].
      exists (S (nb + 1 + n)). intros rest h parent pd st idx Hp.
      pose proof (deref_lt _ _ _ Hp) as Hlt.
      set (l := mkLocals parent st idx).
      set (hm := seq_mapping_store h parent idx).
      destruct (Hb (Event YAML_MAPPING_END_EVENT :: events_of items ++ rest)
                  hm (length h) false (enter (length h))) as (h2 & l2 & Kb).
      assert (Hcall : ∀ fuel,
        ConfYamlParse (nb + 1 + fuel)
          (events_of body ++ Event YAML_MAPPING_END_EVENT :: events_of items ++ rest)
          hm (length h) false = Some (0%Z, events_of items ++ rest, h2)).
      { intros fuel. eapply (ConfYamlParse_loop_mono (nb + 1)); [lia|].
        apply Kb. apply ConfYamlParse_loop_end. auto. }
      pose proof (ConfYamlParse_loop_runs _ _ _ _ _ _ _ _ _ (Hcall 0)) as Hr2.
      destruct (seq_mapping_store_closed (length h) h parent idx
                  (closed_from_length h) (le_n _)) as [Hcm Hlm].
      fold hm in Hcm, Hlm.
      assert (Hpm : deref hm parent = Some (set_head (head pd ++ [length h]) pd)).
      { by apply scalar_item_parent. }
      assert (Hp2 : deref h2 parent = Some (set_head (head pd ++ [length h]) pd)).
      { rewrite <- Hpm. unfold deref.
        rewrite (runs_below _ _ _ _ _ Hr2 (length h)); simpl; [done|done|lia|lia|lia|lia]. }
      destruct (IH rest h2 parent _ CONF_KEY (idx + 1)%Z Hp2)
        as (h1 & kids & st1 & K & Hruns & Hp1 & Hlen & Hkids).
      exists h1, (length h :: kids), st1.
      split; [|split; [|split; [|split]]].
      * intros fuel res Hrun. rewrite events_of_cons.
        cbn [ynode_events map app]. rewrite map_app. cbn [map].
        rewrite <- app_assoc. cbn [app].
        replace (S (nb + 1 + n) + fuel) with (S (nb + 1 + (n + fuel))) by lia.
        rewrite ConfYamlParse_loop_mapping_start_inseq. cbn [node seq_idx l].
        fold hm. fold (events_of body). rewrite Hcall.
        eapply (ConfYamlParse_loop_mono (n + fuel)); [lia|]. apply K.
        cbn [length]. by rewrite snprintf_d_succ.
      * eapply runs_mapping_inseq; [exact Hr2|exact Hruns].
      * rewrite Hp1. unfold set_head. simpl. by rewrite <- app_assoc.
      * simpl. by rewrite Hlen.
      * intros [|i] c Hi; simpl in Hi.
        -- injection Hi as <-.
           assert (Hn : deref hm (length h) =
                        Some (set_name (snprintf_d idx) (set_is_seq true blank))).
           { by apply scalar_item_node. }
           destruct (runs_keeps _ _ _ _ _ Hr2 (length h) Hcm
                       (seq_mapping_store_locked _ _ _ _ (locked_from_length h))
                       ltac:(lia) (or_introl (conj (le_n _) (le_n _)))
                       (length h) _ Hn)
             as (cd2 & Hcd2 & Hname2 & _ & Hlock2 & _).
           destruct (runs_keeps _ _ _ _ _ Hruns (length h2) (closed_from_length h2)
                       (locked_from_length h2) (le_n _)
                       (or_intror (conj eq_refl eq_refl)) (length h) _ Hcd2)
             as (cd & Hcd & Hname & _ & Hlock & _).
           exists cd. rewrite Z.add_0_r. split; [done|]. split.
           ++ by rewrite Hname, Hname2.
           ++ by rewrite Hlock, Hlock2.
        -- destruct (Hkids i c Hi) as (cd & Hcd & Hname & Hlock).
           exists cd. rewrite <- snprintf_d_succ. by repeat split.
Qed.

(** ** The unit tests of the loader

    [ConfYamlRuleFileTest] and [ConfYamlSecondLevelSequenceTest], on
    the events libyaml delivers for their documents. *)

Lemma rule_file_test :
  ∃ h' rule_files,
    ConfYamlLoadString 12 true doc_rule_files 0 conf_empty = Some (Returns 0 h') ∧
    ConfGetNode h' 0 ["rule-files"] = Some rule_files ∧
    child_entries h' rule_files
    = [(Some "0", Some "netbios.rules"); (Some "1", Some "x11.rules")] ∧
    child_entries h' 0
    = [(Some "rule-files", None); (Some "default-log-dir", Some "/tmp")].
Proof.
  eexists _, _. split; [vm_compute; reflexivity|].
  split; [vm_compute; reflexivity|]. by split.
Qed.

Lemma second_level_sequence_test :
  ∃ h' outputs first second apache address,
    ConfYamlLoadString 40 true doc_libhtp 0 conf_empty = Some (Returns 0 h') ∧
    ConfGetNode h' 0 ["libhtp"; "server-config"] = Some outputs ∧
    head <$> deref h' outputs = Some [first; second] ∧
    deref h' first
    = Some (mkConfNode (Some "0") (Some "apache-php") true false [apache]) ∧
    name <$> deref h' apache = Some (Some "apache-php") ∧
    ConfNodeLookupChild h' apache "address" = Some address ∧
    child_entries h' address = [(Some "0", Some "192.168.1.0/24")].
Proof.
  eexists _, _, _, _, _, _. split; [vm_compute; reflexivity|].
  split; [vm_compute; reflexivity|].
  split; [vm_compute; reflexivity|].
  split; [vm_compute; reflexivity|].
  split; [vm_compute; reflexivity|].
  split; [vm_compute; reflexivity|]. reflexivity.
Qed.

(** ** The node cursor *)

Lemma new_key_cursor (value : string) (parent : ptr) (l l1 : locals) (h h1 : store) :
  new_key value parent l h = Next h1 l1 →
  node l1 = length h ∧
  ∀ pd, deref h parent = Some pd →
    ∃ pd1, deref h1 parent = Some pd1 ∧ head pd1 = head pd ++ [length h].
Proof.
  unfold new_key, ConfNodeNew.
  set (ha := match deref h parent with Some _ => _ | None => _ end).
  assert (Ha : length ha = length h ∧
               ∀ pd, deref h parent = Some pd →
                 ∃ pa, deref ha parent = Some pa ∧ head pa = head pd).
  { subst ha. destruct (deref h parent) as [pd|] eqn:Hp; [|done].
    destruct (is_seq pd); [|split; [done|intros ? [= <-]; eauto]].
    destruct (val pd); [split; [done|intros ? [= <-]; eauto]|].
    split; [apply length_store_alter|]. intros ? [= <-].
    rewrite deref_store_alter_eq, Hp. eauto. }
  clearbody ha. destruct Ha as [La Ha]. intros [= <- <-]. simpl.
  split; [done|]. intros pd Hp. destruct (Ha pd Hp) as (pa & Hpa & Hhead).
  pose proof (deref_lt _ _ _ Hpa) as Hlt.
  exists (set_head (head pa ++ [length ha]) pa). split.
  - apply deref_insert_tail_parent.
    rewrite deref_store_alter_ne by lia. by rewrite deref_new_old.
  - simpl. by rewrite Hhead, La.
Qed.

(** Outside sequence mode, an event that makes a new child of the
    parent moves the cursor to that child, and no other event moves
    it. *)
Lemma cursor_rule
    (call : yaml_parser_t → store → ptr → bool → option result)
    (event : yaml_event_t) (parser parser1 : yaml_parser_t) (h h1 : store)
    (parent : ptr) (l l1 : locals) :
  on_event call event parser h parent false l = Some (Next h1 l1, parser1) →
  node l1 = if makes_child h parent l event then length h else node l.
Proof.
  unfold makes_child.
  destruct event; simpl; try (intros Hev; by simplify_eq).
  - destruct version_directive as [v|]; [|done].
    destruct (_ && _); intros Hev; by simplify_eq.
  - intros [= Hs <-]. unfold on_scalar in Hs. destruct (state l).
    + destruct (ConfNodeLookupChild h parent value) as [n0|].
      * destruct (from_option allow_override false (deref h n0)).
        -- apply new_key_cursor in Hs as [-> _]. apply length_ConfNodeRemove.
        -- by simplify_eq.
      * by apply new_key_cursor in Hs as [-> _].
    + by simplify_eq.
  - destruct (call parser h (node l) true) as [[[r p] s]|]; [|done].
    destruct (r =? 0)%Z; intros Hev; by simplify_eq.
  - destruct (call parser h (node l) false) as [[[r p] s]|]; [|done].
    intros Hev. by simplify_eq.
Qed.

(** ** What a key does to the store *)

Lemma new_key_Next (value : string) (parent : ptr) (l : locals) (h : store) :
  ∃ h1 l1, new_key value parent l h = Next h1 l1.
Proof. unfold new_key, ConfNodeNew. eauto. Qed.

Lemma new_key_frame (value : string) (parent : ptr) (l l1 : locals) (h h1 : store)
    (q : ptr) :
  q < length h → q ≠ parent →
  new_key value parent l h = Next h1 l1 → h1 !! q = h !! q.
Proof.
  intros Hq Hne. unfold new_key, ConfNodeNew.
  set (ha := match deref h parent with Some _ => _ | None => _ end).
  assert (Ha : ha !! q = h !! q ∧ length ha = length h).
  { subst ha. destruct (deref h parent) as [pd|]; [|done].
    destruct (is_seq pd); [|done]. destruct (val pd); [done|].
    split; [|apply length_store_alter]. by apply lookup_store_alter_ne. }
  clearbody ha. destruct Ha as [Hsa La]. intros [= <- <-].
  rewrite lookup_insert_tail_ne by done.
  rewrite lookup_store_alter_ne by lia. by rewrite lookup_new_old by lia.
Qed.

(** The value a parent has once a key has been read into it: a parent
    that is a mapping item of a sequence and has no value takes the
    key. *)
Lemma new_key_spec (value : string) (parent : ptr) (l l1 : locals) (h h1 : store)
    (pd : ConfNode) :
  deref h parent = Some pd →
  new_key value parent l h = Next h1 l1 →
  l1 = mkLocals (length h) CONF_VAL (seq_idx l) ∧
  length h1 = S (length h) ∧
  deref h1 (length h) = Some (set_name value blank) ∧
  (∃ pd1, deref h1 parent = Some pd1 ∧ head pd1 = head pd ++ [length h] ∧
          name pd1 = name pd ∧ is_seq pd1 = is_seq pd ∧
          allow_override pd1 = allow_override pd ∧
          val pd1 = match val pd with
                    | None => if is_seq pd then Some value else None
                    | Some v => Some v
                    end) ∧
  (∀ q, q < length h → q ≠ parent → h1 !! q = h !! q).
Proof.
  intros Hp Hk. pose proof (deref_lt _ _ _ Hp) as Hlt.
  pose proof (λ q Hq Hne, new_key_frame _ _ _ _ _ _ q Hq Hne Hk) as Hframe.
  unfold new_key, ConfNodeNew in Hk. rewrite Hp in Hk.
  set (ha := if is_seq pd then _ else _) in Hk.
  assert (Ha : length ha = length h ∧
               ∃ pa, deref ha parent = Some pa ∧ head pa = head pd ∧
                     name pa = name pd ∧ is_seq pa = is_seq pd ∧
                     allow_override pa = allow_override pd ∧
                     val pa = match val pd with
                              | None => if is_seq pd then Some value else None
                              | Some v => Some v
                              end).
  { subst ha. destruct (is_seq pd) eqn:Hseq.
    - destruct (val pd) eqn:Hval; [split; [done|exists pd; by rewrite Hval]|].
      split; [apply length_store_alter|]. exists (set_val value pd).
      by rewrite deref_store_alter_eq, Hp.
    - split; [done|]. exists pd. by destruct (val pd). }
  clearbody ha. destruct Ha as (La & pa & Hpa & Hhead & Hname & Hseq & Hov & Hval).
  injection Hk as <- <-. rewrite La in Hframe |- *.
  split; [done|]. split.
  { unfold TAILQ_INSERT_TAIL. rewrite !length_store_alter, length_app. simpl. lia. }
  split.
  { rewrite deref_insert_tail_ne by lia. rewrite <- La.
    by rewrite deref_store_alter_eq, deref_new. }
  split; [|done].
  exists (set_head (head pa ++ [length h]) pa). split.
  - apply deref_insert_tail_parent.
    rewrite deref_store_alter_ne by lia. by rewrite deref_new_old by lia.
  - simpl. by rewrite Hhead.
Qed.

(** ** What an activation may do to the nodes that were there before *)

Lemma exposed_child (h : store) (P p n : ptr) (pd : ConfNode) :
  exposed h P p → deref h p = Some pd → n ∈ head pd → exposed h P n.
Proof.
  intros (rd & c & Hr & Hc & Ho & Hu) Hp Hn.
  exists rd, c. do 3 (split; [done|]). by eapply under_child.
Qed.

(** A path through cells that were there before and have not changed
    is a path of the store the activation started from. *)
Lemma under_old (b : nat) (P : ptr) (h0 h1 : store) (c d : ptr) :
  closed_from b h1 →
  (∀ x, x < b → x ≠ P → h1 !! x = h0 !! x ∨ h1 !! x = Some None) →
  ¬ under h0 c P → c < b → d < b →
  under h1 c d → under h0 c d.
Proof.
  intros Hcl Hcells HP Hc Hd Hu. revert HP Hc.
  induction Hu as [c|c cd x d Hcd Hx Hxd IH]; intros HP Hc; [apply under_refl|].
  assert (c ≠ P) by (intros ->; apply HP, under_refl).
  assert (Hcd0 : deref h0 c = Some cd).
  { unfold deref in *. destruct (Hcells c Hc) as [E|E]; [done|by rewrite <- E|].
    by rewrite E in Hcd. }
  assert (Hxb : x < b).
  { destruct (decide (x < b)) as [|Hge]; [done|].
    apply (under_closed b) in Hxd; [lia|done|lia]. }
  eapply under_step; [exact Hcd0|exact Hx|].
  apply IH; [done| |done].
  intros Hu. apply HP. eapply under_step; [exact Hcd0|exact Hx|exact Hu].
Qed.

Lemma extends_refl (b : nat) (P : ptr) (h : store) : extends b P h h.
Proof. split; [done|]. intros pd Hp. exists pd. repeat split; auto. Qed.

Lemma extends_trans (b : nat) (P : ptr) (h1 h2 h3 : store) :
  extends b P h1 h2 → extends b P h2 h3 → extends b P h1 h3.
Proof.
  intros [C1 P1] [C2 P2]. split.
  - intros d Hd Hne. rewrite C2, C1; done.
  - intros pd1 Hp1.
    destruct (P1 pd1 Hp1) as (pd2 & Hp2 & Hn2 & Hs2 & Ho2 & Hin2 & Hk2).
    destruct (P2 pd2 Hp2) as (pd3 & Hp3 & Hn3 & Hs3 & Ho3 & Hin3 & Hk3).
    exists pd3. split; [done|]. split; [congruence|]. split; [congruence|].
    split; [congruence|]. split.
    + intros c Hc. destruct (Hin3 c Hc) as [Hc2|?]; [|by right]. by apply Hin2.
    + intros c Hc. by apply Hk3, Hk2.
Qed.

Lemma extends_same (b : nat) (P : ptr) (h1 h2 : store) :
  P < b → same_below b h1 h2 → extends b P h1 h2.
Proof.
  intros HP Hsame. split; [intros d Hd _; by apply Hsame|].
  intros pd Hp. exists pd. unfold deref in *. rewrite (Hsame P HP).
  repeat split; auto.
Qed.

Lemma extends_alter (b : nat) (P p : ptr) (f : ConfNode → ConfNode) (h : store) :
  P < b → p = P ∨ b ≤ p →
  (∀ nd, name (f nd) = name nd ∧ is_seq (f nd) = is_seq nd ∧
         allow_override (f nd) = allow_override nd ∧
         (∀ c, c ∈ head (f nd) → c ∈ head nd ∨ b ≤ c) ∧
         (∀ c, c ∈ head nd → c ∈ head (f nd))) →
  extends b P h (store_alter f p h).
Proof.
  intros HP Hp Hf. split.
  - intros d Hd Hne. apply lookup_store_alter_ne. destruct Hp as [-> | Hp]; [done|lia].
  - intros pd1 Hp1. destruct (decide (p = P)) as [->|Hne].
    + exists (f pd1). rewrite deref_store_alter_eq, Hp1.
      destruct (Hf pd1) as (? & ? & ? & ? & ?). by repeat split.
    + exists pd1. rewrite deref_store_alter_ne by done. repeat split; auto.
Qed.

Lemma extends_same_head (b : nat) (P p : ptr) (f : ConfNode → ConfNode) (h : store) :
  P < b → p = P ∨ b ≤ p →
  (∀ nd, name (f nd) = name nd ∧ is_seq (f nd) = is_seq nd ∧
         allow_override (f nd) = allow_override nd ∧ head (f nd) = head nd) →
  extends b P h (store_alter f p h).
Proof.
  intros HP Hp Hf. apply extends_alter; [done..|]. intros nd.
  destruct (Hf nd) as (? & ? & ? & Hh). rewrite Hh. repeat split; auto.
Qed.

Lemma extends_fresh (b : nat) (P p : ptr) (f : ConfNode → ConfNode) (h : store) :
  P < b → b ≤ p → extends b P h (store_alter f p h).
Proof.
  intros HP Hp. apply extends_same; [done|]. intros q Hq.
  apply lookup_store_alter_ne. lia.
Qed.

Lemma extends_insert_tail (b : nat) (P p n : ptr) (h : store) :
  P < b → p = P ∨ b ≤ p → b ≤ n → extends b P h (TAILQ_INSERT_TAIL p n h).
Proof.
  intros HP Hp Hn. apply extends_alter; [done..|]. intros nd. simpl.
  do 3 (split; [done|]). split; intros c; rewrite elem_of_app, list_elem_of_singleton.
  - intros [?| ->]; auto.
  - auto.
Qed.

Lemma extends_new (b : nat) (P : ptr) (h : store) (x : option ConfNode) :
  P < b → b ≤ length h → extends b P h (h ++ [x]).
Proof.
  intros HP Hb. apply extends_same; [done|]. intros q Hq. apply lookup_new_old. lia.
Qed.

Lemma new_key_extends (b : nat) (P : ptr) (value : string) (parent : ptr)
    (l l1 : locals) (h h1 : store) :
  P < b → b ≤ length h → parent = P ∨ b ≤ parent →
  new_key value parent l h = Next h1 l1 → extends b P h h1.
Proof.
  intros HP Hb Hpar. unfold new_key, ConfNodeNew.
  set (ha := match deref h parent with Some _ => _ | None => _ end).
  assert (Ha : extends b P h ha ∧ length ha = length h).
  { subst ha. destruct (deref h parent) as [pd|]; [|split; [apply extends_refl|done]].
    destruct (is_seq pd); [|split; [apply extends_refl|done]].
    destruct (val pd); [split; [apply extends_refl|done]|].
    split; [by apply extends_same_head|apply length_store_alter]. }
  clearbody ha. destruct Ha as [Ea La]. intros [= <- <-].
  eapply extends_trans; [exact Ea|].
  eapply extends_trans; [|apply extends_insert_tail; [done|done|lia]].
  eapply extends_trans; [|apply extends_fresh; [done|lia]].
  apply extends_new; [done|lia].
Qed.

Lemma seq_mapping_store_extends (b : nat) (P at_node : ptr) (h : store) (idx : Z) :
  P < b → b ≤ length h → at_node = P ∨ b ≤ at_node →
  extends b P h (seq_mapping_store h at_node idx).
Proof.
  intros HP Hb Hat. unfold seq_mapping_store, ConfNodeNew. simpl.
  eapply extends_trans; [|apply extends_insert_tail; [done|done|lia]].
  eapply extends_trans; [|apply extends_fresh; [done|lia]].
  eapply extends_trans; [|apply extends_fresh; [done|lia]].
  by apply extends_new.
Qed.

Lemma frame_inv_refl (b : nat) (P : ptr) (h : store) (pd : ConfNode) :
  deref h P = Some pd → frame_inv b P h h.
Proof.
  intros Hp. split; [by left|]. exists pd, pd. repeat split; auto.
Qed.

Lemma frame_inv_extends (b : nat) (P : ptr) (h0 h1 h2 : store) :
  frame_inv b P h0 h1 → extends b P h1 h2 → frame_inv b P h0 h2.
Proof.
  intros [Hcells (pd0 & pd1 & H0 & H1 & Hn & Hs & Ho & Hin & Hkeep)] [C2 P2].
  split.
  - intros d Hd Hne. rewrite C2 by done. by apply Hcells.
  - destruct (P2 pd1 H1) as (pd2 & H2 & Hn2 & Hs2 & Ho2 & Hin2 & Hk2).
    exists pd0, pd2. split; [done|]. split; [done|]. split; [congruence|].
    split; [congruence|]. split; [congruence|]. split.
    + intros c Hc Hlt. destruct (Hin2 c Hc) as [Hc1|?]; [|lia]. by apply Hin.
    + intros c Hc Hno. by apply Hk2, Hkeep.
Qed.

(** The removal of a child of [P] on which [allow_override] is set. *)
Lemma frame_inv_remove (b : nat) (P : ptr) (h0 h1 : store) (value : string)
    (n0 : ptr) :
  frame_inv b P h0 h1 → closed_from b h1 → locked_from b h1 → P < b →
  ¬ exposed h0 P P →
  ConfNodeLookupChild h1 P value = Some n0 →
  from_option allow_override false (deref h1 n0) = true →
  frame_inv b P h0 (ConfNodeRemove P n0 h1).
Proof.
  intros [Hcells (pd0 & pd1 & H0 & H1 & Hn & Hs & Ho & Hin & Hkeep)]
    Hcl Hlk HP Hsafe Hlook Hov.
  apply ConfNodeLookupChild_Some in Hlook as (pd1' & cd & H1' & Hn0in & Hn0 & _).
  assert (pd1' = pd1) as -> by congruence.
  rewrite Hn0 in Hov. simpl in Hov.
  assert (Hn0b : n0 < b).
  { destruct (decide (n0 < b)) as [|Hge]; [done|].
    rewrite (Hlk n0 cd) in Hov; [done|lia|done]. }
  assert (Hn0in0 : n0 ∈ head pd0) by by apply Hin.
  assert (Hcells' : ∀ x, x < b → x ≠ P → h1 !! x = h0 !! x ∨ h1 !! x = Some None).
  { intros x Hx Hne. destruct (Hcells x Hx Hne) as [?|[? _]]; auto. }
  assert (Hov0 : overridable h0 n0 → ¬ under h0 n0 P).
  { intros Hov0 Hu. apply Hsafe. by exists pd0, n0. }
  assert (Hn0P : n0 ≠ P).
  { intros Heq. subst n0. apply Hsafe. assert (cd = pd1) by congruence. subst cd.
    exists pd0, P. do 2 (split; [done|]). split; [|apply under_refl].
    exists pd0. split; [done|congruence]. }
  assert (Hn00 : deref h0 n0 = Some cd).
  { unfold deref in *. destruct (Hcells' n0 Hn0b Hn0P) as [E|E]; [by rewrite <- E|].
    by rewrite E in Hn0. }
  assert (Hovn0 : overridable h0 n0) by by exists cd.
  specialize (Hov0 Hovn0).
  assert (Hold : ∀ d, d < b → under h1 n0 d → under h0 n0 d).
  { intros d Hd. by apply (under_old b P). }
  split.
  - intros d Hd Hne.
    destruct (ConfNodeRemove_cases P n0 d h1 Hne) as [E|[E U]].
    + rewrite E. by apply Hcells.
    + right. split; [done|]. exists pd0, n0. do 3 (split; [done|]). by apply Hold.
  - exists pd0, (set_head (List.filter (λ c, negb (c =? n0)) (head pd1)) pd1).
    split; [done|]. split.
    { apply deref_ConfNodeRemove_parent; [done|]. intros Hu. apply Hov0. by apply Hold. }
    do 3 (split; [done|]). simpl. split.
    + intros c. rewrite list_elem_of_In, filter_In, <- list_elem_of_In.
      intros [Hc _]. by apply Hin.
    + intros c Hc Hno. rewrite list_elem_of_In, filter_In, <- list_elem_of_In.
      split; [by apply Hkeep|]. apply negb_true_iff, Nat.eqb_neq. by intros ->.
Qed.

Lemma on_scalar_frame_inv (b : nat) (P : ptr) (h0 h h1 : store) (value : string)
    (inseq : bool) (l l1 : locals) :
  frame_inv b P h0 h → closed_from b h → locked_from b h → b ≤ length h → P < b →
  ¬ exposed h0 P P →
  node l = P ∨ b ≤ node l →
  on_scalar value h P inseq l = Next h1 l1 →
  frame_inv b P h0 h1.
Proof.
  intros Hinv Hcl Hlk Hb HP Hsafe Hcur. unfold on_scalar, ConfNodeNew. destruct inseq.
  - intros [= <- <-]. eapply frame_inv_extends; [exact Hinv|].
    eapply extends_trans; [|apply extends_insert_tail; [done|by left|lia]].
    eapply extends_trans; [|apply extends_fresh; [done|lia]].
    eapply extends_trans; [|apply extends_fresh; [done|lia]].
    by apply extends_new.
  - destruct (state l).
    + destruct (ConfNodeLookupChild h P value) as [n0|] eqn:Hlook.
      * destruct (from_option allow_override false (deref h n0)) eqn:Hov.
        -- intros Hk. eapply frame_inv_extends.
           ++ by eapply frame_inv_remove.
           ++ eapply new_key_extends; [done| |by left|exact Hk].
              by rewrite length_ConfNodeRemove.
        -- by intros [= <- <-].
      * intros Hk. eapply frame_inv_extends; [exact Hinv|].
        eapply new_key_extends; [done|done|by left|exact Hk].
    + intros [= <- <-]. eapply frame_inv_extends; [exact Hinv|].
      by apply extends_same_head.
Qed.

(** An activation on [parent], with its cursor on [parent] or on a
    node created since the start, releases only nodes that were
    exposed at the start, and changes no other cell that was there but
    that of [parent]. *)
Lemma runs_frame (parent : ptr) (inseq : bool) (l : locals) (h h' : store) :
  runs parent inseq l h h' →
  ∀ b h0, closed_from b h → locked_from b h → b ≤ length h → parent < b →
          ¬ exposed h0 parent parent →
          node l = parent ∨ b ≤ node l →
          frame_inv b parent h0 h → frame_inv b parent h0 h'.
Proof.
  induction 1 as [parent inseq l h
                 |parent inseq l h value h1 l1 h' Hs _ IH
                 |parent inseq l h h1 h' Hr1 IH1 _ IH2
                 |parent l h h2 h' Hr1 IH1 _ IH2
                 |parent l h h1 h' Hr1 IH1 _ IH2];
    intros b h0 Hc Hl Hb Hp Hsafe Hn Hinv.
  - done.
  - pose proof (on_scalar_frame_inv b _ _ _ _ _ _ _ _ Hinv Hc Hl Hb Hp Hsafe Hn Hs)
      as Hinv1.
    pose proof (on_scalar_locked b _ _ _ _ _ _ _ Hl Hs) as Hl1.
    apply (on_scalar_closed b) in Hs as (Hc1 & Hlen1 & Hcur); [|done..].
    apply (IH b h0); [done|done|lia|done|done| |done].
    destruct Hcur as [-> | ->]; [done|right; lia].
  - destruct (runs_closed _ _ _ _ _ Hr1 b Hc Hb) as [Hc1 Hlen1].
    pose proof (runs_locked _ _ _ _ _ Hr1 b Hl) as Hl1.
    apply (IH2 b h0); [done|done|lia|done|done|done|].
    destruct Hn as [Hn|Hn].
    + rewrite Hn in *. apply (IH1 b h0); auto.
    + eapply frame_inv_extends; [exact Hinv|]. apply extends_same; [done|].
      eapply runs_below; eauto.
  - destruct (seq_mapping_store_closed b h (node l) (seq_idx l) Hc Hb) as [Hc0 Hlen0].
    pose proof (seq_mapping_store_locked b h (node l) (seq_idx l) Hl) as Hl0.
    destruct (runs_closed _ _ _ _ _ Hr1 b Hc0) as [Hc1 Hlen1]; [lia|].
    pose proof (runs_locked _ _ _ _ _ Hr1 b Hl0) as Hl1.
    apply (IH2 b h0); [done|done|lia|done|done|done|].
    eapply frame_inv_extends.
    + eapply frame_inv_extends; [exact Hinv|]. by apply seq_mapping_store_extends.
    + apply extends_same; [done|].
      eapply runs_below; eauto; simpl; lia.
  - destruct (runs_closed _ _ _ _ _ Hr1 b Hc Hb) as [Hc1 Hlen1].
    pose proof (runs_locked _ _ _ _ _ Hr1 b Hl) as Hl1.
    apply (IH2 b h0); [done|done|lia|done|done|done|].
    destruct Hn as [Hn|Hn].
    + rewrite Hn in *. apply (IH1 b h0); auto.
    + eapply frame_inv_extends; [exact Hinv|]. apply extends_same; [done|].
      eapply runs_below; eauto.
Qed.

(** ** Looking a child up *)

Lemma find_all_false {A : Type} (f : A → bool) (xs : list A) :
  (∀ x, x ∈ xs → f x = false) → List.find f xs = None.
Proof.
  induction xs as [|x xs IH]; [done|]. intros Hall. simpl.
  rewrite (Hall x) by apply list_elem_of_here. apply IH.
  intros y Hy. apply Hall. by apply list_elem_of_further.
Qed.

Lemma find_first_hit {A : Type} (f : A → bool) (xs ys : list A) (x : A) :
  (∀ y, y ∈ xs → f y = false) → f x = true →
  List.find f (xs ++ x :: ys) = Some x.
Proof.
  induction xs as [|y xs IH]; intros Hall Hx; simpl; [by rewrite Hx|].
  rewrite (Hall y) by apply list_elem_of_here. apply IH; [|done].
  intros z Hz. apply Hall. by apply list_elem_of_further.
Qed.

Lemma ConfNodeLookupChild_None (h : store) (parent : ptr) (pd : ConfNode)
    (key : string) :
  deref h parent = Some pd →
  ConfNodeLookupChild h parent key = None →
  ∀ c, c ∈ head pd → name_is h key c = false.
Proof.
  intros Hp. unfold ConfNodeLookupChild. rewrite Hp. intros Hf c Hc.
  eapply find_none; [exact Hf|]. by apply list_elem_of_In.
Qed.

(** Whether a child matches a name is the same in two stores in which
    the child has the same cell or, if it is the parent itself, the
    same name. *)
Lemma name_is_kept (h h' : store) (parent : ptr) (pd pd' : ConfNode) (key : string)
    (c : ptr) :
  deref h parent = Some pd → deref h' parent = Some pd' → name pd' = name pd →
  (c ≠ parent → h' !! c = h !! c) →
  name_is h' key c = name_is h key c.
Proof.
  intros Hp Hp' Hname Hsame. unfold name_is.
  destruct (decide (c = parent)) as [->|Hne].
  - by rewrite Hp, Hp', Hname.
  - unfold deref. by rewrite Hsame.
Qed.

Lemma find_agree_app {A : Type} (f g : A → bool) (xs ys : list A) (y : A) :
  (∀ x, x ∈ xs → f x = g x) → List.find g xs = Some y →
  List.find f (xs ++ ys) = Some y.
Proof.
  induction xs as [|x xs IH]; intros Hfg Hg; [discriminate|]. simpl in *.
  rewrite (Hfg x) by apply list_elem_of_here.
  destruct (g x); [done|]. apply IH; [|done].
  intros z Hz. apply Hfg. by apply list_elem_of_further.
Qed.

(** ** The properties of the loader *)

(** C1, as stated, fails.  With the cursor on the node of the key [a]
    (address 1), a [MAPPING_START] met outside sequence mode does not
    yield what a recursive call on the parent (the root, address 0)
    would yield. *)
Lemma mapping_start_not_on_parent :
  ConfYamlParse_loop 6 (Event YAML_MAPPING_START_EVENT :: body_b_c)
    conf_after_a 0 false locals_after_a
  ≠ match ConfYamlParse 5 body_b_c conf_after_a 0 false with
    | None => None
    | Some (_, parser', h') =>
        ConfYamlParse_loop 5 parser' h' 0 false (mkLocals 1 CONF_KEY 0)
    end.
Proof. vm_compute. discriminate. Qed.

(** C1, amended.  On [MAPPING_START] outside sequence mode the loader
    calls itself on the node cursor, not in sequence mode, ignores what
    the call returns and goes on in the key phase with the cursor and
    the counter as they were.  The cursor is the parent when the
    activation starts, and the new child once a key has created one. *)
Theorem mapping_start_recurses_on_cursor :
  (∀ fuel parser h parent l,
     ConfYamlParse_loop (S fuel) (Event YAML_MAPPING_START_EVENT :: parser)
       h parent false l
     = match ConfYamlParse fuel parser h (node l) false with
       | None => None
       | Some (_, parser', h') =>
           ConfYamlParse_loop fuel parser' h' parent false
             (mkLocals (node l) CONF_KEY (seq_idx l))
       end) ∧
  (∀ fuel parser h parent inseq,
     ConfYamlParse fuel parser h parent inseq
     = ConfYamlParse_loop fuel parser h parent inseq (mkLocals parent CONF_KEY 0)) ∧
  (∀ value parent l h h1 l1,
     new_key value parent l h = Next h1 l1 →
     node l1 = length h ∧
     ∀ pd, deref h parent = Some pd →
       ∃ pd1, deref h1 parent = Some pd1 ∧ head pd1 = head pd ++ [length h]).
Proof.
  split; [|split].
  - intros. apply ConfYamlParse_loop_mapping_start.
  - reflexivity.
  - intros value parent l h h1 l1. apply new_key_cursor.
Qed.

Lemma mapping_start_recurses_on_cursor_witness :
  node (mkLocals 1 CONF_VAL 0) = length conf_empty ∧
  ∃ pd1, deref (TAILQ_INSERT_TAIL 0 1
                  (store_alter (set_name "a") 1 (conf_empty ++ [Some blank])))
               0 = Some pd1 ∧
         head pd1 = head blank ++ [length conf_empty].
Proof.
  destruct (proj2 (proj2 mapping_start_recurses_on_cursor)
              "a" 0 (enter 0) conf_empty _ _ eq_refl) as [Hnode Hparent].
  split; [exact Hnode|]. apply (Hparent blank). reflexivity.
Defined.

(** C9.  A key that names a child of the parent whose [allow_override]
    is unset leaves the store alone, and the scalar that follows is
    not dropped: it is written into the [val] of the node cursor,
    whatever that held, no other cell changes and the loop is back in
    the key phase.  When the key is the first event of the activation
    the cursor is the parent, and the value ends up in the parent.
    When a key that made a child [k1] has been read before, the cursor
    is that child, the last one made: the value replaces the value of
    [k1] and does not reach the parent.  In general the cursor starts
    on the parent, moves to the new child on every event that makes
    one, and moves on no other event. *)
Theorem skipped_key_value_written_to_cursor
    (key value : string) (h : store) (parent n0 : ptr) (cd : ConfNode) :
  ConfNodeLookupChild h parent key = Some n0 →
  deref h n0 = Some cd →
  allow_override cd = false →
  (∀ fuel parser l,
     state l = CONF_KEY →
     ConfYamlParse_loop (S (S fuel))
       (Event (YAML_SCALAR_EVENT key) :: Event (YAML_SCALAR_EVENT value) :: parser)
       h parent false l
     = ConfYamlParse_loop fuel parser (store_alter (set_val value) (node l) h)
         parent false (mkLocals (node l) CONF_KEY (seq_idx l))) ∧
  (∀ c nd, deref h c = Some nd →
     deref (store_alter (set_val value) c h) c
     = Some (mkConfNode (name nd) (Some value) (is_seq nd) (allow_override nd)
               (head nd))) ∧
  (∀ c q, q ≠ c → store_alter (set_val value) c h !! q = h !! q) ∧
  (∀ fuel rest,
     ConfYamlParse (3 + fuel)
       (Event (YAML_SCALAR_EVENT key) :: Event (YAML_SCALAR_EVENT value)
          :: Event YAML_MAPPING_END_EVENT :: rest) h parent false
     = Some (0%Z, rest, store_alter (set_val value) parent h)) ∧
  (∀ fuel rest k1 v1 pd,
     deref h parent = Some pd →
     Forall (λ c, c < length h) (head pd) →
     ConfNodeLookupChild h parent k1 = None →
     ∃ h',
       ConfYamlParse (5 + fuel)
         (Event (YAML_SCALAR_EVENT k1) :: Event (YAML_SCALAR_EVENT v1)
            :: Event (YAML_SCALAR_EVENT key) :: Event (YAML_SCALAR_EVENT value)
            :: Event YAML_MAPPING_END_EVENT :: rest) h parent false
       = Some (0%Z, rest, h') ∧
       length h' = S (length h) ∧
       deref h' (length h) = Some (entry_node k1 value) ∧
       (∃ pd', deref h' parent = Some pd' ∧ head pd' = head pd ++ [length h] ∧
               val pd' = match val pd with
                         | None => if is_seq pd then Some k1 else None
                         | Some v => Some v
                         end) ∧
       (∀ q, q < length h → q ≠ parent → h' !! q = h !! q)) ∧
  (∀ call event p p1 s s1 l0 l1,
     on_event call event p s parent false l0 = Some (Next s1 l1, p1) →
     node l1 = if makes_child s parent l0 event then length s else node l0).
Proof.
  intros Hlook Hn0 Hlock.
  assert (Hskip : ∀ fuel parser l,
     state l = CONF_KEY →
     ConfYamlParse_loop (S (S fuel))
       (Event (YAML_SCALAR_EVENT key) :: Event (YAML_SCALAR_EVENT value) :: parser)
       h parent false l
     = ConfYamlParse_loop fuel parser (store_alter (set_val value) (node l) h)
         parent false (mkLocals (node l) CONF_KEY (seq_idx l))).
  { intros fuel parser l Hst. rewrite !ConfYamlParse_loop_scalar. unfold on_scalar.
    rewrite Hst, Hlook, Hn0. simpl. by rewrite Hlock. }
  split; [exact Hskip|]. split; [|split; [|split; [|split]]].
  - intros c nd Hnd. by rewrite deref_store_alter_eq, Hnd.
  - intros c q Hq. by apply lookup_store_alter_ne.
  - intros fuel rest. unfold ConfYamlParse. cbn [Nat.add].
    rewrite Hskip by done. apply ConfYamlParse_loop_end. auto.
  - intros fuel rest k1 v1 pd Hp Halloc Hnone.
    pose proof (deref_lt _ _ _ Hp) as Hlt.
    destruct (new_key_Next k1 parent (enter parent) h) as (h1 & l1 & Hk).
    destruct (new_key_spec _ _ _ _ _ _ _ Hp Hk)
      as (-> & Hlen1 & Hnew1 & (pd1 & Hp1 & Hhead1 & Hname1 & _ & Hov1 & Hval1) & Hframe1).
    set (h2 := store_alter (set_val v1) (length h) h1).
    assert (Hp2 : deref h2 parent = Some pd1).
    { subst h2. by rewrite deref_store_alter_ne by lia. }
    assert (Hframe2 : ∀ q, q < length h → q ≠ parent → h2 !! q = h !! q).
    { intros q Hq Hne. subst h2. rewrite lookup_store_alter_ne by lia.
      by apply Hframe1. }
    assert (Hlook2 : ConfNodeLookupChild h2 parent key = Some n0).
    { unfold ConfNodeLookupChild in Hlook |- *. rewrite Hp in Hlook.
      rewrite Hp2, Hhead1. eapply find_agree_app; [|exact Hlook].
      intros c Hc. apply (name_is_kept h h2 parent pd pd1 key c Hp Hp2 Hname1).
      intros Hne. apply Hframe2; [|done].
      by apply (proj1 (Forall_forall _ _) Halloc). }
    assert (Hlock2 : from_option allow_override false (deref h2 n0) = false).
    { destruct (decide (n0 = parent)) as [->|Hne].
      - rewrite Hp2. simpl. rewrite Hov1. congruence.
      - pose proof (deref_lt _ _ _ Hn0) as Hlt0.
        unfold deref. rewrite Hframe2 by done. fold (deref h n0). by rewrite Hn0. }
    exists (store_alter (set_val value) (length h) h2).
    split; [|split; [|split; [|split]]].
    + unfold ConfYamlParse. cbn [Nat.add].
      rewrite ConfYamlParse_loop_scalar. unfold on_scalar. cbn [enter state].
      rewrite Hnone. change (mkLocals parent CONF_KEY 0) with (enter parent).
      rewrite Hk. rewrite ConfYamlParse_loop_scalar. unfold on_scalar.
      cbn [state node seq_idx]. fold h2.
      rewrite ConfYamlParse_loop_scalar. unfold on_scalar. cbn [state node seq_idx].
      rewrite Hlook2, Hlock2.
      rewrite ConfYamlParse_loop_scalar. unfold on_scalar. cbn [state node seq_idx].
      apply ConfYamlParse_loop_end. auto.
    + subst h2. by rewrite !length_store_alter.
    + subst h2. by rewrite !deref_store_alter_eq, Hnew1.
    + exists pd1. by rewrite deref_store_alter_ne by lia.
    + intros q Hq Hne. rewrite lookup_store_alter_ne by lia. by apply Hframe2.
  - intros call event p p1 s s1 l0 l1. apply cursor_rule.
Qed.

Lemma skipped_key_value_written_to_cursor_witness :
  ∃ h',
    ConfYamlParse 5
      (Event (YAML_SCALAR_EVENT "bar") :: Event (YAML_SCALAR_EVENT "1")
         :: Event (YAML_SCALAR_EVENT "foo") :: Event (YAML_SCALAR_EVENT "replacement")
         :: Event YAML_MAPPING_END_EVENT :: []) conf_seeded 0 false
    = Some (0%Z, [], h') ∧
    length h' = S (length conf_seeded) ∧
    deref h' (length conf_seeded) = Some (entry_node "bar" "replacement") ∧
    (∃ pd', deref h' 0 = Some pd' ∧ head pd' = [1] ++ [length conf_seeded] ∧
            val pd' = None) ∧
    (∀ q, q < length conf_seeded → q ≠ 0 → h' !! q = conf_seeded !! q).
Proof.
  apply (proj1 (proj2 (proj2 (proj2 (proj2
           (skipped_key_value_written_to_cursor "foo" "replacement" conf_seeded 0 1
              foo_seed eq_refl eq_refl eq_refl))))) 0 [] "bar" "1"
           (mkConfNode None None false false [1])).
  - reflexivity.
  - simpl. repeat constructor.
  - reflexivity.
Defined.

(** C3, at the input where the code departs from it.  Loading
    [foo: replacement] over a tree whose node [foo] must not be
    overridden returns 0, creates no node and keeps [foo], but the
    value is not dropped: it ends up as the [val] of the root. *)
Theorem skipped_value_overwrites_root :
  ∃ h',
    ConfYamlLoadString 8 true doc_foo 0 conf_seeded = Some (Returns 0 h') ∧
    length h' = length conf_seeded ∧
    deref h' 1 = deref conf_seeded 1 ∧
    (val <$> deref conf_seeded 0) = Some None ∧
    (val <$> deref h' 0) = Some (Some "replacement").
Proof. eexists. split; [vm_compute; reflexivity|]. by repeat split. Qed.

Lemma ConfYamlParse_frame
    (fuel : nat) (parser parser' : yaml_parser_t) (h h' : store) (root : ptr)
    (inseq : bool) (r : Z) (rd : ConfNode) :
  deref h root = Some rd →
  ¬ exposed h root root →
  ConfYamlParse fuel parser h root inseq = Some (r, parser', h') →
  frame_inv (length h) root h h'.
Proof.
  intros Hr Hsafe Hrun. apply ConfYamlParse_loop_runs in Hrun.
  apply (runs_frame _ _ _ _ _ Hrun (length h) h (closed_from_length h)
           (locked_from_length h) (le_n _)); [by eapply deref_lt|done|by left|].
  by eapply frame_inv_refl.
Qed.

Lemma ConfYamlParse_still_child
    (fuel : nat) (parser parser' : yaml_parser_t) (h h' : store) (root p n : ptr)
    (inseq : bool) (r : Z) (rd pd nd : ConfNode) :
  deref h root = Some rd →
  ¬ exposed h root root →
  deref h p = Some pd →
  n ∈ head pd →
  deref h n = Some nd →
  allow_override nd = false →
  n ≠ root →
  ¬ exposed h root n →
  ConfYamlParse fuel parser h root inseq = Some (r, parser', h') →
  seed_kept h h' root p n nd.
Proof.
  intros Hr Hsafe Hp Hin Hn Hlock Hne Hout Hrun.
  destruct (ConfYamlParse_frame _ _ _ _ _ _ _ _ _ Hr Hsafe Hrun)
    as [Hcells (rd0 & rd' & Hr0 & Hr' & _ & _ & _ & _ & Hkeep)].
  assert (Hframe : ∀ q, q < length h → q ≠ root → ¬ exposed h root q →
                     h' !! q = h !! q).
  { intros q Hq Hqr Hnot. by destruct (Hcells q Hq Hqr) as [E|[_ Hexp]]. }
  assert (Hsame : ∀ q nq, q ≠ root → ¬ exposed h root q → deref h q = Some nq →
                    deref h' q = Some nq).
  { intros q nq Hq Hnot Hd. unfold deref in *.
    rewrite Hframe; [done|by eapply deref_lt|done|done]. }
  split; [|exact Hframe].
  split; [by apply Hsame|].
  destruct (decide (p = root)) as [->|Hpr].
  - exists rd'. split; [done|]. assert (rd0 = pd) as -> by congruence.
    apply Hkeep; [done|]. intros (nd' & Hn' & Ho). congruence.
  - exists pd. split; [|done]. apply Hsame; [done| |done].
    intros Hexp. apply Hout. by eapply exposed_child.
Qed.

(** C4, as stated, fails.  In [conf_seed_under_x] the seed [y], whose
    [allow_override] is unset, is a child of [x], on which it is set.
    The document [x: {y: replacement}] has the key [y] under [x]; the
    key [x] removes the old node [x] with its subtree, so the seed is
    released, and [x.y] is a new node that holds the new value. *)
Lemma locked_seed_under_override_released :
  ∃ h',
    ConfYamlLoadString 11 true doc_x_y 0 conf_seed_under_x = Some (Returns 0 h') ∧
    still_child conf_seed_under_x 1 2 y_seed ∧
    allow_override y_seed = false ∧
    deref h' 2 = None ∧
    ConfGetNode h' 0 ["x"; "y"] = Some 4 ∧
    deref h' 4 = Some (entry_node "y" "replacement") ∧
    ¬ still_child h' 1 2 y_seed.
Proof.
  eexists. split; [vm_compute; reflexivity|].
  split; [split; [reflexivity|eexists; split; [reflexivity|]]|].
  { simpl. apply list_elem_of_singleton. reflexivity. }
  do 4 (split; [reflexivity|]). by intros [? _].
Qed.

(** C4, amended.  A seed [n] that has the name [key] and has
    [allow_override] unset, that is a child of some node [p] and does
    not lie in the subtree of a child of the root on which
    [allow_override] is set, is, when an activation on the root
    returns, still in the queue of [p] with its cell (name, value,
    flags and children) as it was, whatever the events were, so also
    when a mapping read into [p] has the key [key]; and so is the
    cell of every node outside these subtrees, but for the root.  The
    same holds when a load on that root returns.  This covers every
    such seed that is a child of the root.  The root itself is
    supposed not to lie in the subtree of one of its children. *)
Theorem locked_seed_preserved
    (h : store) (root p n : ptr) (rd pd nd : ConfNode) (key : string) :
  deref h root = Some rd →
  ¬ exposed h root root →
  deref h p = Some pd →
  n ∈ head pd →
  deref h n = Some nd →
  name nd = Some key →
  allow_override nd = false →
  n ≠ root →
  ¬ exposed h root n →
  (∀ fuel parser inseq r parser' h',
     ConfYamlParse fuel parser h root inseq = Some (r, parser', h') →
     seed_kept h h' root p n nd) ∧
  (∀ fuel initialize_ok input r h',
     ConfYamlLoadString fuel initialize_ok input root h = Some (Returns r h') →
     seed_kept h h' root p n nd) ∧
  (∀ fuel initialize_ok infile r h',
     ConfYamlLoadFile fuel initialize_ok infile root h = Some (Returns r h') →
     seed_kept h h' root p n nd).
Proof.
  intros Hr Hsafe Hp Hin Hn _ Hlock Hne Hout.
  assert (Hhere : seed_kept h h root p n nd)
    by (split; [split; [done|by exists pd]|done]).
  split; [|split].
  - intros fuel parser inseq r parser' h' Hrun.
    exact (ConfYamlParse_still_child _ _ _ _ _ _ _ _ _ _ _ _ _
             Hr Hsafe Hp Hin Hn Hlock Hne Hout Hrun).
  - intros fuel ok input r h'. unfold ConfYamlLoadString.
    destruct ok; simpl; [|done].
    destruct (ConfYamlParse fuel input h root false) as [[[r1 p1] h1]|] eqn:Hrun;
      [|done].
    intros [= <- <-]. exact (ConfYamlParse_still_child _ _ _ _ _ _ _ _ _ _ _ _ _
             Hr Hsafe Hp Hin Hn Hlock Hne Hout Hrun).
  - intros fuel ok infile r h'. unfold ConfYamlLoadFile.
    destruct ok; simpl; [|by intros [= <- <-]].
    destruct infile as [parser|]; [|by intros [= <- <-]].
    destruct (ConfYamlParse fuel parser h root false) as [[[r1 p1] h1]|] eqn:Hrun;
      [|done].
    intros [= <- <-]. exact (ConfYamlParse_still_child _ _ _ _ _ _ _ _ _ _ _ _ _
             Hr Hsafe Hp Hin Hn Hlock Hne Hout Hrun).
Qed.

Lemma locked_seed_preserved_witness :
  seed_kept conf_seeded (store_alter (set_val "replacement") 0 conf_seeded) 0 0 1
    foo_seed.
Proof.
  assert (Hlocked : ∀ q, ¬ exposed conf_seeded 0 q).
  { intros q (pd & c & Hpd & Hc & (cd & Hcd & Ho) & _).
    injection Hpd as <-. simpl in Hc. apply list_elem_of_singleton in Hc as ->.
    injection Hcd as <-. discriminate Ho. }
  refine (proj1 (proj2 (locked_seed_preserved conf_seeded 0 0 1
                          (mkConfNode None None false false [1])
                          (mkConfNode None None false false [1]) foo_seed "foo"
                          _ _ _ _ _ _ _ _ _))
            8 true doc_foo 0%Z _ _).
  - reflexivity.
  - apply Hlocked.
  - reflexivity.
  - simpl. apply list_elem_of_singleton. reflexivity.
  - reflexivity.
  - reflexivity.
  - reflexivity.
  - lia.
  - apply Hlocked.
  - vm_compute. reflexivity.
Defined.

(** The document
<<
%YAML 1.1
---
a:
  b: c
>>
    loaded into an empty tree: the node of [b] is a child of the node
    of [a], and the root has no child [b]. *)
Lemma nested_mapping_under_key :
  ∃ h',
    ConfYamlLoadString 9 true
      (map Event [YAML_STREAM_START_EVENT; yaml_1_1; YAML_MAPPING_START_EVENT;
                  YAML_SCALAR_EVENT "a"; YAML_MAPPING_START_EVENT;
                  YAML_SCALAR_EVENT "b"; YAML_SCALAR_EVENT "c";
                  YAML_MAPPING_END_EVENT; YAML_MAPPING_END_EVENT;
                  YAML_DOCUMENT_END_EVENT; YAML_STREAM_END_EVENT])
      0 conf_empty = Some (Returns 0 h') ∧
    ConfGetNode h' 0 ["a"; "b"] = Some 2 ∧
    ConfGetNode h' 0 ["b"] = None ∧
    child_entries h' 1 = [(Some "b", Some "c")].
Proof. eexists. split; [vm_compute; reflexivity|]. by repeat split. Qed.

(** C2, at inputs where the code departs from it.  The call made for
    [SEQUENCE_START] is checked, the two calls made for [MAPPING_START]
    are not.  In [doc_broken] the activation of the top-level mapping
    fails on the scanner error and returns -1; its caller goes on
    asking the parser for events, gets the empty event for ever, and
    the load never returns.  In [doc_reopened] the inner activation
    fails on the missing version directive, and the load returns 0. *)
Theorem inner_failure_not_propagated :
  (∃ h1, ConfYamlParse 2 [Event (YAML_SCALAR_EVENT "key"); Problem]
           conf_empty 0 false = Some ((-1)%Z, [], h1)) ∧
  (∀ fuel, ConfYamlLoadString fuel true doc_broken 0 conf_empty = None) ∧
  (∀ fuel, ConfYamlLoadFile fuel true (Some doc_broken) 0 conf_empty = None) ∧
  ConfYamlParse 1 [Event (YAML_DOCUMENT_START_EVENT None); Event YAML_STREAM_END_EVENT]
    conf_empty 0 false
  = Some ((-1)%Z, [Event YAML_STREAM_END_EVENT], conf_empty) ∧
  ConfYamlLoadString 5 true doc_reopened 0 conf_empty = Some (Returns 0 conf_empty).
Proof.
  assert (Hhang : ∀ fuel, ConfYamlParse fuel doc_broken conf_empty 0 false = None).
  { intros fuel. unfold ConfYamlParse. simpl.
    do 5 (destruct fuel as [|fuel]; [reflexivity|]). simpl.
    rewrite ConfYamlParse_loop_exhausted. destruct fuel; reflexivity. }
  split; [eexists; vm_compute; reflexivity|].
  split; [|split].
  - intros fuel. unfold ConfYamlLoadString. simpl. by rewrite Hhang.
  - intros fuel. unfold ConfYamlLoadFile. simpl. by rewrite Hhang.
  - split; reflexivity.
Qed.

(** C7.  Loading the document of [ConfYamlLoggingOutputTest] into an
    empty tree returns 0; the node [logging.output] has exactly the
    two children "0" and "1", the first with the children
    [interface = console], [log-level = error], the second with
    [interface = syslog], [facility = local4], [log-level = info], in
    that order. *)
Theorem logging_output_test :
  ∃ h' outputs output0 output1,
    ConfYamlLoadString 30 true doc_logging 0 conf_empty = Some (Returns 0 h') ∧
    ConfGetNode h' 0 ["logging"; "output"] = Some outputs ∧
    head <$> deref h' outputs = Some [output0; output1] ∧
    name <$> deref h' output0 = Some (Some "0") ∧
    name <$> deref h' output1 = Some (Some "1") ∧
    child_entries h' output0
    = [(Some "interface", Some "console"); (Some "log-level", Some "error")] ∧
    child_entries h' output1
    = [(Some "interface", Some "syslog"); (Some "facility", Some "local4");
       (Some "log-level", Some "info")].
Proof.
  eexists _, _, _, _. split; [vm_compute; reflexivity|].
  split; [vm_compute; reflexivity|].
  split; [vm_compute; reflexivity|].
  by repeat split.
Qed.

(** *** The prologue *)

Lemma consumes_one (event : yaml_event_t) :
  event = YAML_STREAM_START_EVENT ∨ event = YAML_DOCUMENT_END_EVENT ∨
  event = yaml_1_1 →
  consumes [Event event].
Proof.
  intros Hev. exists 1. intros rest h parent inseq l. exists h, l.
  intros fuel res Hrun. by destruct Hev as [-> | [-> | ->]].
Qed.

Lemma consumes_documents (docs : list ynode) :
  consumes (Event YAML_STREAM_START_EVENT :: flat_map document_events docs).
Proof.
  apply (consumes_app [_]); [apply consumes_one; auto|].
  induction docs as [|t docs IH]; [apply consumes_nil|].
  cbn [flat_map]. apply consumes_app; [|exact IH].
  unfold document_events.
  apply (consumes_app [_]); [apply consumes_one; auto|].
  apply consumes_app; [apply consumes_ynode|apply consumes_one; auto].
Qed.

(** C8.  A [DOCUMENT_START] without a version directive, or with one
    that is not 1.1, makes the activation that meets it return -1 with
    the store as it is; with the directive 1.1 the loop goes on as if
    nothing had been read.  In a stream of documents, the first
    document start that is not accepted makes both loads return -1. *)
Theorem document_version_checked :
  (∀ fuel ver parser h parent inseq l,
     version_accepted ver = false →
     ConfYamlParse_loop (S fuel) (Event (YAML_DOCUMENT_START_EVENT ver) :: parser)
       h parent inseq l = Some ((-1)%Z, parser, h)) ∧
  (∀ fuel ver parser h parent inseq l,
     version_accepted ver = true →
     ConfYamlParse_loop (S fuel) (Event (YAML_DOCUMENT_START_EVENT ver) :: parser)
       h parent inseq l = ConfYamlParse_loop fuel parser h parent inseq l) ∧
  (∀ docs ver rest,
     version_accepted ver = false →
     ∃ n, ∀ fuel root h, n ≤ fuel →
       ∃ h',
         ConfYamlLoadString fuel true
           (Event YAML_STREAM_START_EVENT :: flat_map document_events docs
              ++ Event (YAML_DOCUMENT_START_EVENT ver) :: rest) root h
         = Some (Returns (-1) h') ∧
         ConfYamlLoadFile fuel true
           (Some (Event YAML_STREAM_START_EVENT :: flat_map document_events docs
                    ++ Event (YAML_DOCUMENT_START_EVENT ver) :: rest)) root h
         = Some (Returns (-1) h')).
Proof.
  assert (Hbad : ∀ fuel ver parser h parent inseq l,
     version_accepted ver = false →
     ConfYamlParse_loop (S fuel) (Event (YAML_DOCUMENT_START_EVENT ver) :: parser)
       h parent inseq l = Some ((-1)%Z, parser, h)).
  { intros fuel ver parser h parent inseq l Hver.
    rewrite ConfYamlParse_loop_document_start.
    destruct ver as [v|]; [|done]. simpl in Hver.
    unfold YAML_VERSION_MAJOR, YAML_VERSION_MINOR. by rewrite Hver. }
  split; [exact Hbad|]. split.
  - intros fuel ver parser h parent inseq l Hver.
    rewrite ConfYamlParse_loop_document_start.
    destruct ver as [v|]; [|done]. simpl in Hver.
    unfold YAML_VERSION_MAJOR, YAML_VERSION_MINOR. by rewrite Hver.
  - intros docs ver rest Hver.
    destruct (consumes_documents docs) as [n Hn]. exists (n + 1).
    intros fuel root h Hfuel.
    destruct (Hn (Event (YAML_DOCUMENT_START_EVENT ver) :: rest) h root false
                (enter root)) as (h1 & l1 & K).
    exists h1.
    assert (Hrun : ConfYamlParse fuel
              (Event YAML_STREAM_START_EVENT :: flat_map document_events docs
                 ++ Event (YAML_DOCUMENT_START_EVENT ver) :: rest) h root false
            = Some ((-1)%Z, rest, h1)).
    { eapply ConfYamlParse_loop_mono; [exact Hfuel|].
      rewrite app_comm_cons. apply K. by apply Hbad. }
    unfold ConfYamlLoadString, ConfYamlLoadFile. simpl negb. cbv iota.
    by rewrite Hrun.
Qed.

Lemma document_version_checked_witness :
  ConfYamlParse_loop 1
    (Event (YAML_DOCUMENT_START_EVENT (Some {| major := 9; minor := 9 |}))
       :: [Event YAML_MAPPING_START_EVENT])
    conf_empty 0 false (enter 0)
  = Some ((-1)%Z, [Event YAML_MAPPING_START_EVENT], conf_empty) ∧
  ConfYamlParse_loop 2 (Event yaml_1_1 :: [Event YAML_STREAM_END_EVENT])
    conf_empty 0 false (enter 0)
  = ConfYamlParse_loop 1 [Event YAML_STREAM_END_EVENT] conf_empty 0 false (enter 0) ∧
  ∃ fuel h',
    ConfYamlLoadString fuel true
      (Event YAML_STREAM_START_EVENT :: flat_map document_events [YScalar "first"]
         ++ Event (YAML_DOCUMENT_START_EVENT None) :: [Event YAML_STREAM_END_EVENT])
      0 conf_empty = Some (Returns (-1) h') ∧
    ConfYamlLoadFile fuel true
      (Some (Event YAML_STREAM_START_EVENT :: flat_map document_events [YScalar "first"]
               ++ Event (YAML_DOCUMENT_START_EVENT None)
               :: [Event YAML_STREAM_END_EVENT]))
      0 conf_empty = Some (Returns (-1) h').
Proof.
  split; [|split].
  - apply (proj1 document_version_checked 0
             (Some {| major := 9; minor := 9 |})).
    reflexivity.
  - apply (proj1 (proj2 document_version_checked) 1 (Some {| major := 1; minor := 1 |})).
    reflexivity.
  - destruct (proj2 (proj2 document_version_checked) [YScalar "first"] None
                [Event YAML_STREAM_END_EVENT]) as [n Hn].
    + reflexivity.
    + exists n. apply (Hn n 0 conf_empty). lia.
Defined.

(** [ConfYamlBadYamlVersionTest]: the load returns -1, on the error
    that libyaml reports for the directive. *)
Lemma bad_yaml_version_test :
  ConfYamlLoadString 2 true doc_yaml_9_9 0 conf_empty = Some (Returns (-1) conf_empty).
Proof. reflexivity. Qed.

(** *** Sequences *)

(** C5, as stated, fails.  The sequence [[a, b], c] has two items, and
    the activation that reads it in sequence mode returns 0 having
    given its parent three children, named "0", "1" and "0". *)
Lemma nested_sequence_not_indexed :
  ∃ h',
    ConfYamlParse 8 (events_of items_nested ++ [Event YAML_SEQUENCE_END_EVENT])
      conf_empty 0 true = Some (0%Z, [], h') ∧
    child_entries h' 0
    = [(Some "0", Some "a"); (Some "1", Some "b"); (Some "0", Some "c")] ∧
    ¬ indexed_children h' 0 blank (length items_nested).
Proof.
  eexists. split; [vm_compute; reflexivity|]. split; [reflexivity|].
  intros (kids & Hd & Hlen & _). vm_compute in Hd.
  injection Hd as <-. discriminate Hlen.
Qed.

(** C5, amended.  A sequence none of whose items is itself a sequence
    (each is a scalar or a mapping, whatever the mapping holds), read
    in sequence mode up to its [SEQUENCE_END], makes the activation
    return 0 with nothing but that sequence consumed, and gives the
    parent exactly one more child per item, named "0" to "k-1" in the
    order of the items; none when the sequence is empty. *)
Theorem sequence_children_indexed (items : list ynode) (rest : yaml_parser_t) :
  Forall (λ t, is_sequence t = false) items →
  ∃ n, ∀ fuel h parent pd,
    n ≤ fuel →
    deref h parent = Some pd →
    ∃ h',
      ConfYamlParse fuel (events_of items ++ Event YAML_SEQUENCE_END_EVENT :: rest)
        h parent true = Some (0%Z, rest, h') ∧
      indexed_children h' parent pd (length items).
Proof.
  intros Hitems. destruct (sequence_items items Hitems) as [n Hn].
  exists (n + 1). intros fuel h parent pd Hfuel Hp.
  destruct (Hn (Event YAML_SEQUENCE_END_EVENT :: rest) h parent pd CONF_KEY 0%Z Hp)
    as (h1 & kids & st1 & K & _ & Hp1 & Hlen & Hkids).
  exists h1. split.
  - eapply ConfYamlParse_loop_mono; [exact Hfuel|]. apply K.
    apply ConfYamlParse_loop_end. auto.
  - exists kids. split; [done|]. split; [done|].
    intros i c Hi. destruct (Hkids i c Hi) as (cd & Hcd & Hname & _).
    exists cd. by rewrite Z.add_0_l in Hname.
Qed.

Lemma sequence_children_indexed_witness :
  ∃ fuel h',
    ConfYamlParse fuel
      (events_of items_rule_files ++ Event YAML_SEQUENCE_END_EVENT :: [])
      conf_empty 0 true = Some (0%Z, [], h') ∧
    indexed_children h' 0 blank (length items_rule_files).
Proof.
  destruct (sequence_children_indexed items_rule_files []) as [n Hn].
  - repeat constructor.
  - exists n. apply (Hn n conf_empty 0 blank).
    + lia.
    + reflexivity.
Defined.

(** [ConfYamlRuleFileTest], the part about [rule-files]. *)
Lemma rule_files_test :
  ∃ h',
    ConfYamlParse 3 (events_of items_rule_files ++ [Event YAML_SEQUENCE_END_EVENT])
      conf_empty 0 true = Some (0%Z, [], h') ∧
    child_entries h' 0
    = [(Some "0", Some "netbios.rules"); (Some "1", Some "x11.rules")].
Proof. eexists. split; [vm_compute; reflexivity|reflexivity]. Qed.

Lemma ConfNodeLookupChild_no_children (h : store) (n : ptr) (key : string)
    (nd : ConfNode) :
  deref h n = Some nd → head nd = [] → ConfNodeLookupChild h n key = None.
Proof. intros Hn Hhead. unfold ConfNodeLookupChild. by rewrite Hn, Hhead. Qed.

Lemma new_key_on_seq_node (key : string) (n : ptr) (l l1 : locals) (h h1 : store)
    (nd : ConfNode) :
  deref h n = Some nd → is_seq nd = true → val nd = None →
  new_key key n l h = Next h1 l1 →
  node l1 = length h ∧
  ∃ nd1, deref h1 n = Some nd1 ∧ val nd1 = Some key ∧ is_seq nd1 = true ∧
         name nd1 = name nd ∧ allow_override nd1 = allow_override nd.
Proof.
  intros Hn Hseq Hval. unfold new_key, ConfNodeNew. rewrite Hn, Hseq, Hval.
  intros [= <- <-]. pose proof (deref_lt _ _ _ Hn) as Hlt.
  rewrite length_store_alter. split; [done|].
  exists (set_head (head nd ++ [length h]) (set_val key nd)). split; [|done].
  apply (deref_insert_tail_parent _ _ _ (set_val key nd)).
  rewrite deref_store_alter_ne by lia.
  rewrite deref_new_old by (by rewrite length_store_alter).
  by rewrite deref_store_alter_eq, Hn.
Qed.

(** What the node of a mapping item holds once the activation that
    made it has returned. *)
Lemma mapping_item_node
    (fuel : nat) (key : string) (parser parser' : yaml_parser_t) (h h' : store)
    (parent : ptr) (pd : ConfNode) (st : conf_state) (idx : Z) (r : Z) :
  deref h parent = Some pd →
  ConfYamlParse_loop fuel
    (Event YAML_MAPPING_START_EVENT :: Event (YAML_SCALAR_EVENT key) :: parser)
    h parent true (mkLocals parent st idx) = Some (r, parser', h') →
  (∃ nd, deref h' (length h) = Some nd ∧
         name nd = Some (snprintf_d idx) ∧
         is_seq nd = true ∧
         val nd = Some key) ∧
  (∃ pd', deref h' parent = Some pd' ∧ length h ∈ head pd').
Proof.
  intros Hp Hrun. pose proof (deref_lt _ _ _ Hp) as Hlt.
  destruct fuel as [|fuel]; [discriminate|].
  rewrite ConfYamlParse_loop_mapping_start_inseq in Hrun. cbn [node seq_idx] in Hrun.
  set (hm := seq_mapping_store h parent idx) in *.
  destruct (ConfYamlParse fuel _ hm (length h) false) as [[[r2 p2] h2]|] eqn:Hcall;
    [|discriminate].
  assert (Hnm : deref hm (length h) =
                Some (set_name (snprintf_d idx) (set_is_seq true blank))).
  { by apply scalar_item_node. }
  assert (Hpm : deref hm parent = Some (set_head (head pd ++ [length h]) pd)).
  { by apply scalar_item_parent. }
  destruct (seq_mapping_store_closed (length h) h parent idx
              (closed_from_length h) (le_n _)) as [Hcm Hlm].
  pose proof (seq_mapping_store_locked (length h) h parent idx (locked_from_length h))
    as Hkm.
  fold hm in Hcm, Hlm, Hkm.
  pose proof (ConfYamlParse_loop_runs _ _ _ _ _ _ _ _ _ Hcall) as Hr2.
  pose proof (ConfYamlParse_loop_runs _ _ _ _ _ _ _ _ _ Hrun) as Hr3.
  pose proof (λ q, runs_keeps _ _ _ _ _ Hr3 (length h2) (closed_from_length h2)
                     (locked_from_length h2) (le_n _)
                     (or_intror (conj eq_refl eq_refl)) q) as Hk3.
  cbn [node] in Hk3.
  destruct (runs_closed _ _ _ _ _ Hr2 (length h) Hcm) as [_ Hl2]; [lia|].
  (* the item node once its mapping has been read *)
  assert (Hn2 : ∃ nd2, deref h2 (length h) = Some nd2 ∧
                  name nd2 = Some (snprintf_d idx) ∧ is_seq nd2 = true ∧
                  val nd2 = Some key).
  { unfold ConfYamlParse in Hcall. destruct fuel as [|fuel]; [discriminate|].
    rewrite ConfYamlParse_loop_scalar in Hcall.
    destruct (on_scalar key hm (length h) false (enter (length h)))
      as [hk lk|] eqn:Hs;
      [|destruct (on_scalar_Next key hm (length h) false (enter (length h)))
          as (? & ? & ?); congruence].
    pose proof (on_scalar_closed (length h) _ _ _ _ _ _ _ Hcm ltac:(lia) Hs)
      as (Hck & Hlenk & _).
    pose proof (on_scalar_locked (length h) _ _ _ _ _ _ _ Hkm Hs) as Hkk.
    unfold on_scalar in Hs. cbn [state enter] in Hs.
    rewrite (ConfNodeLookupChild_no_children _ _ _ _ Hnm eq_refl) in Hs.
    apply (new_key_on_seq_node _ _ _ _ _ _ _ Hnm) in Hs
      as (Hlk & ndk & Hndk & Hvk & Hsk & Hnk & Hok); [|done..].
    apply ConfYamlParse_loop_runs in Hcall.
    assert (Hbk : length h ≤ length hk) by lia.
    assert (Hctx : (length h ≤ length h ∧ length h ≤ node lk) ∨
                   (false = true ∧ node lk = length h)) by (left; lia).
    destruct (runs_keeps _ _ _ _ _ Hcall (length h) Hck Hkk Hbk Hctx
                (length h) ndk Hndk)
      as (nd2 & Hnd2 & Hname2 & Hseq2 & _ & _ & Hval2 & _).
    exists nd2. split; [done|]. split; [by rewrite Hname2, Hnk|].
    split; [by rewrite Hseq2|].
    rewrite Hval2, Hvk; [done|rewrite Hlk, Hlm; lia|by rewrite Hvk]. }
  destruct Hn2 as (nd2 & Hnd2 & Hname2 & Hseq2 & Hval2).
  split.
  - destruct (Hk3 (length h) nd2 Hnd2) as (nd & Hnd & _ & _ & _ & _ & _ & Heq).
    assert (nd = nd2) as -> by (apply Heq; lia).
    exists nd2. by repeat split.
  - assert (Hp2 : deref h2 parent = Some (set_head (head pd ++ [length h]) pd)).
    { rewrite <- Hpm. unfold deref.
      rewrite (runs_below _ _ _ _ _ Hr2 (length h)); simpl; [done|done|lia|lia|lia|lia]. }
    destruct (Hk3 parent _ Hp2) as (pd' & Hp' & _ & _ & _ & [more Hhead] & _).
    exists pd'. split; [done|]. rewrite Hhead. simpl.
    rewrite !elem_of_app, list_elem_of_singleton. auto.
Qed.

(** C6.  When an activation in sequence mode meets an item that is a
    mapping whose first key is the scalar [key], the node it creates
    for that item, named by the current index, has its [is_seq] flag
    set and [key] as its [val] when the activation returns, and is a
    child of the parent, whatever the rest of the mapping and the
    further items of the sequence hold; and the activation does return
    0 at the end of the sequence.  The node is as said also when the
    events that follow the key are not well nested, whenever the
    activation returns. *)
Theorem mapping_item_val_is_first_key (key : string) :
  (∀ body items rest,
     ∃ n, ∀ fuel h parent pd st idx,
       n ≤ fuel →
       deref h parent = Some pd →
       ∃ h',
         ConfYamlParse_loop fuel
           (events_of (YMapping (YScalar key :: body) :: items)
              ++ Event YAML_SEQUENCE_END_EVENT :: rest)
           h parent true (mkLocals parent st idx) = Some (0%Z, rest, h') ∧
         (∃ nd, deref h' (length h) = Some nd ∧
                name nd = Some (snprintf_d idx) ∧
                is_seq nd = true ∧
                val nd = Some key) ∧
         (∃ pd', deref h' parent = Some pd' ∧ length h ∈ head pd')) ∧
  (∀ fuel parser parser' h h' parent pd st idx r,
     deref h parent = Some pd →
     ConfYamlParse_loop fuel
       (Event YAML_MAPPING_START_EVENT :: Event (YAML_SCALAR_EVENT key) :: parser)
       h parent true (mkLocals parent st idx) = Some (r, parser', h') →
     (∃ nd, deref h' (length h) = Some nd ∧
            name nd = Some (snprintf_d idx) ∧
            is_seq nd = true ∧
            val nd = Some key) ∧
     (∃ pd', deref h' parent = Some pd' ∧ length h ∈ head pd')).
Proof.
  split; [|intros; by eapply mapping_item_node].
  intros body items rest.
  destruct (consumes_events_of (YMapping (YScalar key :: body) :: items)) as [n Hn].
  exists (n + 1). intros fuel h parent pd st idx Hfuel Hp.
  destruct (Hn (Event YAML_SEQUENCE_END_EVENT :: rest) h parent true
              (mkLocals parent st idx)) as (h1 & l1 & K).
  exists h1.
  assert (Hrun : ConfYamlParse_loop fuel
            (events_of (YMapping (YScalar key :: body) :: items)
               ++ Event YAML_SEQUENCE_END_EVENT :: rest)
            h parent true (mkLocals parent st idx) = Some (0%Z, rest, h1)).
  { eapply ConfYamlParse_loop_mono; [exact Hfuel|]. apply K.
    apply ConfYamlParse_loop_end. auto. }
  split; [exact Hrun|].
  unfold events_of in Hrun. cbn [flat_map ynode_events app map] in Hrun.
  by eapply mapping_item_node.
Qed.

Lemma mapping_item_val_is_first_key_witness :
  (∃ fuel h',
     ConfYamlParse_loop fuel
       (events_of (YMapping (YScalar "apache-php" :: [YScalar "on"]) :: [YScalar "last"])
          ++ Event YAML_SEQUENCE_END_EVENT :: [])
       conf_empty 0 true (mkLocals 0 CONF_KEY 0) = Some (0%Z, [], h') ∧
     (∃ nd, deref h' (length conf_empty) = Some nd ∧
            name nd = Some (snprintf_d 0) ∧
            is_seq nd = true ∧
            val nd = Some "apache-php") ∧
     (∃ pd', deref h' 0 = Some pd' ∧ length conf_empty ∈ head pd')) ∧
  ((∃ nd, deref conf_apache (length conf_empty) = Some nd ∧
          name nd = Some (snprintf_d 0) ∧
          is_seq nd = true ∧
          val nd = Some "apache-php") ∧
   (∃ pd', deref conf_apache 0 = Some pd' ∧ length conf_empty ∈ head pd')).
Proof.
  split.
  - destruct (proj1 (mapping_item_val_is_first_key "apache-php") [YScalar "on"]
                [YScalar "last"] []) as [n Hn].
    exists n. apply (Hn n conf_empty 0 blank CONF_KEY 0%Z).
    + lia.
    + reflexivity.
  - apply (proj2 (mapping_item_val_is_first_key "apache-php") 3
             [Event YAML_MAPPING_END_EVENT; Event YAML_SEQUENCE_END_EVENT] []
             conf_empty conf_apache 0 blank CONF_KEY 0%Z 0%Z).
    + reflexivity.
    + vm_compute. reflexivity.
Defined.

(** A sequence met as an item of a sequence: its items join those of
    the outer one under the same parent, numbered from 0 again, and the
    outer index does not count it. *)
Lemma nested_sequence_items (outer inner : list ynode) :
  Forall (λ t, is_sequence t = false) outer →
  Forall (λ t, is_sequence t = false) inner →
  ∃ n, ∀ rest h parent pd,
    deref h parent = Some pd →
    ∃ h2 kids1 kids2,
      (∀ fuel res,
         ConfYamlParse_loop fuel rest h2 parent true
           (mkLocals parent CONF_KEY (Z.of_nat (length outer))) = Some res →
         ConfYamlParse (n + fuel)
           (events_of outer ++ Event YAML_SEQUENCE_START_EVENT
              :: events_of inner ++ Event YAML_SEQUENCE_END_EVENT :: rest)
           h parent true = Some res) ∧
      deref h2 parent = Some (set_head (head pd ++ kids1 ++ kids2) pd) ∧
      length kids1 = length outer ∧
      length kids2 = length inner ∧
      (∀ i c, kids1 !! i = Some c →
         ∃ cd, deref h2 c = Some cd ∧ name cd = Some (snprintf_d (Z.of_nat i))) ∧
      (∀ i c, kids2 !! i = Some c →
         ∃ cd, deref h2 c = Some cd ∧ name cd = Some (snprintf_d (Z.of_nat i))).
Proof.
  intros Houter Hinner.
  destruct (sequence_items outer Houter) as [n1 H1].
  destruct (sequence_items inner Hinner) as [n2 H2].
  exists (n1 + S (n2 + 1)). intros rest h parent pd Hp.
  destruct (H1 (Event YAML_SEQUENCE_START_EVENT
                  :: events_of inner ++ Event YAML_SEQUENCE_END_EVENT :: rest)
              h parent pd CONF_KEY 0%Z Hp)
    as (h1 & kids1 & st1 & K1 & _ & Hp1 & Hlen1 & Hkids1).
  destruct (H2 (Event YAML_SEQUENCE_END_EVENT :: rest) h1 parent _ CONF_KEY 0%Z Hp1)
    as (h2 & kids2 & st2 & K2 & Hruns2 & Hp2 & Hlen2 & Hkids2).
  exists h2, kids1, kids2. split; [|split; [|split; [|split; [|split]]]].
  - intros fuel res Hrun. unfold ConfYamlParse, enter.
    rewrite <- Nat.add_assoc. apply K1.
    replace (S (n2 + 1) + fuel) with (S (n2 + 1 + fuel)) by lia.
    assert (Hcall : ConfYamlParse (n2 + 1 + fuel)
              (events_of inner ++ Event YAML_SEQUENCE_END_EVENT :: rest)
              h1 parent true = Some (0%Z, rest, h2)).
    { eapply (ConfYamlParse_loop_mono (n2 + 1)); [lia|].
      apply K2. apply ConfYamlParse_loop_end. auto. }
    rewrite ConfYamlParse_loop_sequence_start. cbn [node seq_idx].
    rewrite Hcall. cbn [Z.eqb]. rewrite Z.add_0_l.
    eapply ConfYamlParse_loop_mono; [|exact Hrun]. lia.
  - rewrite Hp2. unfold set_head. simpl. by rewrite <- app_assoc.
  - done.
  - done.
  - intros i c Hi. destruct (Hkids1 i c Hi) as (cd1 & Hcd1 & Hname1 & Hlock1).
    destruct (runs_keeps _ _ _ _ _ Hruns2 (length h1) (closed_from_length h1)
                (locked_from_length h1) (le_n _)
                (or_intror (conj eq_refl eq_refl)) c cd1 Hcd1)
      as (cd & Hcd & Hname & _).
    exists cd. split; [done|]. by rewrite Hname, Hname1, Z.add_0_l.
  - intros i c Hi. destruct (Hkids2 i c Hi) as (cd & Hcd & Hname & _).
    exists cd. by rewrite Z.add_0_l in Hname.
Qed.

(** C10.  In sequence mode no event moves the node cursor, which an
    activation starts on its parent.  A [SEQUENCE_START] met in
    sequence mode therefore makes the loader call itself on that same
    parent, in sequence mode and with the counter of the new activation
    at 0.  The items of the inner sequence are appended to the children
    of the parent after those of the outer one, named from "0" again:
    with both sequences non-empty, two children are named "0". *)
Theorem nested_sequence_shares_parent :
  (∀ call event parser parser1 h h1 parent l l1,
     on_event call event parser h parent true l = Some (Next h1 l1, parser1) →
     node l1 = node l) ∧
  (∀ fuel parser h parent st idx,
     ConfYamlParse_loop (S fuel) (Event YAML_SEQUENCE_START_EVENT :: parser)
       h parent true (mkLocals parent st idx)
     = match ConfYamlParse_loop fuel parser h parent true (mkLocals parent CONF_KEY 0)
       with
       | None => None
       | Some (r, parser', h') =>
           if (r =? 0)%Z
           then ConfYamlParse_loop fuel parser' h' parent true
                  (mkLocals parent CONF_KEY idx)
           else Some ((-1)%Z, parser', h')
       end) ∧
  (∀ outer inner,
     Forall (λ t, is_sequence t = false) outer →
     Forall (λ t, is_sequence t = false) inner →
     ∃ n, ∀ fuel h parent pd,
       n ≤ fuel →
       deref h parent = Some pd →
       ∃ h' kids1 kids2,
         ConfYamlParse fuel
           (events_of outer ++ Event YAML_SEQUENCE_START_EVENT
              :: events_of inner ++ Event YAML_SEQUENCE_END_EVENT
              :: [Event YAML_SEQUENCE_END_EVENT])
           h parent true = Some (0%Z, [], h') ∧
         deref h' parent = Some (set_head (head pd ++ kids1 ++ kids2) pd) ∧
         length kids1 = length outer ∧
         length kids2 = length inner ∧
         (∀ i c, kids1 !! i = Some c →
            ∃ cd, deref h' c = Some cd ∧ name cd = Some (snprintf_d (Z.of_nat i))) ∧
         (∀ i c, kids2 !! i = Some c →
            ∃ cd, deref h' c = Some cd ∧ name cd = Some (snprintf_d (Z.of_nat i)))).
Proof.
  split; [|split].
  - intros call event parser parser1 h h1 parent l l1.
    destruct event; simpl; try (intros Hev; by simplify_eq).
    + destruct version_directive as [v|]; [|done].
      destruct (_ && _); intros Hev; by simplify_eq.
    + destruct (call parser h (node l) true) as [[[r p] s]|]; [|done].
      destruct (r =? 0)%Z; intros Hev; by simplify_eq.
    + destruct (call parser _ (length h) false) as [[[r p] s]|]; [|done].
      intros Hev. by simplify_eq.
  - intros. apply ConfYamlParse_loop_sequence_start.
  - intros outer inner Houter Hinner.
    destruct (nested_sequence_items outer inner Houter Hinner) as [n Hn].
    exists (n + 1). intros fuel h parent pd Hfuel Hp.
    destruct (Hn [Event YAML_SEQUENCE_END_EVENT] h parent pd Hp)
      as (h2 & kids1 & kids2 & K & Hrest).
    exists h2, kids1, kids2. split; [|exact Hrest].
    eapply ConfYamlParse_loop_mono; [exact Hfuel|]. apply K.
    apply ConfYamlParse_loop_end. auto.
Qed.

Lemma nested_sequence_shares_parent_witness :
  node (mkLocals 0 CONF_KEY 1) = node (enter 0) ∧
  ∃ fuel h' kids1 kids2,
    ConfYamlParse fuel
      (events_of [YScalar "c"] ++ Event YAML_SEQUENCE_START_EVENT
         :: events_of [YScalar "a"; YScalar "b"] ++ Event YAML_SEQUENCE_END_EVENT
         :: [Event YAML_SEQUENCE_END_EVENT])
      conf_empty 0 true = Some (0%Z, [], h') ∧
    deref h' 0 = Some (set_head (head blank ++ kids1 ++ kids2) blank) ∧
    length kids1 = length [YScalar "c"] ∧
    length kids2 = length [YScalar "a"; YScalar "b"] ∧
    (∀ i c, kids1 !! i = Some c →
       ∃ cd, deref h' c = Some cd ∧ name cd = Some (snprintf_d (Z.of_nat i))) ∧
    (∀ i c, kids2 !! i = Some c →
       ∃ cd, deref h' c = Some cd ∧ name cd = Some (snprintf_d (Z.of_nat i))).
Proof.
  split.
  - eapply (proj1 nested_sequence_shares_parent
              (λ _ _ _ _, None) (YAML_SCALAR_EVENT "c")
              [] [] conf_empty _ 0 (enter 0) (mkLocals 0 CONF_KEY 1)).
    reflexivity.
  - destruct (proj2 (proj2 nested_sequence_shares_parent)
                [YScalar "c"] [YScalar "a"; YScalar "b"]) as [n Hn].
    + repeat constructor.
    + repeat constructor.
    + exists n. apply (Hn n conf_empty 0 blank).
      * lia.
      * reflexivity.
Defined.

(** The sequence [c, [a, b]] read under the root: three children, two
    of them named "0". *)
Lemma nested_sequence_duplicate_names :
  ∃ h',
    ConfYamlParse 6
      (events_of [YScalar "c"; YSequence [YScalar "a"; YScalar "b"]]
         ++ [Event YAML_SEQUENCE_END_EVENT])
      conf_empty 0 true = Some (0%Z, [], h') ∧
    child_entries h' 0
    = [(Some "0", Some "c"); (Some "0", Some "a"); (Some "1", Some "b")].
Proof. eexists. split; [vm_compute; reflexivity|reflexivity]. Qed.

(** * Further properties of the loader *)

(** ** What the loader returns *)

Lemma ConfYamlParse_loop_ret (fuel : nat) :
  ∀ parser h parent inseq l r parser' h',
    ConfYamlParse_loop fuel parser h parent inseq l = Some (r, parser', h') →
    r = 0%Z ∨ r = (-1)%Z.
Proof.
  induction fuel as [|fuel IH]; intros parser h parent inseq l r parser' h' Hrun;
    [discriminate|].
  simpl in Hrun.
  destruct parser as [|[event|] parser]; simpl in Hrun.
  - eapply IH, Hrun.
  - destruct event; simpl in Hrun;
      try (eapply IH, Hrun); try (simplify_eq; by auto).
    + destruct version_directive as [v|]; [|simplify_eq; by auto].
      destruct (_ && _); [eapply IH, Hrun|simplify_eq; by auto].
    + destruct (on_scalar_Next value h parent inseq l) as (h1 & l1 & Hs).
      rewrite Hs in Hrun. eapply IH, Hrun.
    + destruct (ConfYamlParse_loop fuel parser h (node l) true (enter (node l)))
        as [[[r1 p1] h1]|]; [|discriminate].
      destruct (r1 =? 0)%Z; [eapply IH, Hrun|simplify_eq; by auto].
    + destruct inseq; simpl in Hrun.
      * destruct (ConfYamlParse_loop fuel parser _ (length h) false (enter (length h)))
          as [[[r1 p1] h1]|]; [|discriminate].
        eapply IH, Hrun.
      * destruct (ConfYamlParse_loop fuel parser h (node l) false (enter (node l)))
          as [[[r1 p1] h1]|]; [|discriminate].
        eapply IH, Hrun.
  - simplify_eq. by auto.
Qed.

(** X1.  The loader and both loads return 0 or -1, nothing else. *)
Theorem returns_0_or_minus_1 :
  (∀ fuel parser h parent inseq r parser' h',
     ConfYamlParse fuel parser h parent inseq = Some (r, parser', h') →
     r = 0%Z ∨ r = (-1)%Z) ∧
  (∀ fuel initialize_ok input root h r h',
     ConfYamlLoadString fuel initialize_ok input root h = Some (Returns r h') →
     r = 0%Z ∨ r = (-1)%Z) ∧
  (∀ fuel initialize_ok infile root h r h',
     ConfYamlLoadFile fuel initialize_ok infile root h = Some (Returns r h') →
     r = 0%Z ∨ r = (-1)%Z).
Proof.
  split; [|split].
  - intros fuel parser h parent inseq r parser' h'. apply ConfYamlParse_loop_ret.
  - intros fuel ok input root h r h'. unfold ConfYamlLoadString.
    destruct ok; simpl; [|done].
    destruct (ConfYamlParse fuel input h root false) as [[[r1 p1] h1]|] eqn:Hrun;
      [|done].
    intros [= <- <-]. eapply ConfYamlParse_loop_ret, Hrun.
  - intros fuel ok infile root h r h'. unfold ConfYamlLoadFile.
    destruct ok; simpl; [|intros [= <- <-]; auto].
    destruct infile as [parser|]; [|intros [= <- <-]; auto].
    destruct (ConfYamlParse fuel parser h root false) as [[[r1 p1] h1]|] eqn:Hrun;
      [|done].
    intros [= <- <-]. eapply ConfYamlParse_loop_ret, Hrun.
Qed.

Lemma returns_0_or_minus_1_witness : (0 = 0 ∨ 0 = -1)%Z.
Proof.
  apply (proj1 returns_0_or_minus_1 30 doc_logging conf_empty 0 false 0%Z []
           (match ConfYamlParse 30 doc_logging conf_empty 0 false with
            | Some (_, _, h') => h'
            | None => []
            end)).
  vm_compute. reflexivity.
Defined.




(** ** Well-nested input is accepted *)

(** X3.  An activation reads a well-nested run of nodes and returns 0 at
    the event that closes it, leaving what follows that event to its
    caller: the recursion gives control back at the matching end, in
    either mode and whatever the nodes hold. *)
Theorem returns_at_matching_end
    (ts : list ynode) (close : yaml_event_t) (rest : yaml_parser_t) :
  closes close = true →
  ∃ n, ∀ k h parent inseq,
    ∃ h', ConfYamlParse (n + k) (events_of ts ++ Event close :: rest) h parent inseq
          = Some (0%Z, rest, h').
Proof.
  intros Hclose. destruct (consumes_events_of ts) as [n Hn]. exists (n + 1).
  intros k h parent inseq.
  destruct (Hn (Event close :: rest) h parent inseq (enter parent)) as (h1 & l1 & K).
  exists h1. unfold ConfYamlParse. rewrite <- Nat.add_assoc. apply K.
  apply ConfYamlParse_loop_end. destruct close; try discriminate; auto.
Qed.

Lemma returns_at_matching_end_witness :
  ∃ n, ∀ k h parent inseq,
    ∃ h', ConfYamlParse (n + k)
            (events_of items_nested ++ Event YAML_MAPPING_END_EVENT
               :: [Event YAML_STREAM_END_EVENT]) h parent inseq
          = Some (0%Z, [Event YAML_STREAM_END_EVENT], h').
Proof.
  apply (returns_at_matching_end items_nested YAML_MAPPING_END_EVENT
           [Event YAML_STREAM_END_EVENT]).
  reflexivity.
Defined.

(** X4.  A stream of well-nested documents that all carry [%YAML 1.1],
    ended by [STREAM_END], is loaded with success: given enough fuel
    both loads return 0, whatever the tree holds. *)
Theorem well_nested_documents_load (docs : list ynode) :
  ∃ n, ∀ k root h,
    ∃ h',
      ConfYamlLoadString (n + k) true
        (Event YAML_STREAM_START_EVENT :: flat_map document_events docs
           ++ [Event YAML_STREAM_END_EVENT]) root h = Some (Returns 0 h') ∧
      ConfYamlLoadFile (n + k) true
        (Some (Event YAML_STREAM_START_EVENT :: flat_map document_events docs
                 ++ [Event YAML_STREAM_END_EVENT])) root h = Some (Returns 0 h').
Proof.
  destruct (consumes_documents docs) as [n Hn]. exists (n + 1). intros k root h.
  destruct (Hn [Event YAML_STREAM_END_EVENT] h root false (enter root))
    as (h1 & l1 & K).
  exists h1.
  assert (Hrun : ConfYamlParse (n + 1 + k)
            (Event YAML_STREAM_START_EVENT :: flat_map document_events docs
               ++ [Event YAML_STREAM_END_EVENT]) h root false
          = Some (0%Z, [], h1)).
  { unfold ConfYamlParse. rewrite <- Nat.add_assoc, app_comm_cons. apply K.
    apply ConfYamlParse_loop_end. auto. }
  unfold ConfYamlLoadString, ConfYamlLoadFile. simpl negb. cbv iota.
  by rewrite Hrun.
Qed.

(** ** What an activation leaves untouched *)

(** X5.  An activation changes no cell that was there before other
    than the cell of its parent and the cells of the nodes in the
    subtrees of those children of its parent on which [allow_override]
    is set: every other cell is as it was, and a cell that is not has
    been released and was in such a subtree.  The parent is supposed
    not to lie in the subtree of one of its children. *)
Theorem activation_frame
    (fuel : nat) (parser parser' : yaml_parser_t) (h h' : store) (parent : ptr)
    (inseq : bool) (r : Z) (pd : ConfNode) :
  deref h parent = Some pd →
  ¬ exposed h parent parent →
  ConfYamlParse fuel parser h parent inseq = Some (r, parser', h') →
  ∀ q, q < length h → q ≠ parent →
    h' !! q = h !! q ∨ (h' !! q = Some None ∧ exposed h parent q).
Proof.
  intros Hp Hsafe Hrun.
  by destruct (ConfYamlParse_frame _ _ _ _ _ _ _ _ _ Hp Hsafe Hrun) as [Hcells _].
Qed.

Lemma activation_frame_witness :
  ∃ h',
    ConfYamlParse 11 doc_x_y conf_seed_under_x 0 false = Some (0%Z, [], h') ∧
    ∀ q, q < length conf_seed_under_x → q ≠ 0 →
      h' !! q = conf_seed_under_x !! q ∨
      (h' !! q = Some None ∧ exposed conf_seed_under_x 0 q).
Proof.
  eexists. split; [vm_compute; reflexivity|].
  apply (activation_frame 11 doc_x_y [] conf_seed_under_x _ 0 false 0
           (mkConfNode None None false false [1])).
  - reflexivity.
  - intros (pd & c & Hpd & Hc & _ & Hu).
    injection Hpd as <-. simpl in Hc. apply list_elem_of_singleton in Hc as ->.
    inversion Hu as [|? cd d ? Hcd Hd Hu1]; subst.
    injection Hcd as <-. simpl in Hd. apply list_elem_of_singleton in Hd as ->.
    inversion Hu1 as [|? cd d ? Hcd Hd _]; subst.
    injection Hcd as <-. simpl in Hd. by apply elem_of_nil in Hd.
  - vm_compute. reflexivity.
Defined.

(** X6.  The parent of an activation is never released or renamed and
    keeps its flags.  The children it has afterwards are children it
    had or nodes made by the activation, and it still has every child
    it had on which [allow_override] was not set.  The parent is
    supposed not to lie in the subtree of one of its children. *)
Theorem parent_stays
    (fuel : nat) (parser parser' : yaml_parser_t) (h h' : store) (parent : ptr)
    (inseq : bool) (r : Z) (pd : ConfNode) :
  deref h parent = Some pd →
  ¬ exposed h parent parent →
  ConfYamlParse fuel parser h parent inseq = Some (r, parser', h') →
  ∃ pd', deref h' parent = Some pd' ∧
         name pd' = name pd ∧ is_seq pd' = is_seq pd ∧
         allow_override pd' = allow_override pd ∧
         (∀ c, c ∈ head pd' → c < length h → c ∈ head pd) ∧
         (∀ c, c ∈ head pd → ¬ overridable h c → c ∈ head pd').
Proof.
  intros Hp Hsafe Hrun.
  destruct (ConfYamlParse_frame _ _ _ _ _ _ _ _ _ Hp Hsafe Hrun)
    as [_ (pd0 & pd' & Hp0 & Hp' & Hrest)].
  assert (pd0 = pd) as -> by congruence. by exists pd'.
Qed.

Lemma parent_stays_witness :
  ∃ h',
    ConfYamlParse 11 doc_x_y conf_seed_under_x 0 false = Some (0%Z, [], h') ∧
    ∃ pd', deref h' 0 = Some pd' ∧
           name pd' = None ∧ is_seq pd' = false ∧ allow_override pd' = false ∧
           (∀ c, c ∈ head pd' → c < length conf_seed_under_x → c ∈ [1]) ∧
           (∀ c, c ∈ [1] → ¬ overridable conf_seed_under_x c → c ∈ head pd').
Proof.
  eexists. split; [vm_compute; reflexivity|].
  apply (parent_stays 11 doc_x_y [] conf_seed_under_x _ 0 false 0
           (mkConfNode None None false false [1])).
  - reflexivity.
  - intros (pd & c & Hpd & Hc & _ & Hu).
    injection Hpd as <-. simpl in Hc. apply list_elem_of_singleton in Hc as ->.
    inversion Hu as [|? cd d ? Hcd Hd Hu1]; subst.
    injection Hcd as <-. simpl in Hd. apply list_elem_of_singleton in Hd as ->.
    inversion Hu1 as [|? cd d ? Hcd Hd _]; subst.
    injection Hcd as <-. simpl in Hd. by apply elem_of_nil in Hd.
  - vm_compute. reflexivity.
Defined.

(** X7.  The store only grows, and the nodes an activation allocates get no
    node that was there before as a child: the loader never links an
    existing node under a new one. *)
Theorem new_nodes_link_new_nodes
    (fuel : nat) (parser parser' : yaml_parser_t) (h h' : store) (parent : ptr)
    (inseq : bool) (r : Z) :
  ConfYamlParse fuel parser h parent inseq = Some (r, parser', h') →
  length h ≤ length h' ∧
  ∀ q nd c, length h ≤ q → deref h' q = Some nd → c ∈ head nd → length h ≤ c.
Proof.
  intros Hrun. apply ConfYamlParse_loop_runs in Hrun.
  destruct (runs_closed _ _ _ _ _ Hrun (length h) (closed_from_length h) (le_n _))
    as [Hc Hl].
  split; [done|]. exact Hc.
Qed.

Lemma new_nodes_link_new_nodes_witness :
  length conf_empty ≤ length conf_apache ∧
  ∀ q nd c, length conf_empty ≤ q → deref conf_apache q = Some nd →
            c ∈ head nd → length conf_empty ≤ c.
Proof.
  apply (new_nodes_link_new_nodes 3
           [Event YAML_MAPPING_START_EVENT; Event (YAML_SCALAR_EVENT "apache-php");
            Event YAML_MAPPING_END_EVENT; Event YAML_SEQUENCE_END_EVENT]
           [] conf_empty conf_apache 0 true 0).
  vm_compute. reflexivity.
Defined.

(** ** Mappings of scalars *)

Lemma key_value_step (fuel : nat) (key value : string) (rest : yaml_parser_t)
    (h : store) (parent : ptr) (l : locals) (pd : ConfNode) :
  state l = CONF_KEY →
  deref h parent = Some pd →
  ConfNodeLookupChild h parent key = None →
  ∃ h2,
    ConfYamlParse_loop (S (S fuel))
      (Event (YAML_SCALAR_EVENT key) :: Event (YAML_SCALAR_EVENT value) :: rest)
      h parent false l
    = ConfYamlParse_loop fuel rest h2 parent false
        (mkLocals (length h) CONF_KEY (seq_idx l)) ∧
    length h2 = S (length h) ∧
    deref h2 (length h) = Some (entry_node key value) ∧
    (∃ pd2, deref h2 parent = Some pd2 ∧ head pd2 = head pd ++ [length h] ∧
            name pd2 = name pd ∧ is_seq pd2 = is_seq pd ∧
            allow_override pd2 = allow_override pd) ∧
    (∀ q, q < length h → q ≠ parent → h2 !! q = h !! q).
Proof.
  intros Hst Hp Hlook. pose proof (deref_lt _ _ _ Hp) as Hlt.
  destruct (new_key_Next key parent l h) as (h1 & l1 & Hk).
  destruct (new_key_spec _ _ _ _ _ _ _ Hp Hk)
    as (-> & Hlen & Hnew & (pd1 & Hp1 & Hhead & Hname & Hseq & Hov & _) & Hframe).
  exists (store_alter (set_val value) (length h) h1).
  split; [|split; [|split; [|split]]].
  - rewrite ConfYamlParse_loop_scalar. unfold on_scalar. rewrite Hst, Hlook, Hk.
    by rewrite ConfYamlParse_loop_scalar.
  - by rewrite length_store_alter.
  - by rewrite deref_store_alter_eq, Hnew.
  - exists pd1. rewrite deref_store_alter_ne by lia. done.
  - intros q Hq Hne. rewrite lookup_store_alter_ne by lia. by apply Hframe.
Qed.

Lemma flat_mapping_run (kvs : list (string * string)) :
  NoDup (kvs.*1) →
  ∀ rest fuel h parent pd l,
    state l = CONF_KEY →
    deref h parent = Some pd →
    Forall (λ c, c < length h) (head pd) →
    (∀ key, key ∈ kvs.*1 → ConfNodeLookupChild h parent key = None) →
    ∃ h',
      ConfYamlParse_loop (2 * length kvs + fuel) (mapping_events kvs ++ rest)
        h parent false l
      = ConfYamlParse_loop fuel rest h' parent false
          (mkLocals (cursor_after l h kvs) CONF_KEY (seq_idx l)) ∧
      length h' = length h + length kvs ∧
      (∃ pd', deref h' parent = Some pd' ∧
              head pd' = head pd ++ seq (length h) (length kvs) ∧
              name pd' = name pd ∧ is_seq pd' = is_seq pd ∧
              allow_override pd' = allow_override pd) ∧
      (∀ i key value, kvs !! i = Some (key, value) →
         deref h' (length h + i) = Some (entry_node key value) ∧
         ConfNodeLookupChild h' parent key = Some (length h + i)) ∧
      (∀ q, q < length h → q ≠ parent → h' !! q = h !! q).
Proof.
  induction kvs as [|[key value] kvs IH]; intros Hnodup rest fuel h parent pd l
    Hst Hp Halloc Hnone.
  - exists h. simpl. split; [by destruct l; simpl in *; subst|].
    split; [lia|]. split; [|split; [|done]].
    + exists pd. by rewrite app_nil_r.
    + intros i k v Hi. by rewrite lookup_nil in Hi.
  - simpl in Hnodup. apply NoDup_cons in Hnodup as [Hfresh Hnodup].
    pose proof (deref_lt _ _ _ Hp) as Hlt.
    destruct (key_value_step (2 * length kvs + fuel) key value
                (mapping_events kvs ++ rest) h parent l pd Hst Hp)
      as (h2 & Hstep & Hlen2 & Hnew2 & (pd2 & Hp2 & Hhead2 & Hname2 & Hseq2 & Hov2)
            & Hframe2).
    { apply Hnone. simpl. apply list_elem_of_here. }
    assert (Holdnames : ∀ k c, k ∈ (key, value).1 :: kvs.*1 → c ∈ head pd →
                          name_is h2 k c = false).
    { intros k c Hk Hc.
      rewrite (name_is_kept h h2 parent pd pd2 k c Hp Hp2 Hname2).
      2:{ intros Hne. apply Hframe2; [|done].
          by apply (proj1 (Forall_forall _ _) Halloc). }
      eapply ConfNodeLookupChild_None; [exact Hp|by apply Hnone|done]. }
    destruct (IH Hnodup rest fuel h2 parent pd2
                (mkLocals (length h) CONF_KEY (seq_idx l)) eq_refl Hp2)
      as (h' & Hrun & Hlen' & (pd' & Hp' & Hhead' & Hname' & Hseq' & Hov')
            & Hentries & Hframe').
    { rewrite Hhead2, Hlen2. apply Forall_app. split.
      - eapply Forall_impl; [exact Halloc|]. simpl. lia.
      - apply Forall_singleton. lia. }
    { intros k Hk. unfold ConfNodeLookupChild. rewrite Hp2, Hhead2.
      apply find_all_false. intros c Hc. apply elem_of_app in Hc as [Hc|Hc].
      - apply Holdnames; [|done]. by apply list_elem_of_further.
      - apply list_elem_of_singleton in Hc as ->. unfold name_is. rewrite Hnew2.
        apply bool_decide_eq_false. simpl. intros [= ->]. done. }
    exists h'. split; [|split; [|split; [|split]]].
    + replace (2 * length ((key, value) :: kvs) + fuel)
        with (S (S (2 * length kvs + fuel))) by (simpl; lia).
      cbn [mapping_events flat_map app fst snd]. fold (mapping_events kvs).
      rewrite Hstep, Hrun. do 2 f_equal.
      unfold cursor_after. destruct kvs; simpl; [lia|]. rewrite Hlen2. simpl. lia.
    + rewrite Hlen', Hlen2. simpl. lia.
    + exists pd'. rewrite Hhead', Hhead2, Hlen2, <- app_assoc. simpl.
      split; [done|]. split; [done|]. split; [congruence|]. split; congruence.
    + assert (Hat : h' !! length h = h2 !! length h).
      { apply Hframe'; lia. }
      intros [|i] k v Hi; simpl in Hi.
      * injection Hi as <- <-. rewrite Nat.add_0_r. split.
        -- unfold deref in *. by rewrite Hat.
        -- unfold ConfNodeLookupChild. rewrite Hp', Hhead', Hhead2, <- app_assoc.
           simpl. apply find_first_hit.
           ++ intros c Hc.
              rewrite (name_is_kept h2 h' parent pd2 pd' key c Hp2 Hp' Hname').
              2:{ intros Hne. apply Hframe'; [|done]. rewrite Hlen2.
                  apply (proj1 (Forall_forall _ _) Halloc) in Hc. lia. }
              apply Holdnames; [|done]. apply list_elem_of_here.
           ++ unfold name_is, deref. rewrite Hat.
              fold (deref h2 (length h)). rewrite Hnew2.
              by apply bool_decide_eq_true.
      * destruct (Hentries i k v Hi) as [Hcell Hlook].
        rewrite Hlen2 in Hcell, Hlook.
        replace (length h + S i) with (S (length h) + i) by lia. done.
    + intros q Hq Hne. rewrite Hframe' by (rewrite ?Hlen2; lia || done).
      by apply Hframe2.
Qed.

(** X8.  A mapping of scalars with distinct keys, none of which names a
    child of the parent yet, is loaded entry by entry: the activation
    returns 0 at the end of the mapping, the entries get the next
    cells of the store in order, each holding its key and value, they
    are appended to the children of the parent, every key is found
    again by [ConfNodeLookupChild], and no other cell changes. *)
Theorem flat_mapping_loaded
    (kvs : list (string * string)) (rest : yaml_parser_t) (fuel : nat)
    (h : store) (parent : ptr) (pd : ConfNode) :
  NoDup (kvs.*1) →
  deref h parent = Some pd →
  Forall (λ c, c < length h) (head pd) →
  (∀ key, key ∈ kvs.*1 → ConfNodeLookupChild h parent key = None) →
  ∃ h',
    ConfYamlParse (2 * length kvs + 1 + fuel)
      (mapping_events kvs ++ Event YAML_MAPPING_END_EVENT :: rest) h parent false
    = Some (0%Z, rest, h') ∧
    length h' = length h + length kvs ∧
    (∃ pd', deref h' parent = Some pd' ∧
            head pd' = head pd ++ seq (length h) (length kvs)) ∧
    (∀ i key value, kvs !! i = Some (key, value) →
       deref h' (length h + i) = Some (entry_node key value) ∧
       ConfNodeLookupChild h' parent key = Some (length h + i)) ∧
    (∀ q, q < length h → q ≠ parent → h' !! q = h !! q).
Proof.
  intros Hnodup Hp Halloc Hnone.
  destruct (flat_mapping_run kvs Hnodup (Event YAML_MAPPING_END_EVENT :: rest)
              (S fuel) h parent pd (enter parent) eq_refl Hp Halloc Hnone)
    as (h' & Hrun & Hlen & (pd' & Hp' & Hhead & _) & Hentries & Hframe).
  exists h'. split; [|split; [done|split; [by exists pd'|done]]].
  unfold ConfYamlParse.
  replace (2 * length kvs + 1 + fuel) with (2 * length kvs + S fuel) by lia.
  rewrite Hrun. apply ConfYamlParse_loop_end. auto.
Qed.

Lemma flat_mapping_loaded_witness :
  ∃ h',
    ConfYamlParse 5
      (mapping_events [("a", "1"); ("b", "2")] ++ [Event YAML_MAPPING_END_EVENT])
      conf_empty 0 false
    = Some (0%Z, [], h') ∧
    length h' = 3 ∧
    (∃ pd', deref h' 0 = Some pd' ∧ head pd' = [1; 2]) ∧
    (∀ i key value, [("a", "1"); ("b", "2")] !! i = Some (key, value) →
       deref h' (1 + i) = Some (entry_node key value) ∧
       ConfNodeLookupChild h' 0 key = Some (1 + i)) ∧
    (∀ q, q < 1 → q ≠ 0 → h' !! q = conf_empty !! q).
Proof.
  apply (flat_mapping_loaded [("a", "1"); ("b", "2")] [] 0 conf_empty 0 blank).
  - apply (bool_decide_unpack _). vm_compute. reflexivity.
  - reflexivity.
  - simpl. constructor.
  - intros key _. reflexivity.
Defined.

(** ** Sequences of scalars *)

Lemma set_head_set_head (pd : ConfNode) (xs ys : list ptr) :
  set_head (head (set_head (head pd ++ xs) pd) ++ ys) (set_head (head pd ++ xs) pd)
  = set_head (head pd ++ xs ++ ys) pd.
Proof. destruct pd. simpl. unfold set_head. simpl. by rewrite app_assoc. Qed.

Lemma scalar_sequence_run (vs : list string) :
  ∀ rest fuel h parent pd l,
    deref h parent = Some pd →
    ∃ h',
      ConfYamlParse_loop (length vs + fuel) (sequence_events vs ++ rest)
        h parent true l
      = ConfYamlParse_loop fuel rest h' parent true
          (mkLocals (node l) (state l) (seq_idx l + Z.of_nat (length vs))) ∧
      length h' = length h + length vs ∧
      deref h' parent = Some (set_head (head pd ++ seq (length h) (length vs)) pd) ∧
      (∀ i v, vs !! i = Some v →
         deref h' (length h + i) = Some (item_node (seq_idx l + Z.of_nat i) v)) ∧
      (∀ q, q < length h → q ≠ parent → h' !! q = h !! q).
Proof.
  induction vs as [|v vs IH]; intros rest fuel h parent pd l Hp.
  - exists h. simpl. rewrite Z.add_0_r, app_nil_r.
    split; [by destruct l|]. split; [lia|]. split; [by destruct pd|].
    split; [|done]. intros i v Hi. by rewrite lookup_nil in Hi.
  - pose proof (deref_lt _ _ _ Hp) as Hlt.
    set (h1 := TAILQ_INSERT_TAIL parent (length h)
                 (store_alter (set_val v) (length h)
                    (store_alter (set_name (snprintf_d (seq_idx l))) (length h)
                       (h ++ [Some blank])))).
    assert (Hlen1 : length h1 = S (length h)).
    { subst h1. unfold TAILQ_INSERT_TAIL.
      rewrite !length_store_alter, length_app. simpl. lia. }
    assert (Hp1 : deref h1 parent = Some (set_head (head pd ++ [length h]) pd))
      by by apply scalar_item_parent.
    assert (Hnew1 : deref h1 (length h) = Some (item_node (seq_idx l) v))
      by by apply (scalar_item_node h parent).
    assert (Hframe1 : ∀ q, q < length h → q ≠ parent → h1 !! q = h !! q).
    { intros q Hq Hne. subst h1. rewrite lookup_insert_tail_ne by done.
      rewrite !lookup_store_alter_ne by lia. by apply lookup_new_old. }
    destruct (IH rest fuel h1 parent _
                (mkLocals (node l) (state l) (seq_idx l + 1)) Hp1)
      as (h' & Hrun & Hlen' & Hp' & Hitems & Hframe').
    exists h'. split; [|split; [|split; [|split]]].
    + cbn [length sequence_events map app Nat.add].
      fold (sequence_events vs). rewrite ConfYamlParse_loop_scalar.
      unfold on_scalar, ConfNodeNew. fold h1. rewrite Hrun. cbn [node state seq_idx].
      do 2 f_equal. lia.
    + rewrite Hlen', Hlen1. simpl. lia.
    + rewrite Hp', Hlen1, set_head_set_head. done.
    + intros [|i] w Hi; simpl in Hi.
      * injection Hi as <-. rewrite Nat.add_0_r, Z.add_0_r.
        unfold deref in *. rewrite Hframe' by lia. done.
      * specialize (Hitems i w Hi). rewrite Hlen1 in Hitems. cbn [seq_idx] in Hitems.
        replace (length h + S i) with (S (length h) + i) by lia.
        rewrite Hitems. do 2 f_equal. lia.
    + intros q Hq Hne. rewrite Hframe' by (rewrite ?Hlen1; lia || done).
      by apply Hframe1.
Qed.

(** X9.  The items of a sequence of scalars are loaded in order: the
    activation in sequence mode returns 0 at the end of the sequence,
    item [i] gets the [i]-th next cell of the store, named by the
    decimal form of [i] and holding its value, the items are appended
    to the children of the parent, and no other cell changes. *)
Theorem scalar_sequence_loaded
    (vs : list string) (rest : yaml_parser_t) (fuel : nat) (h : store)
    (parent : ptr) (pd : ConfNode) :
  deref h parent = Some pd →
  ∃ h',
    ConfYamlParse (length vs + 1 + fuel)
      (sequence_events vs ++ Event YAML_SEQUENCE_END_EVENT :: rest) h parent true
    = Some (0%Z, rest, h') ∧
    length h' = length h + length vs ∧
    deref h' parent = Some (set_head (head pd ++ seq (length h) (length vs)) pd) ∧
    (∀ i v, vs !! i = Some v →
       deref h' (length h + i) = Some (item_node (Z.of_nat i) v)) ∧
    (∀ q, q < length h → q ≠ parent → h' !! q = h !! q).
Proof.
  intros Hp.
  destruct (scalar_sequence_run vs (Event YAML_SEQUENCE_END_EVENT :: rest)
              (S fuel) h parent pd (enter parent) Hp)
    as (h' & Hrun & Hlen & Hp' & Hitems & Hframe).
  exists h'. split; [|done].
  unfold ConfYamlParse.
  replace (length vs + 1 + fuel) with (length vs + S fuel) by lia.
  rewrite Hrun. apply ConfYamlParse_loop_end. auto.
Qed.

Lemma scalar_sequence_loaded_witness :
  ∃ h',
    ConfYamlParse 3
      (sequence_events ["netbios.rules"; "x11.rules"]
         ++ [Event YAML_SEQUENCE_END_EVENT]) conf_empty 0 true
    = Some (0%Z, [], h') ∧
    length h' = 3 ∧
    deref h' 0 = Some (set_head [1; 2] blank) ∧
    (∀ i v, ["netbios.rules"; "x11.rules"] !! i = Some v →
       deref h' (1 + i) = Some (item_node (Z.of_nat i) v)) ∧
    (∀ q, q < 1 → q ≠ 0 → h' !! q = conf_empty !! q).
Proof.
  apply (scalar_sequence_loaded ["netbios.rules"; "x11.rules"] [] 0 conf_empty 0 blank).
  reflexivity.
Defined.

(** ** A key and what follows it *)

Lemma key_step (fuel : nat) (key : string) (rest : yaml_parser_t) (h : store)
    (parent : ptr) (l : locals) (pd : ConfNode) :
  state l = CONF_KEY →
  deref h parent = Some pd →
  ConfNodeLookupChild h parent key = None →
  ∃ h1,
    ConfYamlParse_loop (S fuel) (Event (YAML_SCALAR_EVENT key) :: rest)
      h parent false l
    = ConfYamlParse_loop fuel rest h1 parent false
        (mkLocals (length h) CONF_VAL (seq_idx l)) ∧
    length h1 = S (length h) ∧
    deref h1 (length h) = Some (set_name key blank) ∧
    (∃ pd1, deref h1 parent = Some pd1 ∧ head pd1 = head pd ++ [length h] ∧
            name pd1 = name pd) ∧
    (∀ q, q < length h → q ≠ parent → h1 !! q = h !! q).
Proof.
  intros Hst Hp Hlook.
  destruct (new_key_Next key parent l h) as (h1 & l1 & Hk).
  destruct (new_key_spec _ _ _ _ _ _ _ Hp Hk)
    as (-> & Hlen & Hnew & (pd1 & Hp1 & Hhead & Hname & _) & Hframe).
  exists h1. split; [|split; [done|split; [done|split; [by exists pd1|done]]]].
  rewrite ConfYamlParse_loop_scalar. unfold on_scalar. by rewrite Hst, Hlook, Hk.
Qed.

(** A key that names no child of the parent is found at the node made
    for it, as long as the older children keep their names. *)
Lemma ConfNodeLookupChild_new (h h' : store) (parent c : ptr) (pd pd' cd : ConfNode)
    (key : string) :
  deref h parent = Some pd →
  Forall (λ c, c < length h) (head pd) →
  ConfNodeLookupChild h parent key = None →
  deref h' parent = Some pd' →
  name pd' = name pd →
  head pd' = head pd ++ [c] →
  (∀ q, q < length h → q ≠ parent → h' !! q = h !! q) →
  deref h' c = Some cd →
  name cd = Some key →
  ConfNodeLookupChild h' parent key = Some c.
Proof.
  intros Hp Halloc Hnone Hp' Hname Hhead Hframe Hc Hcd.
  unfold ConfNodeLookupChild. rewrite Hp', Hhead. apply find_first_hit.
  - intros q Hq. rewrite (name_is_kept h h' parent pd pd' key q Hp Hp' Hname).
    + by eapply ConfNodeLookupChild_None.
    + intros Hne. apply Hframe; [|done]. by apply (proj1 (Forall_forall _ _) Halloc).
  - unfold name_is. rewrite Hc. by apply bool_decide_eq_true.
Qed.

(** X10.  A new key followed by a sequence of scalars, as in
<<
rule-files:
  - netbios.rules
  - x11.rules
>>
    The key gets the next cell of the store, the items the cells after
    it; the items are the children of the node of the key, which is
    found under the parent by its name and holds no value. *)
Theorem key_sequence_loaded
    (key : string) (vs : list string) (rest : yaml_parser_t) (fuel : nat)
    (h : store) (parent : ptr) (pd : ConfNode) :
  deref h parent = Some pd →
  Forall (λ c, c < length h) (head pd) →
  ConfNodeLookupChild h parent key = None →
  ∃ h',
    ConfYamlParse (length vs + 3 + fuel)
      (Event (YAML_SCALAR_EVENT key) :: Event YAML_SEQUENCE_START_EVENT ::
       sequence_events vs ++
       Event YAML_SEQUENCE_END_EVENT :: Event YAML_MAPPING_END_EVENT :: rest)
      h parent false
    = Some (0%Z, rest, h') ∧
    ConfNodeLookupChild h' parent key = Some (length h) ∧
    deref h' (length h)
    = Some (mkConfNode (Some key) None false false (seq (S (length h)) (length vs))) ∧
    (∀ i v, vs !! i = Some v →
       deref h' (S (length h) + i) = Some (item_node (Z.of_nat i) v)) ∧
    (∀ q, q < length h → q ≠ parent → h' !! q = h !! q).
Proof.
  intros Hp Halloc Hnone. pose proof (deref_lt _ _ _ Hp) as Hlt.
  destruct (key_step (length vs + 2 + fuel) key
              (Event YAML_SEQUENCE_START_EVENT :: sequence_events vs ++
               Event YAML_SEQUENCE_END_EVENT :: Event YAML_MAPPING_END_EVENT :: rest)
              h parent (enter parent) pd eq_refl Hp Hnone)
    as (h1 & Hstep & Hlen1 & Hnew1 & (pd1 & Hp1 & Hhead1 & Hname1) & Hframe1).
  destruct (scalar_sequence_run vs
              (Event YAML_SEQUENCE_END_EVENT :: Event YAML_MAPPING_END_EVENT :: rest)
              (S fuel) h1 (length h) _ (enter (length h)) Hnew1)
    as (h' & Hrun & Hlen' & Hkey' & Hitems & Hframe').
  rewrite Hlen1 in Hitems, Hkey'. cbn [enter seq_idx Z.add] in Hitems.
  exists h'. split; [|split; [|split; [done|split; [done|]]]].
  - unfold ConfYamlParse.
    replace (length vs + 3 + fuel) with (S (length vs + 2 + fuel)) by lia.
    rewrite Hstep.
    replace (length vs + 2 + fuel) with (S (length vs + 1 + fuel)) by lia.
    rewrite ConfYamlParse_loop_sequence_start. cbn [node seq_idx].
    unfold ConfYamlParse at 1.
    replace (length vs + 1 + fuel) with (length vs + S fuel) by lia.
    rewrite Hrun, (ConfYamlParse_loop_end fuel YAML_SEQUENCE_END_EVENT) by auto.
    cbn [Z.eqb].
    replace (length vs + S fuel) with (S (length vs + fuel)) by lia.
    apply ConfYamlParse_loop_end. auto.
  - assert (Hpar : h' !! parent = h1 !! parent) by (apply Hframe'; lia).
    eapply (ConfNodeLookupChild_new h h' parent (length h) pd pd1);
      try done.
    + unfold deref in *. by rewrite Hpar.
    + intros q Hq Hne. rewrite Hframe' by lia. by apply Hframe1.
  - intros q Hq Hne. rewrite Hframe' by lia. by apply Hframe1.
Qed.

Lemma key_sequence_loaded_witness :
  ∃ h',
    ConfYamlParse 5
      (Event (YAML_SCALAR_EVENT "rule-files") :: Event YAML_SEQUENCE_START_EVENT ::
       sequence_events ["netbios.rules"; "x11.rules"] ++
       [Event YAML_SEQUENCE_END_EVENT; Event YAML_MAPPING_END_EVENT])
      conf_empty 0 false
    = Some (0%Z, [], h') ∧
    ConfNodeLookupChild h' 0 "rule-files" = Some 1 ∧
    deref h' 1 = Some (mkConfNode (Some "rule-files") None false false [2; 3]) ∧
    (∀ i v, ["netbios.rules"; "x11.rules"] !! i = Some v →
       deref h' (2 + i) = Some (item_node (Z.of_nat i) v)) ∧
    (∀ q, q < 1 → q ≠ 0 → h' !! q = conf_empty !! q).
Proof.
  apply (key_sequence_loaded "rule-files" ["netbios.rules"; "x11.rules"] [] 0
           conf_empty 0 blank).
  - reflexivity.
  - simpl. constructor.
  - reflexivity.
Defined.

(** X11.  A new key followed by a mapping of scalars with distinct
    keys, as in
<<
logging:
  output: console
  level: info
>>
    The entries of the inner mapping become the children of the node
    of the key: the key is found under the parent, every inner key is
    found under the node of the key, at a cell that holds its key and
    value. *)
Theorem key_mapping_loaded
    (key : string) (kvs : list (string * string)) (rest : yaml_parser_t)
    (fuel : nat) (h : store) (parent : ptr) (pd : ConfNode) :
  NoDup (kvs.*1) →
  deref h parent = Some pd →
  Forall (λ c, c < length h) (head pd) →
  ConfNodeLookupChild h parent key = None →
  ∃ h',
    ConfYamlParse (2 * length kvs + 3 + fuel)
      (Event (YAML_SCALAR_EVENT key) :: Event YAML_MAPPING_START_EVENT ::
       mapping_events kvs ++
       Event YAML_MAPPING_END_EVENT :: Event YAML_MAPPING_END_EVENT :: rest)
      h parent false
    = Some (0%Z, rest, h') ∧
    ConfNodeLookupChild h' parent key = Some (length h) ∧
    (∀ i k v, kvs !! i = Some (k, v) →
       ConfNodeLookupChild h' (length h) k = Some (S (length h) + i) ∧
       deref h' (S (length h) + i) = Some (entry_node k v)) ∧
    (∀ q, q < length h → q ≠ parent → h' !! q = h !! q).
Proof.
  intros Hnodup Hp Halloc Hnone. pose proof (deref_lt _ _ _ Hp) as Hlt.
  destruct (key_step (2 * length kvs + 2 + fuel) key
              (Event YAML_MAPPING_START_EVENT :: mapping_events kvs ++
               Event YAML_MAPPING_END_EVENT :: Event YAML_MAPPING_END_EVENT :: rest)
              h parent (enter parent) pd eq_refl Hp Hnone)
    as (h1 & Hstep & Hlen1 & Hnew1 & (pd1 & Hp1 & Hhead1 & Hname1) & Hframe1).
  destruct (flat_mapping_run kvs Hnodup
              (Event YAML_MAPPING_END_EVENT :: Event YAML_MAPPING_END_EVENT :: rest)
              (S fuel) h1 (length h) _ (enter (length h)) eq_refl Hnew1)
    as (h' & Hrun & Hlen' & (kd & Hkey' & Hkids & Hkname & _) & Hentries & Hframe').
  { simpl. constructor. }
  { intros k _. unfold ConfNodeLookupChild. by rewrite Hnew1. }
  rewrite Hlen1 in Hentries.
  exists h'. split; [|split; [|split]].
  - unfold ConfYamlParse.
    replace (2 * length kvs + 3 + fuel) with (S (2 * length kvs + 2 + fuel)) by lia.
    rewrite Hstep.
    replace (2 * length kvs + 2 + fuel) with (S (2 * length kvs + 1 + fuel)) by lia.
    rewrite ConfYamlParse_loop_mapping_start. cbn [node seq_idx].
    unfold ConfYamlParse at 1.
    replace (2 * length kvs + 1 + fuel) with (2 * length kvs + S fuel) by lia.
    rewrite Hrun, (ConfYamlParse_loop_end fuel YAML_MAPPING_END_EVENT) by auto.
    replace (2 * length kvs + S fuel) with (S (2 * length kvs + fuel)) by lia.
    apply ConfYamlParse_loop_end. auto.
  - assert (Hpar : h' !! parent = h1 !! parent) by (apply Hframe'; lia).
    eapply (ConfNodeLookupChild_new h h' parent (length h) pd pd1); try done.
    + unfold deref in *. by rewrite Hpar.
    + intros q Hq Hne. rewrite Hframe' by lia. by apply Hframe1.
  - intros i k v Hi. destruct (Hentries i k v Hi) as [Hcell Hlook]. done.
  - intros q Hq Hne. rewrite Hframe' by lia. by apply Hframe1.
Qed.

Lemma key_mapping_loaded_witness :
  ∃ h',
    ConfYamlParse 7
      (Event (YAML_SCALAR_EVENT "logging") :: Event YAML_MAPPING_START_EVENT ::
       mapping_events [("output", "console"); ("level", "info")] ++
       [Event YAML_MAPPING_END_EVENT; Event YAML_MAPPING_END_EVENT])
      conf_empty 0 false
    = Some (0%Z, [], h') ∧
    ConfNodeLookupChild h' 0 "logging" = Some 1 ∧
    (∀ i k v, [("output", "console"); ("level", "info")] !! i = Some (k, v) →
       ConfNodeLookupChild h' 1 k = Some (2 + i) ∧
       deref h' (2 + i) = Some (entry_node k v)) ∧
    (∀ q, q < 1 → q ≠ 0 → h' !! q = conf_empty !! q).
Proof.
  apply (key_mapping_loaded "logging" [("output", "console"); ("level", "info")]
           [] 0 conf_empty 0 blank).
  - apply (bool_decide_unpack _). vm_compute. reflexivity.
  - reflexivity.
  - simpl. constructor.
  - reflexivity.
Defined.

(** ** Overriding a key *)

(** X12.  A key that names a child of the parent on which
    [allow_override] is set replaces it: the old node leaves the
    children of the parent and is released with its whole subtree, a
    new node holding the key and the value that follows is appended to
    the children of the parent, and the cells of the nodes outside
    that subtree, but for the parent, do not change.  If no other
    child has the name, the key is found at the new node afterwards.
    The parent is supposed not to lie in the subtree of the child. *)
Theorem override_replaces
    (key value : string) (rest : yaml_parser_t) (fuel : nat) (h : store)
    (parent n0 : ptr) (pd nd0 : ConfNode) :
  deref h parent = Some pd →
  ConfNodeLookupChild h parent key = Some n0 →
  deref h n0 = Some nd0 →
  allow_override nd0 = true →
  ¬ under h n0 parent →
  ∃ h',
    ConfYamlParse (3 + fuel)
      (Event (YAML_SCALAR_EVENT key) :: Event (YAML_SCALAR_EVENT value) ::
       Event YAML_MAPPING_END_EVENT :: rest) h parent false
    = Some (0%Z, rest, h') ∧
    (∀ q, under h n0 q → q < length h → deref h' q = None) ∧
    deref h' (length h) = Some (entry_node key value) ∧
    (∃ pd', deref h' parent = Some pd' ∧
            head pd' = List.filter (λ c, negb (c =? n0)) (head pd) ++ [length h]) ∧
    (∀ q, q < length h → q ≠ parent → ¬ under h n0 q → h' !! q = h !! q) ∧
    ((∀ c, c ∈ head pd → c ≠ n0 → c < length h ∧ name_is h key c = false) →
     ConfNodeLookupChild h' parent key = Some (length h)).
Proof.
  intros Hp Hlook Hn0 Hov Hout.
  pose proof (deref_lt _ _ _ Hp) as Hlt. pose proof (deref_lt _ _ _ Hn0) as Hlt0.
  set (hr := ConfNodeRemove parent n0 h).
  assert (Hpr : deref hr parent
                = Some (set_head (List.filter (λ c, negb (c =? n0)) (head pd)) pd))
    by by apply deref_ConfNodeRemove_parent.
  assert (Hlenr : length hr = length h) by apply length_ConfNodeRemove.
  destruct (new_key_Next key parent (enter parent) hr) as (h1 & l1 & Hk).
  destruct (new_key_spec _ _ _ _ _ _ _ Hpr Hk)
    as (-> & Hlen1 & Hnew1 & (pd1 & Hp1 & Hhead1 & Hname1 & _) & Hframe1).
  rewrite Hlenr in *.
  assert (Hframe : ∀ q, q < length h → q ≠ parent →
                     store_alter (set_val value) (length h) h1 !! q = hr !! q).
  { intros q Hq Hq'. rewrite lookup_store_alter_ne by lia. by apply Hframe1. }
  exists (store_alter (set_val value) (length h) h1).
  split; [|split; [|split; [|split; [|split]]]].
  - unfold ConfYamlParse. cbn [Nat.add].
    rewrite ConfYamlParse_loop_scalar. unfold on_scalar. cbn [enter state].
    rewrite Hlook, Hn0. cbn [from_option]. rewrite Hov. fold hr.
    change (mkLocals parent CONF_KEY 0) with (enter parent). rewrite Hk.
    rewrite ConfYamlParse_loop_scalar. unfold on_scalar. cbn [state node seq_idx].
    apply ConfYamlParse_loop_end. auto.
  - intros q Hu Hq. assert (q ≠ parent) by (by intros ->).
    unfold deref. rewrite Hframe by done.
    by apply (ConfNodeRemove_released parent n0 q h).
  - by rewrite deref_store_alter_eq, Hnew1.
  - exists pd1. by rewrite deref_store_alter_ne by lia.
  - intros q Hq Hq1 Hq2. rewrite Hframe by done.
    by apply lookup_ConfNodeRemove_ne.
  - intros Hothers. unfold ConfNodeLookupChild.
    rewrite deref_store_alter_ne, Hp1, Hhead1 by lia. apply find_first_hit.
    + intros c Hc. apply list_elem_of_In, filter_In in Hc as [Hc Hc0].
      apply list_elem_of_In in Hc. apply negb_true_iff, Nat.eqb_neq in Hc0.
      destruct (Hothers c Hc Hc0) as [Hcl Hcn].
      destruct (decide (c = parent)) as [->|Hcp].
      * rewrite <- Hcn. unfold name_is.
        rewrite deref_store_alter_ne, Hp1, Hp by lia. simpl in Hname1.
        by rewrite Hname1.
      * unfold name_is, deref. rewrite Hframe by done.
        destruct (ConfNodeRemove_cases parent n0 c h Hcp) as [E|[E _]]; fold hr in E.
        -- rewrite E. exact Hcn.
        -- by rewrite E.
    + unfold name_is. rewrite deref_store_alter_eq, Hnew1.
      by apply bool_decide_eq_true.
Qed.

Lemma override_replaces_witness :
  ∃ h',
    ConfYamlParse 3
      [Event (YAML_SCALAR_EVENT "x"); Event (YAML_SCALAR_EVENT "new");
       Event YAML_MAPPING_END_EVENT] conf_deep 0 false
    = Some (0%Z, [], h') ∧
    (∀ q, under conf_deep 1 q → q < 3 → deref h' q = None) ∧
    deref h' 3 = Some (entry_node "x" "new") ∧
    (∃ pd', deref h' 0 = Some pd' ∧ head pd' = [3]) ∧
    (∀ q, q < 3 → q ≠ 0 → ¬ under conf_deep 1 q → h' !! q = conf_deep !! q) ∧
    ((∀ c, c ∈ [1] → c ≠ 1 → c < 3 ∧ name_is conf_deep "x" c = false) →
     ConfNodeLookupChild h' 0 "x" = Some 3).
Proof.
  apply (override_replaces "x" "new" [] 0 conf_deep 0 1
           (mkConfNode None None false false [1])
           (mkConfNode (Some "x") None false true [2])).
  - reflexivity.
  - reflexivity.
  - reflexivity.
  - reflexivity.
  - intros Hu. inversion Hu as [|? cd d ? Hcd Hd Hu1]; subst.
    injection Hcd as <-. simpl in Hd. apply list_elem_of_singleton in Hd as ->.
    inversion Hu1 as [|? cd d ? Hcd Hd _]; subst.
    injection Hcd as <-. simpl in Hd. by apply elem_of_nil in Hd.
Defined.

(** ** Failures inside sequences *)

Lemma sequence_failure_loop
    (depth : nat) (item : yaml_item) (rest : yaml_parser_t) (fuel : nat) :
  harmless item = false →
  ∀ h parent inseq l,
    ∃ parser',
      ConfYamlParse_loop (S depth + fuel)
        (repeat (Event YAML_SEQUENCE_START_EVENT) depth ++ item :: rest)
        h parent inseq l
      = Some ((-1)%Z, parser', h).
Proof.
  intros Hitem. induction depth as [|depth IH]; intros h parent inseq l.
  - cbn [repeat app Nat.add]. destruct item as [[]|]; try discriminate.
    + exists rest. simpl in Hitem. unfold version_accepted in Hitem.
      destruct version_directive as [v|]; [|done]. simpl.
      unfold YAML_VERSION_MAJOR, YAML_VERSION_MINOR. by rewrite Hitem.
    + by exists [].
  - destruct (IH h (node l) true (enter (node l))) as [parser' Hin].
    exists parser'. cbn [repeat app].
    change (S (S depth) + fuel) with (S (S depth + fuel)).
    rewrite ConfYamlParse_loop_sequence_start. unfold ConfYamlParse.
    by rewrite Hin.
Qed.

(** X13.  A failure inside nested sequences reaches the caller: after
    any number of [SEQUENCE_START] events, a scanner error or a
    document whose version is not accepted makes every activation on
    the way return -1, with the store as it was, and so do the two
    loads. *)
Theorem sequence_failure_propagates
    (depth : nat) (item : yaml_item) (rest : yaml_parser_t) (fuel : nat)
    (h : store) (parent : ptr) (inseq : bool) :
  harmless item = false →
  let parser := repeat (Event YAML_SEQUENCE_START_EVENT) depth ++ item :: rest in
  (∃ parser', ConfYamlParse (S depth + fuel) parser h parent inseq
              = Some ((-1)%Z, parser', h)) ∧
  ConfYamlLoadString (S depth + fuel) true parser parent h = Some (Returns (-1) h) ∧
  ConfYamlLoadFile (S depth + fuel) true (Some parser) parent h
  = Some (Returns (-1) h).
Proof.
  intros Hitem parser.
  split; [apply sequence_failure_loop; done|].
  destruct (sequence_failure_loop depth item rest fuel Hitem h parent false
              (enter parent)) as [parser' Hrun].
  unfold ConfYamlLoadString, ConfYamlLoadFile, ConfYamlParse. subst parser.
  cbn [negb]. by rewrite Hrun.
Qed.

Lemma sequence_failure_propagates_witness :
  (∃ parser',
     ConfYamlParse 3
       [Event YAML_SEQUENCE_START_EVENT; Event YAML_SEQUENCE_START_EVENT; Problem]
       conf_seeded 0 false = Some ((-1)%Z, parser', conf_seeded)) ∧
  ConfYamlLoadString 3 true
    [Event YAML_SEQUENCE_START_EVENT; Event YAML_SEQUENCE_START_EVENT; Problem]
    0 conf_seeded = Some (Returns (-1) conf_seeded) ∧
  ConfYamlLoadFile 3 true
    (Some [Event YAML_SEQUENCE_START_EVENT; Event YAML_SEQUENCE_START_EVENT; Problem])
    0 conf_seeded = Some (Returns (-1) conf_seeded).
Proof.
  apply (sequence_failure_propagates 2 Problem [] 0 conf_seeded 0 false).
  reflexivity.
Defined.

(** ** Events without a case *)

Lemma without_ignored_loop (fuel : nat) :
  ∀ parser h parent inseq l r parser' h',
    ConfYamlParse_loop fuel parser h parent inseq l = Some (r, parser', h') →
    ConfYamlParse_loop fuel (without_ignored parser) h parent inseq l
    = Some (r, without_ignored parser', h').
Proof.
  induction fuel as [|fuel IH]; intros parser h parent inseq l r parser' h' Hrun;
    [done|].
  destruct parser as [|[event|] parser].
  - by rewrite ConfYamlParse_loop_exhausted in Hrun.
  - destruct event;
      cbn [without_ignored List.filter ignored negb]; fold (without_ignored parser).
    + rewrite ConfYamlParse_loop_ignored in Hrun by auto.
      by apply ConfYamlParse_loop_S, IH.
    + rewrite ConfYamlParse_loop_ignored in Hrun by auto.
      by apply ConfYamlParse_loop_S, IH.
    + rewrite ConfYamlParse_loop_end in Hrun by auto. injection Hrun as <- <- <-.
      apply ConfYamlParse_loop_end. auto.
    + rewrite ConfYamlParse_loop_document_start in Hrun |- *.
      destruct version_directive as [v|]; [|by injection Hrun as <- <- <-].
      destruct (_ && _); [by apply IH|by injection Hrun as <- <- <-].
    + rewrite ConfYamlParse_loop_ignored in Hrun by auto.
      by apply ConfYamlParse_loop_S, IH.
    + rewrite ConfYamlParse_loop_ignored in Hrun by eauto.
      by apply ConfYamlParse_loop_S, IH.
    + rewrite ConfYamlParse_loop_scalar in Hrun |- *.
      destruct (on_scalar_Next value h parent inseq l) as (h1 & l1 & Hs).
      rewrite Hs in Hrun |- *. by apply IH.
    + rewrite ConfYamlParse_loop_sequence_start in Hrun |- *. unfold ConfYamlParse in *.
      destruct (ConfYamlParse_loop fuel parser h (node l) true _)
        as [[[r1 p1] h1]|] eqn:Hin; [|done].
      rewrite (IH _ _ _ _ _ _ _ _ Hin).
      destruct (r1 =? 0)%Z; [by apply IH|by injection Hrun as <- <- <-].
    + rewrite ConfYamlParse_loop_end in Hrun by auto. injection Hrun as <- <- <-.
      apply ConfYamlParse_loop_end. auto.
    + destruct inseq.
      * rewrite ConfYamlParse_loop_mapping_start_inseq in Hrun |- *.
        unfold ConfYamlParse in *.
        destruct (ConfYamlParse_loop fuel parser _ (length h) false _)
          as [[[r1 p1] h1]|] eqn:Hin; [|done].
        rewrite (IH _ _ _ _ _ _ _ _ Hin). by apply IH.
      * rewrite ConfYamlParse_loop_mapping_start in Hrun |- *.
        unfold ConfYamlParse in *.
        destruct (ConfYamlParse_loop fuel parser h (node l) false _)
          as [[[r1 p1] h1]|] eqn:Hin; [|done].
        rewrite (IH _ _ _ _ _ _ _ _ Hin). by apply IH.
    + rewrite ConfYamlParse_loop_end in Hrun by auto. injection Hrun as <- <- <-.
      apply ConfYamlParse_loop_end. auto.
  - rewrite ConfYamlParse_loop_problem in Hrun. injection Hrun as <- <- <-.
    apply ConfYamlParse_loop_problem.
Qed.

(** X14.  The events for which the loop has no case leave no trace:
    aliases, ends of documents, starts of streams and empty events can
    be taken out of the input, and the activation and the two loads
    return the same value and the same store. *)
Theorem ignored_events_leave_no_trace
    (fuel : nat) (parser : yaml_parser_t) (h : store) (parent : ptr) :
  (∀ inseq r parser' h',
     ConfYamlParse fuel parser h parent inseq = Some (r, parser', h') →
     ConfYamlParse fuel (without_ignored parser) h parent inseq
     = Some (r, without_ignored parser', h')) ∧
  (∀ r h',
     ConfYamlLoadString fuel true parser parent h = Some (Returns r h') →
     ConfYamlLoadString fuel true (without_ignored parser) parent h
     = Some (Returns r h')) ∧
  (∀ r h',
     ConfYamlLoadFile fuel true (Some parser) parent h = Some (Returns r h') →
     ConfYamlLoadFile fuel true (Some (without_ignored parser)) parent h
     = Some (Returns r h')).
Proof.
  split; [intros inseq r parser' h'; apply without_ignored_loop|].
  unfold ConfYamlLoadString, ConfYamlLoadFile, ConfYamlParse. cbn [negb].
  split; intros r h' Hrun;
    destruct (ConfYamlParse_loop fuel parser h parent false _)
      as [[[r1 p1] h1]|] eqn:Hin; try done;
    injection Hrun as <- <-; by rewrite (without_ignored_loop _ _ _ _ _ _ _ _ _ Hin).
Qed.

Lemma ignored_events_leave_no_trace_witness :
  ∃ h',
    ConfYamlLoadString 8 true doc_foo 0 conf_empty = Some (Returns 0 h') ∧
    ConfYamlLoadString 8 true (without_ignored doc_foo) 0 conf_empty
    = Some (Returns 0 h').
Proof.
  eexists. split; [vm_compute; reflexivity|].
  apply (proj1 (proj2 (ignored_events_leave_no_trace 8 doc_foo conf_empty 0))).
  vm_compute. reflexivity.
Defined.

